(** * Verification of the Atlas extraction pipeline (app/extraction)

    Shallow embedding of the pure parts of the PDF extraction pipeline:
    the block cleaner (block_cleaner.py), the heading classifier
    (structural_segmentation.py), the semantic chunker
    (semantic_chunking.py), the keyword extractor (keywords.py), the
    PDF gate of the orchestrator (pipeline.py) and the size guard of the
    layout extractor (layout_extraction.py).

    Modelling conventions.
    - A Python [str] is a list of characters; a character is a Rocq
      [ascii], read as a Latin-1 code point (0..255).  Character classes
      ([str.isspace], [str.isalnum], [str.lower], regex [\s] and [\d])
      follow Python's Unicode tables restricted to that range.
    - A Python float (font sizes, bounding boxes) is the rational [Q]
      it denotes; comparisons between floats are exact, and arithmetic
      on them is rounded to binary64 ([round64], [fadd], [fsub], [fmul],
      [fdiv]); ratio tests such as [a / n > 0.3] between
      integers are written as integer cross-multiplications, which agree
      with the double-precision comparison for all lengths below 10^15.
    - Randomly generated identifiers ([uuid.uuid4()]) and the external
      PDF libraries are parameters of the Sections that use them. *)

From Stdlib Require Import Ascii String List Arith Lia Bool ZArith QArith.
From Stdlib Require Import Qminmax Lqa Sorting.Permutation Sorting.Sorted.
Import ListNotations.

Open Scope list_scope.

(* ------------------------------------------------------------------ *)
(** ** Strings and character classes *)

Definition str := list ascii.

(** String literals are written with Rocq's [string] notation and
    converted. *)
Definition s_ (s : string) : str := list_ascii_of_string s.

Definition code (c : ascii) : nat := nat_of_ascii c.

(** [str.isspace] / regex [\s]: \t \n \v \f \r, \x1c-\x1f, space, \x85, \xa0. *)
Definition is_space (c : ascii) : bool :=
  let n := code c in
  ((9 <=? n) && (n <=? 13)) || ((28 <=? n) && (n <=? 32)) ||
  (n =? 133) || (n =? 160).

Definition is_ascii_digit (c : ascii) : bool :=
  let n := code c in (48 <=? n) && (n <=? 57).

Definition is_ascii_upper (c : ascii) : bool :=
  let n := code c in (65 <=? n) && (n <=? 90).

Definition is_ascii_lower (c : ascii) : bool :=
  let n := code c in (97 <=? n) && (n <=? 122).

Definition is_ascii_alnum (c : ascii) : bool :=
  is_ascii_digit c || is_ascii_upper c || is_ascii_lower c.

(** [str.isalnum] on Latin-1: ASCII letters and digits, the feminine and
    masculine ordinals, micro sign, superscripts 1-3, the vulgar fractions
    and the accented letters (all but the multiplication and division
    signs). *)
Definition is_alnum (c : ascii) : bool :=
  let n := code c in
  is_ascii_alnum c || (n =? 170) || (n =? 178) || (n =? 179) ||
  (n =? 181) || (n =? 185) || (n =? 186) ||
  ((188 <=? n) && (n <=? 190)) ||
  ((192 <=? n) && (n <=? 255) && negb (n =? 215) && negb (n =? 247)).

(** [str.lower] on Latin-1: A-Z and the upper-case accented letters
    (192..222 without 215) move down by 32. *)
Definition lower_char (c : ascii) : ascii :=
  let n := code c in
  if is_ascii_upper c || ((192 <=? n) && (n <=? 222) && negb (n =? 215))
  then ascii_of_nat (n + 32) else c.

Definition lower (s : str) : str := map lower_char s.

Definition str_eqb (a b : str) : bool :=
  if list_eq_dec ascii_dec a b then true else false.

(** [s.startswith(p)] *)
Fixpoint startswith (s p : str) : bool :=
  match p, s with
  | [], _ => true
  | c :: p', d :: s' => if ascii_dec c d then startswith s' p' else false
  | _ :: _, [] => false
  end.

(** [s.lstrip()], [s.rstrip()], [s.strip()] *)
Fixpoint lstrip (s : str) : str :=
  match s with
  | [] => []
  | c :: s' => if is_space c then lstrip s' else s
  end.

Definition rstrip (s : str) : str := rev (lstrip (rev s)).

Definition strip (s : str) : str := rstrip (lstrip s).

(** [s.split()] with no argument: maximal runs of non-space characters. *)
Definition flush (cur : str) : list str :=
  match cur with [] => [] | _ => [rev cur] end.

Fixpoint split_aux (s cur : str) : list str :=
  match s with
  | [] => flush cur
  | c :: s' =>
      if is_space c then flush cur ++ split_aux s' []
      else split_aux s' (c :: cur)
  end.

Definition split_ws (s : str) : list str := split_aux s [].

(** [len(s.split())] *)
Definition wc (s : str) : nat := length (split_ws s).

(** [sep.join(xs)] *)
Fixpoint join (sep : str) (xs : list str) : str :=
  match xs with
  | [] => []
  | [x] => x
  | x :: xs' => x ++ sep ++ join sep xs'
  end.

(** Python truthiness of a string, and [a or b] on strings. *)
Definition nonempty (s : str) : bool := match s with [] => false | _ => true end.

Definition str_or (a b : str) : str := if nonempty a then a else b.

(** [len(set(xs))] for a list of strings. *)
Fixpoint dedup_str (xs : list str) : list str :=
  match xs with
  | [] => []
  | x :: xs' => if existsb (str_eqb x) xs' then dedup_str xs' else x :: dedup_str xs'
  end.


(* ------------------------------------------------------------------ *)
(** ** Data model (schemas.py) *)

Inductive SectionType := TEXT | TABLE | FIGURE.

Inductive ExtractionConfidence := HIGH | MEDIUM | LOW.

Inductive BlockType := B_TEXT | B_TABLE | B_FIGURE.

(** [BlockType.value] *)
Definition block_type_value (t : BlockType) : str :=
  match t with B_TEXT => s_ "text" | B_TABLE => s_ "table" | B_FIGURE => s_ "figure" end.

Record Block := mkBlock {
  b_type : BlockType;
  b_page : Z;
  b_bbox : option (Q * Q * Q * Q);
  b_content : str;
  b_caption : option str;
  b_font_size : option Q;
  b_is_bold : bool
}.

Record Segment := mkSegment {
  seg_heading : str;
  seg_level : nat;
  seg_section_type : SectionType;
  seg_content : str;
  seg_page : Z;
  seg_caption : option str;
  seg_extraction_confidence : ExtractionConfidence
}.

Record SectionSchema := mkSection {
  section_id : str;
  file_id : str;
  heading : str;
  section_type : SectionType;
  content : str;
  keywords : list str;
  extraction_confidence : ExtractionConfidence;
  embedding_vector : option (list Q)
}.

Record Source := mkSource {
  file_name : str;
  file_hash : str;
  upload_date : str
}.

(** Only the fields the pipeline fills; the enrichment fields stay at
    their defaults. *)
Record DocumentSchema := mkDocument {
  doc_file_id : str;
  doc_source : Source;
  doc_sections : list str
}.

(* ------------------------------------------------------------------ *)
(** ** Semantic validity (semantic_chunking.py) *)

Definition MAX_WORDS_PER_SECTION : nat := 600.
Definition SOFT_MAX_WORDS : nat := 300.
Definition MIN_WORDS_SEMANTIC : nat := 40.

(** [str.splitlines()] on Latin-1: \n, \r, \r\n, \v, \f, \x1c-\x1e, \x85. *)
Definition is_line_break (c : ascii) : bool :=
  let n := code c in
  ((10 <=? n) && (n <=? 13)) || ((28 <=? n) && (n <=? 30)) || (n =? 133).

Fixpoint splitlines_aux (s cur : str) : list str :=
  match s with
  | [] => match cur with [] => [] | _ => [rev cur] end
  | c :: s' =>
      if ascii_dec c "013"%char then
        match s' with
        | d :: s'' => if ascii_dec d "010"%char
                      then rev cur :: splitlines_aux s'' []
                      else rev cur :: splitlines_aux s' []
        | [] => rev cur :: splitlines_aux s' []
        end
      else if is_line_break c then rev cur :: splitlines_aux s' []
      else splitlines_aux s' (c :: cur)
  end.

Definition splitlines (s : str) : list str := splitlines_aux s [].

Definition is_sep_char (c : ascii) : bool :=
  if ascii_dec c "|"%char then true else if ascii_dec c "-"%char then true else false.

(** [looks_like_axis]: true if more than half of the non-blank lines have
    more than half of their characters in "|-". *)
Definition looks_like_axis (text : str) : bool :=
  let lines := filter nonempty (map strip (splitlines text)) in
  if length lines <? 2 then false
  else
    let separator_heavy :=
      length (filter (fun ln => Nat.max (length ln) 1 <? 2 * length (filter is_sep_char ln))
                     lines) in
    length lines <? 2 * separator_heavy.

(** [is_semantic]: word count >= 40, ratio of distinct lower-cased words
    > 0.3, and not axis-like. *)
Definition is_semantic (text : str) : bool :=
  let t := strip text in
  if negb (nonempty t) then false
  else
    let words := split_ws t in
    let word_count := length words in
    if word_count <? MIN_WORDS_SEMANTIC then false
    else
      let unique := length (dedup_str (map lower words)) in
      if 10 * unique <=? 3 * Nat.max word_count 1 then false
      else if looks_like_axis t then false
      else true.

(* ------------------------------------------------------------------ *)
(** ** Regular-expression splits used by the chunker *)

Definition is_newline (c : ascii) : bool :=
  if ascii_dec c "010"%char then true else false.

(** Does the leading whitespace run of [s] contain a newline? *)
Fixpoint has_nl_in_run (s : str) : bool :=
  match s with
  | [] => false
  | c :: s' => if is_space c then (if is_newline c then true else has_nl_in_run s') else false
  end.

(** [re.split(r"\n\s*\n", text)].  A match starts at the leftmost newline
    whose following whitespace run contains another newline; the greedy
    [\s*] backtracks to the last newline of that run.  [skip] is set while
    the match is being consumed. *)
Fixpoint psplit (s cur : str) (skip : bool) : list str :=
  match s with
  | [] => [rev cur]
  | c :: s' =>
      if skip && has_nl_in_run s then psplit s' [] true
      else if is_newline c && has_nl_in_run s' then rev cur :: psplit s' [] true
      else psplit s' (c :: cur) false
  end.

Definition para_split (text : str) : list str := psplit text [] false.

Definition is_punct (c : ascii) : bool :=
  if ascii_dec c "."%char then true
  else if ascii_dec c "!"%char then true
  else if ascii_dec c "?"%char then true else false.

(** [re.split(r"(?<=[.!?])\s+", paragraph)].  [prevp] records whether the
    previous character is one of ".!?" (the look-behind), [skipping] that
    a whitespace run of a match is being consumed. *)
Fixpoint ssplit (skipping prevp : bool) (s cur : str) : list str :=
  match s with
  | [] => [rev cur]
  | c :: s' =>
      if is_space c && (skipping || prevp) then
        (if skipping then ssplit true false s' cur
         else rev cur :: ssplit true false s' [])
      else ssplit false (is_punct c) s' (c :: cur)
  end.

Definition sent_split (p : str) : list str := ssplit false false p [].

(** The stripped, non-empty paragraphs and sentences the loops below
    actually work on. *)
Definition paragraphs (text : str) : list str :=
  filter nonempty (map strip (para_split text)).

Definition sentences (p : str) : list str :=
  filter nonempty (map strip (sent_split p)).


(* ------------------------------------------------------------------ *)
(** ** Greedy packing loops of the chunker *)

(** Loop state of [_semantic_split] and [_split_paragraph_by_sentences]:
    [chunks], [current] and [current_words]. *)
Record split_state := mkSt {
  st_chunks : list str;
  st_current : list str;
  st_current_words : nat
}.

Definition st0 : split_state := mkSt [] [] 0.

(** One iteration of the loop of [_split_paragraph_by_sentences]. *)
Definition sent_step (max_words : nat) (st : split_state) (sent0 : str) : split_state :=
  let sent := strip sent0 in
  if negb (nonempty sent) then st
  else
    let w := wc sent in
    let '(mkSt chunks current cw) := st in
    if cw + w <=? max_words then mkSt chunks (current ++ [sent]) (cw + w)
    else
      let chunks := match current with [] => chunks | _ => chunks ++ [join (s_ " ") current] end in
      if w <=? max_words then mkSt chunks [sent] w
      else mkSt (chunks ++ [sent]) [] 0.

Definition sent_finish (st : split_state) : list str :=
  match st_current st with
  | [] => st_chunks st
  | cur => st_chunks st ++ [join (s_ " ") cur]
  end.

(** [_split_paragraph_by_sentences(paragraph, max_words, soft_max_words)];
    [soft_max_words] is not read by the body. *)
Definition split_paragraph_by_sentences (paragraph : str) (max_words soft_max_words : nat)
  : list str :=
  sent_finish (fold_left (sent_step max_words) (sent_split paragraph) st0).

Definition two_nl : str := s_ "

".

(** One iteration of the loop of [_semantic_split]. *)
Definition para_step (max_words soft_max_words : nat) (st : split_state) (para0 : str)
  : split_state :=
  let para := strip para0 in
  if negb (nonempty para) then st
  else
    let w := wc para in
    let '(mkSt chunks current cw) := st in
    if cw + w <=? max_words then mkSt chunks (current ++ [para]) (cw + w)
    else if (soft_max_words <=? cw) || negb (match current with [] => false | _ => true end)
    then
      let chunks := match current with [] => chunks | _ => chunks ++ [join two_nl current] end in
      if w <=? max_words then mkSt chunks [para] w
      else mkSt (chunks ++ split_paragraph_by_sentences para max_words soft_max_words) [] 0
    else
      let chunks := match current with [] => chunks | _ => chunks ++ [join two_nl current] end in
      if w <=? max_words then mkSt chunks [para] w
      else mkSt (chunks ++ split_paragraph_by_sentences para max_words soft_max_words) [] 0.

Definition para_finish (st : split_state) : list str :=
  match st_current st with
  | [] => st_chunks st
  | cur => st_chunks st ++ [join two_nl cur]
  end.

(** [_semantic_split(text, max_words, soft_max_words)] *)
Definition semantic_split (text : str) (max_words soft_max_words : nat) : list str :=
  para_finish (fold_left (para_step max_words soft_max_words) (para_split text) st0).

(* ------------------------------------------------------------------ *)
(** ** Sections from segments *)

Section Chunking.

(** [uuid.uuid4()] as a supply of identifiers indexed by the running
    section counter [sec_index[0]], which the code increments right
    before each call. *)
Variable uuid4 : nat -> str.

(** [hashlib.sha256(s.encode("utf-8")).hexdigest()] *)
Variable sha256 : str -> str.

(** The per-chunk loop of [_split_text_segment] (enumerate over chunks);
    [i] is the chunk index, [idx] the section counter. *)
Fixpoint build_chunk_sections (i : nat) (chunks : list str) (heading0 : str)
    (fid : str) (conf : ExtractionConfidence) (idx : nat)
  : list SectionSchema * nat :=
  match chunks with
  | [] => ([], idx)
  | chunk_text :: rest =>
      if negb (is_semantic chunk_text) then
        build_chunk_sections (S i) rest heading0 fid conf idx
      else
        let idx1 := S idx in
        let chunk_heading := if (i =? 0) && nonempty heading0 then heading0 else [] in
        let chunk_content :=
          if nonempty chunk_heading && startswith chunk_text chunk_heading
          then lstrip (skipn (length chunk_heading) chunk_text)
          else chunk_text in
        let sec := mkSection (uuid4 idx1) fid chunk_heading TEXT
                     (str_or chunk_content chunk_text) [] conf None in
        let '(r, idx2) := build_chunk_sections (S i) rest heading0 fid conf idx1 in
        (sec :: r, idx2)
  end.

(** [full_text] of [_split_text_segment]. *)
Definition full_text_of (heading0 content0 : str) : str :=
  if nonempty heading0 then strip (heading0 ++ two_nl ++ content0) else content0.

(** [_split_text_segment(seg, file_id, max_words, soft_max_words, sec_index)] *)
Definition split_text_segment (seg : Segment) (fid : str) (max_words soft_max_words : nat)
    (idx : nat) : list SectionSchema * nat :=
  let content0 := strip (seg_content seg) in
  let heading0 := strip (seg_heading seg) in
  if negb (nonempty content0) && negb (nonempty heading0) then ([], idx)
  else
    let full_text := full_text_of heading0 content0 in
    if wc full_text <=? max_words then
      if negb (is_semantic full_text) then ([], idx)
      else
        ([mkSection (uuid4 (S idx)) fid heading0 TEXT (str_or content0 full_text) []
            (seg_extraction_confidence seg) None], S idx)
    else
      build_chunk_sections 0 (semantic_split full_text max_words soft_max_words)
        heading0 fid (seg_extraction_confidence seg) idx.

(** Table and figure segments: one section, content never split. *)
Definition table_figure_section (seg : Segment) (fid : str) (idx : nat)
  : list SectionSchema * nat :=
  if negb (is_semantic (seg_content seg)) then ([], idx)
  else
    ([mkSection (uuid4 (S idx)) fid (str_or (seg_heading seg) []) (seg_section_type seg)
        (seg_content seg) [] (seg_extraction_confidence seg) None], S idx).

Definition is_table_or_figure (t : SectionType) : bool :=
  match t with TABLE | FIGURE => true | TEXT => false end.

(** Sections produced for one segment by the first loop of
    [chunk_to_sections]. *)
Definition segment_sections (seg : Segment) (fid : str) (max_words soft_max_words : nat)
    (idx : nat) : list SectionSchema * nat :=
  if is_table_or_figure (seg_section_type seg) then table_figure_section seg fid idx
  else split_text_segment seg fid max_words soft_max_words idx.

(** The first loop of [chunk_to_sections]: candidate sections. *)
Fixpoint candidate_sections (segs : list Segment) (fid : str)
    (max_words soft_max_words : nat) (idx : nat) : list SectionSchema :=
  match segs with
  | [] => []
  | seg :: rest =>
      let '(secs, idx1) := segment_sections seg fid max_words soft_max_words idx in
      secs ++ candidate_sections rest fid max_words soft_max_words idx1
  end.

(** [_content_hash(heading, content)] *)
Definition content_hash (heading0 content0 : str) : str :=
  sha256 (join (s_ " ") (split_ws (lower (heading0 ++ s_ " " ++ content0)))).

(** The deduplication loop of [chunk_to_sections]; [seen] is [seen_hashes]. *)
Fixpoint dedup_sections (seen : list str) (secs : list SectionSchema) : list SectionSchema :=
  match secs with
  | [] => []
  | s :: rest =>
      let h := content_hash (heading s) (content s) in
      if existsb (str_eqb h) seen then dedup_sections seen rest
      else s :: dedup_sections (h :: seen) rest
  end.

(** [chunk_to_sections(segments, file_id, source, max_words=..., soft_max_words=...)] *)
Definition chunk_to_sections (segs : list Segment) (fid : str) (src : Source)
    (max_words soft_max_words : nat) : DocumentSchema * list SectionSchema :=
  let result := dedup_sections [] (candidate_sections segs fid max_words soft_max_words 0) in
  (mkDocument fid src (map section_id result), result).

End Chunking.

(* ------------------------------------------------------------------ *)
(** ** Keyword extraction (keywords.py) *)

(** [_normalize(s)]: strip, then keep the first 80 characters. *)
Definition kw_normalize (s0 : str) : str :=
  let s := strip s0 in
  if negb (nonempty s) then [] else firstn 80 s.

Definition is_dash (c : ascii) : bool := if ascii_dec c "-"%char then true else false.

(** [re.findall(r"[A-Za-z0-9]+(?:-[A-Za-z0-9]+)*", s)]: [cur] is the
    reversed token being matched; a "-" joins the token only when an
    alphanumeric follows it. *)
Fixpoint findall_tokens (s cur : str) : list str :=
  match s with
  | [] => flush cur
  | c :: s' =>
      if is_ascii_alnum c then findall_tokens s' (c :: cur)
      else if is_dash c && nonempty cur &&
              (match s' with d :: _ => is_ascii_alnum d | [] => false end)
      then findall_tokens s' (c :: cur)
      else flush cur ++ findall_tokens s' []
  end.

(** [t.isdigit()] *)
Definition str_isdigit (t : str) : bool := nonempty t && forallb is_ascii_digit t.

(** [_tokenize_heading(heading)] *)
Definition tokenize_heading (heading0 : str) : list str :=
  let h := strip heading0 in
  if negb (nonempty h) then []
  else filter (fun t => (2 <=? length t) || str_isdigit t) (findall_tokens h []).

Definition is_pipe (c : ascii) : bool := if ascii_dec c "|"%char then true else false.

(** [s.split(sep_char)] for a one-character separator. *)
Fixpoint split_on (p : ascii -> bool) (s cur : str) : list str :=
  match s with
  | [] => [rev cur]
  | c :: s' => if p c then rev cur :: split_on p s' [] else split_on p s' (c :: cur)
  end.

(** [cell.strip() for cell in re.split(r"\s*\|\s*", row)]: the
    whitespace the pattern consumes around each "|" is removed by the
    [strip] anyway, so the stripped cells are the stripped pieces between
    the pipes. *)
Definition header_cells (row : str) : list str := map strip (split_on is_pipe row []).

(** The nested [add] of [extract_keywords_from_section], over the
    state ([keywords], [seen]). *)
Definition kw_add (st : list str * list str) (c0 : str) : list str * list str :=
  let '(kws, seen) := st in
  let c := kw_normalize c0 in
  if nonempty c && negb (existsb (str_eqb c) seen) && (1 <? length c)
  then (kws ++ [c], c :: seen) else (kws, seen).

(** The candidates, in the order [add] is called on them. *)
Definition kw_candidates (sec : SectionSchema) (bold_phrases : option (list str))
    (table_header_row : option str) : list str :=
  (if nonempty (strip (heading sec)) then tokenize_heading (heading sec) else []) ++
  (match section_type sec, table_header_row with
   | TABLE, Some row => if nonempty row then header_cells row else []
   | _, _ => []
   end) ++
  (match bold_phrases with
   | Some ps => flat_map tokenize_heading ps
   | None => []
   end).

(** [extract_keywords_from_section(section, bold_phrases=..., table_header_row=...)] *)
Definition extract_keywords_from_section (sec : SectionSchema)
    (bold_phrases : option (list str)) (table_header_row : option str) : list str :=
  firstn 50 (fst (fold_left kw_add (kw_candidates sec bold_phrases table_header_row) ([], []))).

(** [dict.get(key)] on a dictionary given as its list of items. *)
Fixpoint dict_get {V} (d : list (str * V)) (k : str) : option V :=
  match d with
  | [] => None
  | (k', v) :: d' => if str_eqb k k' then Some v else dict_get d' k
  end.

(** [sec.model_copy(update={"keywords": kw})] *)
Definition with_keywords (sec : SectionSchema) (kw : list str) : SectionSchema :=
  mkSection (section_id sec) (file_id sec) (heading sec) (section_type sec)
    (content sec) kw (extraction_confidence sec) (embedding_vector sec).

(** [extract_keywords_for_sections(sections, section_bold_phrases=..., section_table_headers=...)] *)
Definition extract_keywords_for_sections (sections : list SectionSchema)
    (section_bold_phrases : list (str * list str)) (section_table_headers : list (str * str))
  : list SectionSchema :=
  map (fun sec =>
         with_keywords sec
           (extract_keywords_from_section sec
              (dict_get section_bold_phrases (section_id sec))
              (dict_get section_table_headers (section_id sec))))
      sections.

(* ------------------------------------------------------------------ *)
(** ** Block cleaning (block_cleaner.py) *)

Fixpoint span (p : ascii -> bool) (s : str) : str * str :=
  match s with
  | [] => ([], [])
  | c :: s' => if p c then let '(a, b) := span p s' in (c :: a, b) else ([], s)
  end.

(** [re.match(r"^\s*\d+\s*$", text)]; [\d] is 0-9 on Latin-1, and a
    trailing all-space remainder covers the newline [$] may precede. *)
Definition page_number_match (text : str) : bool :=
  let '(d, r) := span is_ascii_digit (lstrip text) in
  nonempty d && negb (nonempty (lstrip r)).

Definition is_range_sep (c : ascii) : bool :=
  if ascii_dec c "|"%char then true else if ascii_dec c "/"%char then true else false.

(** [re.match(r"^\s*\d+\s*[|/]\s*\d+\s*$", text)] *)
Definition page_range_match (text : str) : bool :=
  let '(d1, r1) := span is_ascii_digit (lstrip text) in
  match lstrip r1 with
  | c :: r2 =>
      is_range_sep c && nonempty d1 &&
      (let '(d2, r3) := span is_ascii_digit (lstrip r2) in
       nonempty d2 && negb (nonempty (lstrip r3)))
  | [] => false
  end.

(** [needle in haystack] *)
Fixpoint contains (hay needle : str) : bool :=
  startswith hay needle ||
  match hay with [] => false | _ :: hay' => contains hay' needle end.

(** [COPYRIGHT_RE.search(text)] with [re.IGNORECASE]; on Latin-1 the
    case-insensitive match is a match of the lower-cased strings.  The
    first alternative is the two characters U+00C2 U+00A9. *)
Definition copyright_alternatives : list str :=
  [[ascii_of_nat 194; ascii_of_nat 169]; s_ "copyright"; s_ "all rights reserved";
   s_ "not for use in diagnostic"].

Definition copyright_search (text : str) : bool :=
  existsb (fun alt => contains (lower text) (lower alt)) copyright_alternatives.

(** [get_text(block)] *)
Definition get_text (b : Block) : str :=
  match b_type b with
  | B_FIGURE => strip (b_content b ++ s_ " " ++ match b_caption b with Some c => c | None => [] end)
  | _ => strip (b_content b)
  end.

(** [normalize_for_dedup(text)] *)
Definition normalize_for_dedup (text : str) : str :=
  if nonempty text then join (s_ " ") (split_ws (lower text)) else [].

Definition key := (str * str)%type.

Definition key_eqb (k1 k2 : key) : bool := str_eqb (fst k1) (fst k2) && str_eqb (snd k1) (snd k2).

Definition block_key (b : Block) : key :=
  (normalize_for_dedup (get_text b), block_type_value (b_type b)).

(** [page_count[key].add(block.page)] on the [defaultdict(set)], kept as
    its list of items in insertion order. *)
Fixpoint page_count_add (k : key) (p : Z) (pc : list (key * list Z)) : list (key * list Z) :=
  match pc with
  | [] => [(k, [p])]
  | (k', ps) :: pc' =>
      if key_eqb k k' then (k', if existsb (Z.eqb p) ps then ps else ps ++ [p]) :: pc'
      else (k', ps) :: page_count_add k p pc'
  end.

Definition page_count (blocks : list Block) : list (key * list Z) :=
  fold_left (fun pc b => page_count_add (block_key b) (b_page b) pc) blocks [].

(** [repeated_keys = {k for k, pages in page_count.items() if len(pages) >= 3}] *)
Definition repeated_keys (blocks : list Block) : list key :=
  map fst (filter (fun kp => 3 <=? length (snd kp)) (page_count blocks)).

Definition Qltb (a b : Q) : bool := negb (Qle_bool b a).

(* ------------------------------------------------------------------ *)
(** ** Double-precision arithmetic

    The result of an arithmetic operation on Python floats is an IEEE 754
    binary64 value: the exact result rounded to nearest, ties to even,
    with gradual underflow and overflow to an infinity.  A finite double
    is the rational it denotes (the sign of a zero is not kept; no
    operation below depends on it). *)

Inductive pyfloat : Type :=
| Fin (q : Q)
| PInf
| NInf
| NaN.

(** [2 ^ k] as a rational, for any integer [k]. *)
Definition pow2Q (k : Z) : Q :=
  if (0 <=? k)%Z then inject_Z (2 ^ k) else 1 # Z.to_pos (2 ^ (- k)).

(** [n / d] rounded to the nearest integer, ties to even ([n >= 0], [d > 0]). *)
Definition round_half_even (n d : Z) : Z :=
  let q := (n / d)%Z in
  match Z.compare (2 * (n mod d)) d with
  | Lt => q
  | Gt => q + 1
  | Eq => if Z.even q then q else q + 1
  end.

(** Rounding of an exact rational to binary64 (53-bit significand,
    smallest exponent of a normal number -1022, largest finite value
    [(2 - 2^-52) * 2^1023]).  [e] is [floor (log2 |x|)] and [k] the
    exponent of the last significand bit, [max (e - 52) (-1074)]. *)
Definition round64 (x : Q) : pyfloat :=
  match Qnum x with
  | Z0 => Fin 0
  | _ =>
      let n := Z.abs (Qnum x) in
      let d := Zpos (Qden x) in
      let e0 := (Z.log2 n - Z.log2 d)%Z in
      let e := if Qle_bool (pow2Q e0) (n # Qden x) then e0 else (e0 - 1)%Z in
      let k := Z.max (e - 52) (-1074) in
      let m := if (0 <=? k)%Z then round_half_even n (d * 2 ^ k)
               else round_half_even (n * 2 ^ (- k)) d in
      let neg := (Qnum x <? 0)%Z in
      if (0 <=? k)%Z && (2 ^ 1024 <=? m * 2 ^ k)%Z then (if neg then NInf else PInf)
      else let v := (inject_Z m * pow2Q k)%Q in Fin (if neg then (- v)%Q else v)
  end.

Definition fneg (x : pyfloat) : pyfloat :=
  match x with
  | Fin q => Fin (- q)
  | PInf => NInf
  | NInf => PInf
  | NaN => NaN
  end.

Definition fis_neg (x : pyfloat) : bool :=
  match x with
  | Fin q => Qltb q 0
  | NInf => true
  | _ => false
  end.

Definition fis_zero (x : pyfloat) : bool :=
  match x with
  | Fin q => Qeq_bool q 0
  | _ => false
  end.

(** An infinity of the sign of a product or quotient of [x] and [y]. *)
Definition finf_of (x y : pyfloat) : pyfloat :=
  if Bool.eqb (fis_neg x) (fis_neg y) then PInf else NInf.

(** [x + y] *)
Definition fadd (x y : pyfloat) : pyfloat :=
  match x, y with
  | Fin a, Fin b => round64 (a + b)
  | NaN, _ | _, NaN => NaN
  | PInf, NInf | NInf, PInf => NaN
  | PInf, _ | _, PInf => PInf
  | NInf, _ | _, NInf => NInf
  end.

(** [x - y] *)
Definition fsub (x y : pyfloat) : pyfloat := fadd x (fneg y).

(** [x * y] *)
Definition fmul (x y : pyfloat) : pyfloat :=
  match x, y with
  | Fin a, Fin b => round64 (a * b)
  | NaN, _ | _, NaN => NaN
  | _, _ => if fis_zero x || fis_zero y then NaN else finf_of x y
  end.

(** [x / y]; [None] is the [ZeroDivisionError] Python raises for a zero
    divisor. *)
Definition fdiv (x y : pyfloat) : option pyfloat :=
  match x, y with
  | NaN, _ | _, NaN => Some NaN
  | _, Fin b => if Qeq_bool b 0 then None
                else match x with
                     | Fin a => Some (round64 (a / b))
                     | _ => Some (finf_of x y)
                     end
  | Fin _, _ => Some (Fin 0)
  | _, _ => Some NaN
  end.

(** [x > y]; false whenever one side is a NaN. *)
Definition fgt (x y : pyfloat) : bool :=
  match x, y with
  | Fin a, Fin b => Qltb b a
  | PInf, (Fin _ | NInf) => true
  | Fin _, NInf => true
  | _, _ => false
  end.

(** The keep test of the second loop of [clean_blocks], given the
    repeated keys. *)
Definition keep_block (repeated : list key) (b : Block) : bool :=
  let text := get_text b in
  let norm := normalize_for_dedup text in
  let n := length text in
  if n <? 20 then false
  else if 10 * length (filter (fun c => is_alnum c || is_space c) text) <? 6 * n then false
  else if (match b_type b, b_bbox b with
           | B_TEXT, Some (x0, top, x1, bottom) =>
               let w := fsub (Fin x1) (Fin x0) in
               let h := fsub (Fin bottom) (Fin top) in
               (* [w > 0 and h / w > 2]: the division is only reached
                  when [w > 0] *)
               fgt w (Fin 0) &&
               match fdiv h w with
               | Some r => fgt r (Fin 2)
               | None => false
               end
           | _, _ => false
           end) then false
  else if existsb (key_eqb (norm, block_type_value (b_type b))) repeated then false
  else if page_number_match text || page_range_match text then false
  else if contains (lower text) (s_ "for research use only") then false
  else if copyright_search text then false
  else if (0 <? n) &&
          ((5 * length (nodup ascii_dec text) <? n) ||
           (3 * n <? 10 * length (filter is_sep_char text)))
  then false
  else true.

(** [clean_blocks(blocks)] *)
Definition clean_blocks (blocks : list Block) : list Block :=
  match blocks with
  | [] => []
  | _ => filter (keep_block (repeated_keys blocks)) blocks
  end.

(* ------------------------------------------------------------------ *)
(** ** Heading classification (structural_segmentation.py) *)

Definition is_digit_or_dot (c : ascii) : bool :=
  is_ascii_digit c || (if ascii_dec c "."%char then true else false).

Fixpoint has_double_dot (s : str) : bool :=
  match s with
  | c :: ((d :: _) as s') =>
      ((if ascii_dec c "."%char then true else false) &&
       (if ascii_dec d "."%char then true else false)) || has_double_dot s'
  | _ => false
  end.

(** [bool(re.match(r"^\s*(\d+\.?)+\s+\S", text))].  The group sequence
    must take the whole maximal run of digits and dots (a whitespace
    character has to follow it); the run matches [(\d+\.?)+] iff it starts
    with a digit and has no two consecutive dots. *)
Definition looks_numbered (text : str) : bool :=
  let '(r, rest) := span is_digit_or_dot (lstrip text) in
  match r, rest with
  | d :: _, c :: _ => is_ascii_digit d && negb (has_double_dot r) && is_space c &&
                      nonempty (lstrip rest)
  | _, _ => false
  end.

Definition count_newlines (s : str) : nat := length (filter is_newline s).

Definition Qgeb (a b : Q) : bool := Qle_bool b a.

(** [_classify_heading(block, body_size, font_h1, font_h2, font_h3, font_h4)]
    returning [(level, is_heading, confidence)]. *)
Definition classify_heading (block : Block) (body_size : option Q)
    (font_h1 font_h2 font_h3 font_h4 : Q) : nat * bool * ExtractionConfidence :=
  match b_type block with
  | B_TEXT =>
      let text := strip (b_content block) in
      if negb (nonempty text) then (1%nat, false, HIGH)
      else
        let is_bold := b_is_bold block in
        let is_short := (length text <? 100) && (count_newlines text =? 0) in
        let numbered := looks_numbered text in
        match b_font_size block with
        | Some size =>
            if Qgeb size font_h1 then (1%nat, true, HIGH)
            else if Qgeb size font_h2 then (2%nat, true, HIGH)
            else if Qgeb size font_h3 then (3%nat, true, HIGH)
            else if Qgeb size font_h4 && (is_bold || numbered) then (4%nat, true, HIGH)
            else match body_size with
                 | Some body =>
                     if Qltb body size && (is_bold || numbered) then
                       ((if fgt (Fin size) (fadd (Fin body) (Fin 4)) then 2%nat else 3%nat),
                        true, MEDIUM)
                     else (1%nat, false, HIGH)
                 | None => (1%nat, false, HIGH)
                 end
        | None =>
            if (is_bold && is_short) || numbered
            then ((if is_bold then 2%nat else 3%nat), true, LOW)
            else (1%nat, false, HIGH)
        end
  | _ => (1%nat, false, HIGH)
  end.

(** [DEFAULT_FONT_SIZE_LEVELS = (18, 14, 12, 10)] *)
Definition classify_heading_default (block : Block) (body_size : option Q) :=
  classify_heading block body_size 18 14 12 10.

(* ------------------------------------------------------------------ *)
(** ** Structural segmentation (structural_segmentation.py) *)

(** [order.index(c)] for [order = (LOW, MEDIUM, HIGH)]. *)
Definition conf_index (c : ExtractionConfidence) : nat :=
  match c with LOW => 0 | MEDIUM => 1 | HIGH => 2 end.

(** [_min_confidence(a, b)]: [order[min(order.index(a), order.index(b))]]. *)
Definition min_confidence (a b : ExtractionConfidence) : ExtractionConfidence :=
  nth (Nat.min (conf_index a) (conf_index b)) [LOW; MEDIUM; HIGH] HIGH.

(** [_table_confidence(block)] *)
Definition table_confidence (block : Block) : ExtractionConfidence :=
  if nonempty (b_content block) && (0 <? length (strip (b_content block)))%nat
  then HIGH else MEDIUM.

(** [block.caption] as a truth value. *)
Definition caption_truthy (c : option str) : bool :=
  match c with Some s => nonempty s | None => false end.

(** [_figure_confidence(block)] *)
Definition figure_confidence (block : Block) : ExtractionConfidence :=
  if caption_truthy (b_caption block) then HIGH else MEDIUM.

(** [re.compile(r"(?i)<word>\s+\d+").search(text)] for a lower-case
    ASCII [word]: some position starts with [word] (compared after
    lower-casing, which on Latin-1 is the case-insensitive match of ASCII
    letters), followed by a non-empty whitespace run and a digit.  The
    [\s+] cannot stop inside the run, since a whitespace character is not
    a digit. *)
Fixpoint word_number_search (word : str) (text : str) : bool :=
  (str_eqb (lower (firstn (length word) text)) word &&
   (let '(sp, r) := span is_space (skipn (length word) text) in
    nonempty sp && match r with d :: _ => is_ascii_digit d | [] => false end)) ||
  match text with [] => false | _ :: text' => word_number_search word text' end.

(** [block.caption and block.caption.strip()] as a truth value. *)
Definition caption_nonblank (c : option str) : bool :=
  match c with Some s => nonempty s && nonempty (strip s) | None => false end.

(** [_has_valid_figure_caption(block)] with [FIGURE_CAPTION_RE]. *)
Definition has_valid_figure_caption (block : Block) : bool :=
  caption_nonblank (b_caption block) || word_number_search (s_ "figure") (b_content block).

Definition is_dash_or_pipe (c : ascii) : bool := is_pipe c || is_dash c.

(** [_has_valid_table_caption(block)] with [TABLE_CAPTION_RE].  The test
    [sep_count / max(len(first_line), 1) > 0.5] is the exact
    [2 * sep_count > len(first_line)]: the line is non-empty here and at
    most 200 characters long, so the quotient is never within rounding
    distance of 0.5 without being equal to it. *)
Definition has_valid_table_caption (block : Block) : bool :=
  if caption_nonblank (b_caption block) then true
  else if word_number_search (s_ "table") (b_content block) then true
  else
    let content0 := strip (b_content block) in
    if negb (nonempty content0) then false
    else
      let first_line := strip (hd [] (split_on is_newline content0 [])) in
      if negb (nonempty first_line) || (200 <? length first_line)%nat then false
      else
        let sep_count := length (filter is_dash_or_pipe first_line) in
        if (Nat.max (length first_line) 1 <? 2 * sep_count)%nat then false else true.

(** [size_counts[k] += 1] on the [defaultdict(int)], kept as its items in
    insertion order; float keys are equal when they are numerically
    equal. *)
Fixpoint size_count_add (k : Q) (sc : list (Q * nat)) : list (Q * nat) :=
  match sc with
  | [] => [(k, 1%nat)]
  | (k', n) :: sc' =>
      if Qeq_bool k k' then (k', S n) :: sc' else (k', n) :: size_count_add k sc'
  end.

(** [_infer_body_font_size(size_counts)]: [max] over the keys in
    insertion order by their count; [max] keeps the first maximal key. *)
Definition infer_body_font_size (sc : list (Q * nat)) : option Q :=
  match sc with
  | [] => None
  | kn :: sc' =>
      Some (fst (fold_left (fun best kn' => if (snd best <? snd kn')%nat then kn' else best)
                   sc' kn))
  end.

Definition is_text_block (b : Block) : bool :=
  match b_type b with B_TEXT => true | _ => false end.

(** [block.caption or d] *)
Definition caption_or (c : option str) (d : str) : str :=
  match c with Some s => str_or s d | None => d end.

(** The [Segment(...)] built for a table block with a valid caption. *)
Definition table_segment (block : Block) : Segment :=
  mkSegment [] 1 TABLE (b_content block) (b_page block) (b_caption block)
    (table_confidence block).

(** The [Segment(...)] built for a figure block with a valid caption. *)
Definition figure_segment (block : Block) : Segment :=
  mkSegment (caption_or (b_caption block) (s_ "Figure")) 1 FIGURE
    (str_or (b_content block) (caption_or (b_caption block) [])) (b_page block)
    (b_caption block) (figure_confidence block).

Section Segmentation.

(** [round(x, 1)] on a float. *)
Variable round1 : Q -> Q.

(** The [size_counts] loop over [text_blocks]. *)
Definition size_counts (blocks : list Block) : list (Q * nat) :=
  fold_left (fun sc b => match b_font_size b with
                         | Some f => size_count_add (round1 f) sc
                         | None => sc
                         end)
    (filter is_text_block blocks) [].

Variables font_h1 font_h2 font_h3 font_h4 : Q.

(** The inner [while] loop of [segment_document] after a heading: it
    takes the following text blocks up to the next heading and returns
    [body_parts], the running [confidence] and the blocks left. *)
Fixpoint absorb_body (body_size : option Q) (confidence : ExtractionConfidence)
    (blocks : list Block) : list str * ExtractionConfidence * list Block :=
  match blocks with
  | [] => ([], confidence, [])
  | next_b :: rest =>
      match b_type next_b with
      | B_TEXT =>
          let '(_, next_is_heading, next_conf) :=
            classify_heading next_b body_size font_h1 font_h2 font_h3 font_h4 in
          if next_is_heading then ([], confidence, blocks)
          else
            let '(parts, conf', rest') :=
              absorb_body body_size (min_confidence confidence next_conf) rest in
            (strip (b_content next_b) :: parts, conf', rest')
      | _ => ([], confidence, blocks)
      end
  end.

(** The outer [while i < len(blocks)] loop of [segment_document] on the
    blocks from [i] on; every round consumes at least one block, so
    [length blocks] rounds suffice. *)
Fixpoint segment_loop (fuel : nat) (body_size : option Q) (blocks : list Block)
  : list Segment :=
  match fuel with
  | O => []
  | S fuel' =>
      match blocks with
      | [] => []
      | block :: rest =>
          match b_type block with
          | B_TABLE =>
              if negb (has_valid_table_caption block) then segment_loop fuel' body_size rest
              else table_segment block :: segment_loop fuel' body_size rest
          | B_FIGURE =>
              if negb (has_valid_figure_caption block) then segment_loop fuel' body_size rest
              else figure_segment block :: segment_loop fuel' body_size rest
          | B_TEXT =>
              let '(heading_level, is_heading, confidence) :=
                classify_heading block body_size font_h1 font_h2 font_h3 font_h4 in
              if is_heading && nonempty (strip (b_content block)) then
                let heading_text := strip (b_content block) in
                let '(body_parts, confidence', rest') := absorb_body body_size confidence rest in
                let content0 := join two_nl (filter nonempty body_parts) in
                mkSegment heading_text heading_level TEXT (str_or content0 heading_text)
                  (b_page block) None confidence' :: segment_loop fuel' body_size rest'
              else
                mkSegment [] 1 TEXT (strip (b_content block)) (b_page block) None confidence
                  :: segment_loop fuel' body_size rest
          end
      end
  end.

(** [segment_document(blocks, font_size_levels)] *)
Definition segment_document_levels (blocks : list Block) : list Segment :=
  match blocks with
  | [] => []
  | _ => segment_loop (length blocks) (infer_body_font_size (size_counts blocks)) blocks
  end.

End Segmentation.

(** [segment_document(blocks)] with [DEFAULT_FONT_SIZE_LEVELS = (18, 14, 12, 10)]. *)
Definition segment_document (round1 : Q -> Q) (blocks : list Block) : list Segment :=
  segment_document_levels round1 18 14 12 10 blocks.

(* ------------------------------------------------------------------ *)
(** ** Layout extraction guard (layout_extraction.py) *)

Definition bytes := list Byte.byte.

(** An exception raised inside a third-party call. *)
Inductive Exn := LibraryError.

Section Layout.

(** [PdfReader is not None] *)
Variable pypdf_available : bool.

(** [[page.extract_text() or "" for page in PdfReader(stream).pages]];
    [inl] when pypdf raises. *)
Variable pypdf_pages : bytes -> Exn + list str.

(** The per-page blocks pdfplumber yields through [_extract_page_blocks];
    [inl] when pdfplumber raises. *)
Variable pdfplumber_pages : bytes -> Exn + list (list Block).

Fixpoint numbered_text_blocks (page_num : Z) (texts : list str) : list Block :=
  match texts with
  | [] => []
  | t :: ts =>
      let text := strip t in
      (if nonempty text then [mkBlock B_TEXT page_num None text None None false] else []) ++
      numbered_text_blocks (page_num + 1) ts
  end.

(** [_extract_layout_pypdf_stream(stream)] *)
Definition extract_layout_pypdf_stream (content : bytes) : list Block :=
  if negb pypdf_available then []
  else match pypdf_pages content with
       | inl _ => []
       | inr texts => numbered_text_blocks 1 texts
       end.

(** Reading-order key [(page, top, left)] and Python's stable [sorted]. *)
Definition reading_key (b : Block) : Z * Q * Q :=
  match b_bbox b with
  | Some (x0, top, _, _) => (b_page b, top, x0)
  | None => (b_page b, 0%Q, 0%Q)
  end.

Definition key_lt (k1 k2 : Z * Q * Q) : bool :=
  let '(p1, t1, l1) := k1 in
  let '(p2, t2, l2) := k2 in
  (p1 <? p2)%Z || ((p1 =? p2)%Z && (Qltb t1 t2 || (Qeq_bool t1 t2 && Qltb l1 l2))).

Fixpoint insert_sorted (b : Block) (l : list Block) : list Block :=
  match l with
  | [] => [b]
  | b' :: l' => if key_lt (reading_key b) (reading_key b') then b :: l
                else b' :: insert_sorted b l'
  end.

Definition sort_blocks_by_reading_order (blocks : list Block) : list Block :=
  fold_right insert_sorted [] (rev blocks).

(** [_extract_layout_pdfplumber_stream(stream)] *)
Definition extract_layout_pdfplumber_stream (content : bytes) : list Block :=
  match pdfplumber_pages content with
  | inl _ => []
  | inr pages => sort_blocks_by_reading_order (concat pages)
  end.

(** [extract_layout_from_bytes(content, use_pypdf)]: every library call
    is wrapped in the code's own try/except, so the function returns a
    block list on every input. *)
Definition extract_layout_from_bytes (content : bytes) (use_pypdf : bool) : list Block :=
  if negb (match content with [] => false | _ => true end) || (length content <? 100) then []
  else
    let blocks := if use_pypdf && pypdf_available then extract_layout_pypdf_stream content
                  else [] in
    match blocks with
    | _ :: _ => blocks
    | [] => extract_layout_pdfplumber_stream content
    end.

End Layout.

(** [_serialize_table(rows)]: a row is [None] or a list of cells, a cell
    [None] or its string ([str(c)] of a string is the string itself). *)
Definition cell_text (c : option str) : str :=
  match c with Some s => strip s | None => [] end.

Fixpoint table_lines (rows : list (option (list (option str)))) : list str :=
  match rows with
  | [] => []
  | None :: rows' => table_lines rows'
  | Some row :: rows' => join (s_ " | ") (map cell_text row) :: table_lines rows'
  end.

Definition serialize_table (rows : list (option (list (option str)))) : str :=
  join (s_ "
") (table_lines rows).

(** A bounding box [(x0, top, x1, bottom)]. *)
Definition bbox := (Q * Q * Q * Q)%type.

(** [_in_any_bbox(box, bboxes)] *)
Definition in_any_bbox (box : bbox) (bboxes : list bbox) : bool :=
  let '(x0, top, x1, bottom) := box in
  existsb (fun tb => let '(tx0, ttop, tx1, tbottom) := tb in
                     negb (Qle_bool x1 tx0 || Qle_bool tx1 x0 ||
                           Qle_bool bottom ttop || Qle_bool tbottom top))
    bboxes.

(** A text line of [_extract_page_blocks]: the dictionary with keys
    text, top, x0, x1, bottom, font_size and is_bold. *)
Record Line := mkLine {
  l_text : str;
  l_top : Q;
  l_x0 : Q;
  l_x1 : Q;
  l_bottom : Q;
  l_font_size : option Q;
  l_is_bold : bool
}.

Definition line_box (line : Line) : bbox := (l_x0 line, l_top line, l_x1 line, l_bottom line).

(** The state of [_lines_to_text_blocks]: [blocks], [current_lines],
    [current_bbox]. *)
Record lines_state := mkLs {
  ls_blocks : list Block;
  ls_lines : list Line;
  ls_bbox : option bbox
}.

(** [flush_block()] *)
Definition flush_block (page_num : Z) (st : lines_state) : lines_state :=
  match ls_lines st with
  | [] => st
  | first :: _ =>
      let text := strip (join (s_ "
") (map l_text (ls_lines st))) in
      mkLs (if nonempty text
            then ls_blocks st ++ [mkBlock B_TEXT page_num (ls_bbox st) text None
                                    (l_font_size first) (l_is_bold first)]
            else ls_blocks st)
           [] None
  end.

(** [gap > max(15, line_height * 1.5)] with [line_height = bottom - top]
    and [gap = top - prev_bottom], in double precision; [max(15, v)] is
    [v] when [v > 15] and [15] otherwise. *)
Definition gap_exceeds (top bottom prev_bottom : Q) : bool :=
  let line_height := fsub (Fin bottom) (Fin top) in
  let gap := fsub (Fin top) (Fin prev_bottom) in
  let v := fmul line_height (Fin (3 # 2)) in
  fgt gap (if fgt v (Fin 15) then v else Fin 15).

(** One round of the [for line in lines] loop. *)
Definition lines_step (page_num : Z) (table_bboxes : list bbox) (st : lines_state)
    (line : Line) : lines_state :=
  let '(top, x0, x1, bottom) := (l_top line, l_x0 line, l_x1 line, l_bottom line) in
  if in_any_bbox (x0, top, x1, bottom) table_bboxes then flush_block page_num st
  else
    let prev_bottom := match ls_lines st with
                       | [] => None
                       | l :: _ => Some (l_bottom (last (ls_lines st) l))
                       end in
    let st := match prev_bottom with
              | Some pb => if gap_exceeds top bottom pb
                           then flush_block page_num st else st
              | None => st
              end in
    mkLs (ls_blocks st) (ls_lines st ++ [line])
      (match ls_bbox st with
       | None => Some (x0, top, x1, bottom)
       | Some (a, b, c, d) => Some (Qmin a x0, Qmin b top, Qmax c x1, Qmax d bottom)
       end).

(** [_lines_to_text_blocks(lines, page_num, table_bboxes)] *)
Definition lines_to_text_blocks (lines : list Line) (page_num : Z)
    (table_bboxes : list bbox) : list Block :=
  ls_blocks (flush_block page_num (fold_left (lines_step page_num table_bboxes) lines
                                     (mkLs [] [] None))).

(* ------------------------------------------------------------------ *)
(** ** The orchestrator (pipeline.py) *)

Definition is_semicolon (c : ascii) : bool := if ascii_dec c ";"%char then true else false.
Definition is_dot (c : ascii) : bool := if ascii_dec c "."%char then true else false.

(** [(content_type or "").split(";")[0].strip().lower()] *)
Definition base_type (content_type : str) : str :=
  lower (strip (hd [] (split_on is_semicolon content_type []))).

(** ["." + file_name.rsplit(".", 1)[-1].lower() if "." in file_name else ""] *)
Definition file_ext (file_name0 : str) : str :=
  if existsb is_dot file_name0
  then s_ "." ++ lower (last (split_on is_dot file_name0 []) [])
  else [].

(** [_is_pdf(content_type, file_name)] with [PDF_CONTENT_TYPES = {"application/pdf"}]
    and [PDF_EXTENSIONS = {".pdf"}]. *)
Definition is_pdf (content_type file_name0 : str) : bool :=
  if str_eqb (base_type content_type) (s_ "application/pdf") then true
  else str_eqb (file_ext file_name0) (s_ ".pdf").

(** [re.sub(r"\s+", " ", text)] *)
Fixpoint collapse_ws (s : str) (in_run : bool) : str :=
  match s with
  | [] => []
  | c :: s' =>
      if is_space c then (if in_run then collapse_ws s' true else " "%char :: collapse_ws s' true)
      else c :: collapse_ws s' false
  end.

(** [_normalize_content(text)] *)
Definition normalize_content (text : str) : str :=
  if negb (nonempty text) then text else strip (collapse_ws text false).

Inductive ExtractError := UnsupportedType (msg : str).

Section Pipeline.

Variable uuid4 : nat -> str.
Variable sha256 : str -> str.
(** [hashlib.sha256(content).hexdigest()] on the raw bytes. *)
Variable sha256_bytes : bytes -> str.
(** [datetime.now(timezone.utc).strftime(...)] *)
Variable now_iso : str.
Variable pypdf_available : bool.
Variable pypdf_pages : bytes -> Exn + list str.
Variable pdfplumber_pages : bytes -> Exn + list (list Block).
(** [segment_document(blocks)]: the structural segmenter; the type gate
    below does not depend on it. *)
Variable segment_document : list Block -> list Segment.

(** [extract_document(content, file_name, content_type, file_id=...,
    apply_block_cleaning=..., include_keywords=...)] *)
Definition extract_document (content0 : bytes) (file_name0 content_type : str) (fid : str)
    (apply_block_cleaning include_keywords : bool)
  : ExtractError + (DocumentSchema * list SectionSchema) :=
  if negb (is_pdf content_type file_name0) then
    inl (UnsupportedType (s_ "Unsupported type for extraction: " ++ content_type ++
                          s_ " / " ++ file_name0))
  else
    let src := mkSource file_name0 (sha256_bytes content0) now_iso in
    let blocks := extract_layout_from_bytes pypdf_available pypdf_pages pdfplumber_pages
                    content0 true in
    let blocks := if apply_block_cleaning then clean_blocks blocks else blocks in
    let segments := segment_document blocks in
    let '(document, sections) :=
      chunk_to_sections uuid4 sha256 segments fid src MAX_WORDS_PER_SECTION SOFT_MAX_WORDS in
    let sections :=
      map (fun s => mkSection (section_id s) (file_id s) (heading s) (section_type s)
                      (normalize_content (content s)) (keywords s)
                      (extraction_confidence s) (embedding_vector s)) sections in
    let sections := if include_keywords then extract_keywords_for_sections sections [] []
                    else sections in
    inr (document, sections).

End Pipeline.

(* ================================================================== *)
(** * Properties *)

Open Scope nat_scope.

(** ** Basic facts and sanity checks of the string functions *)

Lemma str_eqb_eq a b : str_eqb a b = true <-> a = b.
Proof. unfold str_eqb; destruct (list_eq_dec ascii_dec a b); split; congruence. Qed.

Example split_ws_ex : split_ws (s_ "  ab c
d  ") = [s_ "ab"; s_ "c"; s_ "d"].
Proof. reflexivity. Qed.

Example strip_ex : strip (s_ "  ab c  ") = s_ "ab c".
Proof. reflexivity. Qed.

Example para_split_ex :
  para_split (s_ "a b

 c d") = [s_ "a b"; s_ " c d"].
Proof. reflexivity. Qed.

Example sent_split_ex :
  sent_split (s_ "One. Two!  Three") = [s_ "One."; s_ "Two!"; s_ "Three"].
Proof. reflexivity. Qed.

Lemma str_eqb_refl a : str_eqb a a = true.
Proof. apply str_eqb_eq; reflexivity. Qed.

Lemma str_eqb_neq a b : str_eqb a b = false <-> a <> b.
Proof.
  destruct (str_eqb a b) eqn:E; split; intro H; try congruence.
  - apply str_eqb_eq in E; contradiction.
  - intro Hab; apply str_eqb_eq in Hab; congruence.
Qed.

Lemma existsb_str_eqb_In x l : existsb (str_eqb x) l = true <-> In x l.
Proof.
  rewrite existsb_exists; split.
  - intros [y [Hy Hxy]]; apply str_eqb_eq in Hxy; subst; exact Hy.
  - intros H; exists x; split; [exact H | apply str_eqb_refl].
Qed.

(* ------------------------------------------------------------------ *)
(** ** Layout extraction *)

(** C8: on fewer than 100 bytes (the empty input included) layout
    extraction returns the empty block list, whatever pypdf and
    pdfplumber would do with the bytes, raising included: no library is
    called and there is no error outcome. *)
Theorem extract_layout_from_bytes_short_input :
  forall (pypdf_available : bool) (pypdf_pages : bytes -> Exn + list str)
         (pdfplumber_pages : bytes -> Exn + list (list Block))
         (content0 : bytes) (use_pypdf : bool),
    length content0 < 100 ->
    extract_layout_from_bytes pypdf_available pypdf_pages pdfplumber_pages content0 use_pypdf
    = [].
Proof.
  intros av pp pl c u Hlen.
  unfold extract_layout_from_bytes.
  assert (Hb : (length c <? 100) = true) by (apply Nat.ltb_lt; exact Hlen).
  rewrite Hb, orb_true_r; reflexivity.
Qed.

Definition all_raise_pypdf : bytes -> Exn + list str := fun _ => inl LibraryError.
Definition all_raise_plumber : bytes -> Exn + list (list Block) := fun _ => inl LibraryError.

Lemma extract_layout_from_bytes_short_input_witness :
  length (repeat Byte.x00 99) < 100 /\
  extract_layout_from_bytes true all_raise_pypdf all_raise_plumber (repeat Byte.x00 99) true
  = [].
Proof.
  split.
  - simpl; lia.
  - apply (extract_layout_from_bytes_short_input true all_raise_pypdf all_raise_plumber
             (repeat Byte.x00 99) true).
    simpl; lia.
Defined.

(* ------------------------------------------------------------------ *)
(** ** Keywords: frame of the batch form *)

(** Every field of a section except [keywords] is the same. *)
Definition same_but_keywords (s s' : SectionSchema) : Prop :=
  section_id s' = section_id s /\ file_id s' = file_id s /\ heading s' = heading s /\
  section_type s' = section_type s /\ content s' = content s /\
  extraction_confidence s' = extraction_confidence s /\
  embedding_vector s' = embedding_vector s.

(** C9: [extract_keywords_for_sections] returns one section per input
    section, in the same order, each equal to its input section in every
    field but [keywords]. *)
Theorem extract_keywords_for_sections_frame :
  forall (sections : list SectionSchema) (bold : list (str * list str))
         (headers : list (str * str)),
    Forall2 same_but_keywords sections (extract_keywords_for_sections sections bold headers).
Proof.
  intros secs bold headers; unfold extract_keywords_for_sections.
  induction secs as [|s secs IH]; simpl; constructor; [|exact IH].
  unfold same_but_keywords, with_keywords; simpl; repeat split.
Qed.

(* ------------------------------------------------------------------ *)
(** ** The PDF gate of [extract_document] *)

(** C4: [extract_document] fails with the unsupported-type error, which
    carries no partial result, exactly when the content type with its
    parameters after ";" removed (then stripped and lower-cased) is not
    "application/pdf" and the file-name extension (lower-cased) is not
    ".pdf"; otherwise it returns a document and its sections. *)
Theorem extract_document_unsupported_iff :
  forall uuid4 sha256 sha256_bytes now_iso pypdf_available pypdf_pages pdfplumber_pages
         segment_document (content0 : bytes) (file_name0 content_type fid : str)
         (apply_block_cleaning include_keywords : bool),
    let r := extract_document uuid4 sha256 sha256_bytes now_iso pypdf_available pypdf_pages
               pdfplumber_pages segment_document content0 file_name0 content_type fid
               apply_block_cleaning include_keywords in
    ((exists msg, r = inl (UnsupportedType msg)) <->
     base_type content_type <> s_ "application/pdf" /\ file_ext file_name0 <> s_ ".pdf") /\
    ((exists res, r = inr res) <->
     base_type content_type = s_ "application/pdf" \/ file_ext file_name0 = s_ ".pdf").
Proof.
  intros. subst r.
  assert (Hpdf : is_pdf content_type file_name0 = true <->
                 base_type content_type = s_ "application/pdf" \/
                 file_ext file_name0 = s_ ".pdf").
  { unfold is_pdf.
    destruct (str_eqb (base_type content_type) (s_ "application/pdf")) eqn:E1.
    - apply str_eqb_eq in E1; tauto.
    - apply str_eqb_neq in E1; rewrite str_eqb_eq; tauto. }
  unfold extract_document.
  destruct (is_pdf content_type file_name0) eqn:E; simpl.
  - split; split.
    + intros [m Hm]; discriminate.
    + intros [H1 H2]; destruct (proj1 Hpdf eq_refl); contradiction.
    + intros _; apply Hpdf; reflexivity.
    + intros _; eexists; reflexivity.
  - split; split.
    + intros _. split; intro H; assert (false = true) by (apply Hpdf; tauto); discriminate.
    + intros _; eexists; reflexivity.
    + intros [res Hr]; discriminate.
    + intros H; apply Hpdf in H; discriminate.
Qed.

(** The scenario of the spec: a text/plain upload named x.txt is refused. *)
Example extract_document_text_plain_refused :
  forall uuid4 sha256 sha256_bytes now_iso av pp pl seg fid,
    exists msg,
      extract_document uuid4 sha256 sha256_bytes now_iso av pp pl seg
        [Byte.x6e; Byte.x6f; Byte.x74] (s_ "x.txt") (s_ "text/plain") fid false true
      = inl (UnsupportedType msg).
Proof. intros; eexists; reflexivity. Qed.

Example is_pdf_examples :
  is_pdf (s_ "Application/PDF; charset=binary") (s_ "x") = true /\
  is_pdf (s_ "application/octet-stream") (s_ "Report.final.PDF") = true /\
  is_pdf (s_ "text/plain") (s_ "pdf") = false.
Proof. repeat split; reflexivity. Qed.

(* ------------------------------------------------------------------ *)
(** ** Stripping *)

Lemma lstrip_split s : exists a, s = a ++ lstrip s /\ forallb is_space a = true.
Proof.
  induction s as [|c s IH]; simpl.
  - exists []; auto.
  - destruct (is_space c) eqn:Ec.
    + destruct IH as [a [Ha Hs]]; exists (c :: a); simpl; rewrite Ec, <- Ha; auto.
    + exists []; auto.
Qed.

Lemma rstrip_split s : exists b, s = rstrip s ++ b /\ forallb is_space b = true.
Proof.
  unfold rstrip. destruct (lstrip_split (rev s)) as [a [Ha Hs]].
  exists (rev a). split.
  - assert (H : rev (rev s) = rev (a ++ lstrip (rev s))) by (f_equal; exact Ha).
    rewrite rev_involutive, rev_app_distr in H; exact H.
  - rewrite forallb_forall in *; intros x Hx; apply Hs; apply in_rev; exact Hx.
Qed.

Lemma strip_split s :
  exists a b, s = a ++ strip s ++ b /\ forallb is_space a = true /\ forallb is_space b = true.
Proof.
  destruct (lstrip_split s) as [a [Ha Hsa]].
  destruct (rstrip_split (lstrip s)) as [b [Hb Hsb]].
  exists a, b; repeat split; auto.
  unfold strip; rewrite <- Hb; exact Ha.
Qed.

Lemma forallb_strip (p : ascii -> bool) s : forallb p s = true -> forallb p (strip s) = true.
Proof.
  intros H. destruct (strip_split s) as [a [b [Hs _]]].
  rewrite Hs in H. rewrite !forallb_app in H. apply andb_prop in H as [_ H].
  apply andb_prop in H as [H _]. exact H.
Qed.

Lemma leb_negb_ltb n m : (n <=? m) = negb (m <? n).
Proof.
  destruct (Nat.leb_spec n m), (Nat.ltb_spec m n); simpl; try reflexivity; lia.
Qed.

Lemma ltb_negb_leb n m : (n <? m) = negb (m <=? n).
Proof.
  destruct (Nat.ltb_spec n m), (Nat.leb_spec m n); simpl; try reflexivity; lia.
Qed.

(* ------------------------------------------------------------------ *)
(** ** Axis detection on one-line texts *)

(** The non-blank stripped lines [looks_like_axis] works on. *)
Definition nonblank_lines (text : str) : list str := filter nonempty (map strip (splitlines text)).

(** The word-count floor and the uniqueness test of [is_semantic], the
    axis test left out. *)
Definition size_and_uniqueness_ok (text : str) : bool :=
  let t := strip text in
  let words := split_ws t in
  nonempty t && (MIN_WORDS_SEMANTIC <=? length words) &&
  (3 * Nat.max (length words) 1 <? 10 * length (dedup_str (map lower words))).

Definition no_line_break (c : ascii) : bool := negb (is_line_break c).

Lemma splitlines_aux_one_line s cur :
  forallb no_line_break s = true -> length (splitlines_aux s cur) <= 1.
Proof.
  revert cur; induction s as [|c s IH]; intros cur H; simpl in *.
  - destruct cur; simpl; lia.
  - apply andb_prop in H as [Hc Hs]. unfold no_line_break in Hc.
    destruct (ascii_dec c "013"%char) as [E|E].
    + subst c; discriminate.
    + destruct (is_line_break c); [discriminate|]. apply IH; exact Hs.
Qed.

(** C10: [looks_like_axis] is false on every text with fewer than two
    non-blank lines; hence a candidate text on a single line (no line
    break character) is judged by [is_semantic] on the word floor and the
    uniqueness ratio alone, whatever share of "|" and "-" it has. *)
Theorem looks_like_axis_single_line :
  forall text : str,
    (length (nonblank_lines text) < 2 -> looks_like_axis text = false) /\
    (forallb no_line_break text = true -> is_semantic text = size_and_uniqueness_ok text).
Proof.
  assert (Hax : forall t, length (nonblank_lines t) < 2 -> looks_like_axis t = false).
  { intros t H; unfold looks_like_axis; fold (nonblank_lines t).
    apply Nat.ltb_lt in H; rewrite H; reflexivity. }
  intros text; split; [apply Hax|].
  intros Hnl. unfold is_semantic, size_and_uniqueness_ok.
  assert (Hs : looks_like_axis (strip text) = false).
  { apply Hax. unfold nonblank_lines.
    pose proof (splitlines_aux_one_line (strip text) [] (forallb_strip _ _ Hnl)) as H1.
    unfold splitlines.
    pose proof (filter_length_le nonempty (map strip (splitlines_aux (strip text) [])))
      as H2.
    rewrite length_map in H2. lia. }
  rewrite Hs.
  destruct (nonempty (strip text)); cbn [negb andb]; [|reflexivity]. cbv zeta.
  rewrite (leb_negb_ltb MIN_WORDS_SEMANTIC), (ltb_negb_leb (3 * _)).
  destruct (length (split_ws (strip text)) <? MIN_WORDS_SEMANTIC); cbn [negb andb];
    [reflexivity|].
  destruct (_ <=? _); reflexivity.
Qed.

(** An axis-looking single line of 40 distinct words separated by " | ". *)
Definition pipe_line : str :=
  join (s_ " | ") (map (fun n => [ascii_of_nat (65 + n / 26); ascii_of_nat (97 + n mod 26)])
                       (seq 0 40)).

Lemma looks_like_axis_single_line_witness :
  length (nonblank_lines pipe_line) < 2 /\ looks_like_axis pipe_line = false /\
  forallb no_line_break pipe_line = true /\
  is_semantic pipe_line = size_and_uniqueness_ok pipe_line.
Proof.
  assert (H1 : length (nonblank_lines pipe_line) < 2) by (vm_compute; lia).
  assert (H2 : forallb no_line_break pipe_line = true) by (vm_compute; reflexivity).
  split; [exact H1|]. split; [exact (proj1 (looks_like_axis_single_line pipe_line) H1)|].
  split; [exact H2|]. exact (proj2 (looks_like_axis_single_line pipe_line) H2).
Defined.

(* ------------------------------------------------------------------ *)
(** ** Order-preserving sublists *)

Inductive sublist {A} : list A -> list A -> Prop :=
| sublist_nil : sublist [] []
| sublist_skip x l1 l2 : sublist l1 l2 -> sublist l1 (x :: l2)
| sublist_cons x l1 l2 : sublist l1 l2 -> sublist (x :: l1) (x :: l2).

Lemma sublist_filter {A} (p : A -> bool) l : sublist (filter p l) l.
Proof.
  induction l as [|x l IH]; simpl; [constructor|].
  destruct (p x); constructor; exact IH.
Qed.

Lemma sublist_In {A} (l1 l2 : list A) x : sublist l1 l2 -> In x l1 -> In x l2.
Proof.
  induction 1; simpl; intros Hx; try tauto.
Qed.

(* ------------------------------------------------------------------ *)
(** ** Deduplication of the chunker *)

Section Dedup.

Variable sha256 : str -> str.

Let hash (s : SectionSchema) : str := content_hash sha256 (heading s) (content s).

Lemma dedup_sections_sublist seen l : sublist (dedup_sections sha256 seen l) l.
Proof.
  revert seen; induction l as [|x l IH]; intros seen; simpl; [constructor|].
  destruct (existsb _ seen); constructor; apply IH.
Qed.

Lemma dedup_sections_fresh seen l y :
  In y (dedup_sections sha256 seen l) -> ~ In (hash y) seen.
Proof.
  revert seen; induction l as [|x l IH]; intros seen; simpl; [tauto|].
  destruct (existsb (str_eqb (content_hash sha256 (heading x) (content x))) seen) eqn:E.
  - apply IH.
  - intros [<- | Hy].
    + intros Hin. apply (existsb_str_eqb_In (hash x)) in Hin. unfold hash in Hin.
      congruence.
    + intros Hin. apply (IH _ Hy). right; exact Hin.
Qed.

Lemma dedup_sections_nodup seen l : NoDup (map hash (dedup_sections sha256 seen l)).
Proof.
  revert seen; induction l as [|x l IH]; intros seen; simpl; [constructor|].
  destruct (existsb _ seen); [apply IH|].
  simpl; constructor; [|apply IH].
  intros Hin. apply in_map_iff in Hin as [y [Hy Hin]].
  apply dedup_sections_fresh in Hin. apply Hin. left; symmetry; exact Hy.
Qed.

Lemma dedup_sections_first seen l y :
  In y (dedup_sections sha256 seen l) ->
  exists pre post, l = pre ++ y :: post /\ Forall (fun z => hash z <> hash y) pre.
Proof.
  revert seen; induction l as [|x l IH]; intros seen; simpl; [tauto|].
  destruct (existsb (str_eqb (content_hash sha256 (heading x) (content x))) seen) eqn:E.
  - intros Hy. destruct (IH _ Hy) as [pre [post [Hl Hf]]].
    exists (x :: pre), post; split; [rewrite Hl; reflexivity|].
    constructor; [|exact Hf].
    intros Heq. apply (dedup_sections_fresh _ _ _ Hy).
    apply existsb_str_eqb_In. unfold hash in *. rewrite <- Heq. exact E.
  - intros [<- | Hy].
    + exists [], l; split; [reflexivity | constructor].
    + destruct (IH _ Hy) as [pre [post [Hl Hf]]].
      exists (x :: pre), post; split; [rewrite Hl; reflexivity|].
      constructor; [|exact Hf].
      intros Heq. apply (dedup_sections_fresh _ _ _ Hy). left; exact Heq.
Qed.

Lemma dedup_sections_complete seen l x :
  In x l -> In (hash x) seen \/ exists y, In y (dedup_sections sha256 seen l) /\ hash y = hash x.
Proof.
  revert seen; induction l as [|z l IH]; intros seen; simpl; [tauto|].
  intros Hx.
  destruct (existsb (str_eqb (content_hash sha256 (heading z) (content z))) seen) eqn:E.
  - destruct Hx as [<- | Hx].
    + left. apply existsb_str_eqb_In in E. exact E.
    + apply IH; exact Hx.
  - destruct Hx as [<- | Hx].
    + right; exists z; split; [left|]; reflexivity.
    + destruct (IH (content_hash sha256 (heading z) (content z) :: seen) Hx) as [[H|H]|H].
      * right; exists z; split; [left; reflexivity|exact H].
      * left; exact H.
      * destruct H as [y [Hy Heq]]; right; exists y; split; [right|]; assumption.
Qed.

End Dedup.

(** C2: the sections [chunk_to_sections] returns have pairwise distinct
    normalized hashes of heading plus content; they are the candidate
    sections in their original order with some dropped, every candidate
    hash is represented, and each surviving section is the first
    candidate with its hash.  The document lists the surviving ids in
    order. *)
Theorem chunk_to_sections_dedup :
  forall (uuid4 : nat -> str) (sha256 : str -> str) (segs : list Segment) (fid : str)
         (src : Source) (max_words soft_max_words : nat),
    let hash := fun s => content_hash sha256 (heading s) (content s) in
    let cands := candidate_sections uuid4 segs fid max_words soft_max_words 0 in
    let '(doc, result) := chunk_to_sections uuid4 sha256 segs fid src max_words soft_max_words in
    NoDup (map hash result) /\
    sublist result cands /\
    Forall (fun x => exists y, In y result /\ hash y = hash x) cands /\
    Forall (fun y => exists pre post, cands = pre ++ y :: post /\
                                      Forall (fun z => hash z <> hash y) pre) result /\
    doc_sections doc = map section_id result.
Proof.
  intros uuid4 sha256 segs fid src mw smw hash cands.
  unfold chunk_to_sections; fold cands.
  repeat split.
  - apply dedup_sections_nodup.
  - apply dedup_sections_sublist.
  - apply Forall_forall; intros x Hx.
    destruct (dedup_sections_complete sha256 [] cands x Hx) as [H|H]; [destruct H|exact H].
  - apply Forall_forall; intros y Hy. apply (dedup_sections_first sha256 [] cands y Hy).
Qed.

(* ------------------------------------------------------------------ *)
(** ** Block cleaning: running headers and footers *)

Lemma key_eqb_eq k1 k2 : key_eqb k1 k2 = true <-> k1 = k2.
Proof.
  destruct k1 as [a1 b1], k2 as [a2 b2]; unfold key_eqb; simpl.
  rewrite andb_true_iff, !str_eqb_eq; split.
  - intros [-> ->]; reflexivity.
  - intros H; inversion H; split; reflexivity.
Qed.

Lemma key_eqb_sym k1 k2 : key_eqb k1 k2 = key_eqb k2 k1.
Proof.
  destruct (key_eqb k1 k2) eqn:E1, (key_eqb k2 k1) eqn:E2; try reflexivity.
  - apply key_eqb_eq in E1; subst; rewrite <- E2; symmetry; apply key_eqb_eq; reflexivity.
  - apply key_eqb_eq in E2; subst; rewrite <- E1; apply key_eqb_eq; reflexivity.
Qed.

(** The distinct pages on which blocks with key [k] occur. *)
Definition pages_with_key (k : key) (bs : list Block) : list Z :=
  nodup Z.eq_dec (map b_page (filter (fun b => key_eqb (block_key b) k) bs)).

(** [page_count[k]] *)
Fixpoint pc_lookup (k : key) (pc : list (key * list Z)) : option (list Z) :=
  match pc with
  | [] => None
  | (k', ps) :: pc' => if key_eqb k k' then Some ps else pc_lookup k pc'
  end.

Definition set_add_page (p : Z) (ps : list Z) : list Z :=
  if existsb (Z.eqb p) ps then ps else ps ++ [p].

Lemma pc_lookup_add k k0 p pc :
  pc_lookup k (page_count_add k0 p pc) =
  if key_eqb k k0
  then Some (set_add_page p (match pc_lookup k pc with Some ps => ps | None => [] end))
  else pc_lookup k pc.
Proof.
  induction pc as [|[k' ps] pc IH]; simpl.
  - destruct (key_eqb k k0); reflexivity.
  - destruct (key_eqb k0 k') eqn:E0.
    + apply key_eqb_eq in E0; subst k'. simpl.
      destruct (key_eqb k k0); reflexivity.
    + simpl. rewrite IH.
      destruct (key_eqb k k') eqn:E1; [|reflexivity].
      apply key_eqb_eq in E1; subst k'.
      rewrite key_eqb_sym, E0; reflexivity.
Qed.

Lemma pc_lookup_In k pc ps : pc_lookup k pc = Some ps -> In (k, ps) pc.
Proof.
  induction pc as [|[k' ps'] pc IH]; simpl; [discriminate|].
  destruct (key_eqb k k') eqn:E.
  - apply key_eqb_eq in E; subst; intros H; inversion H; left; reflexivity.
  - intros H; right; apply IH; exact H.
Qed.

Definition pages_raw (k : key) (seen : list Block) : list Z :=
  map b_page (filter (fun b => key_eqb (block_key b) k) seen).

Definition pc_agrees (pc : list (key * list Z)) (seen : list Block) : Prop :=
  forall k, match pc_lookup k pc with
            | Some ps => NoDup ps /\ (forall p, In p ps <-> In p (pages_raw k seen))
            | None => pages_raw k seen = []
            end.

Lemma set_add_page_spec p ps :
  NoDup ps -> NoDup (set_add_page p ps) /\ (forall q, In q (set_add_page p ps) <-> In q ps \/ q = p).
Proof.
  intros Hnd; unfold set_add_page.
  destruct (existsb (Z.eqb p) ps) eqn:E.
  - apply existsb_exists in E as [x [Hx Hpx]]. apply Z.eqb_eq in Hpx; subst x.
    split; [exact Hnd|]. intros q; split; [tauto|]. intros [H|H]; [exact H|subst; exact Hx].
  - split.
    + apply NoDup_app; [exact Hnd | constructor; [tauto|constructor] |].
      intros x Hx [Hxp|[]]; subst x.
      assert (existsb (Z.eqb p) ps = true) by (apply existsb_exists; exists p; split;
        [exact Hx | apply Z.eqb_refl]).
      congruence.
    + intros q; rewrite in_app_iff; simpl; intuition congruence.
Qed.

Lemma pc_agrees_step pc seen b :
  pc_agrees pc seen ->
  pc_agrees (page_count_add (block_key b) (b_page b) pc) (seen ++ [b]).
Proof.
  intros Hag k. rewrite pc_lookup_add. unfold pages_raw.
  rewrite filter_app, map_app. simpl. rewrite (key_eqb_sym (block_key b) k).
  specialize (Hag k). unfold pages_raw in Hag.
  destruct (key_eqb k (block_key b)); simpl.
  - destruct (pc_lookup k pc) as [ps|].
    + destruct Hag as [Hnd Hin].
      destruct (set_add_page_spec (b_page b) ps Hnd) as [Hnd' Hin'].
      split; [exact Hnd'|]. intros q. rewrite Hin', Hin, in_app_iff; simpl.
      split; intros [H|H]; try tauto.
      * right; left; symmetry; exact H.
      * destruct H as [H|[]]; right; symmetry; exact H.
    + rewrite Hag. simpl. split; [constructor; [tauto|constructor]|].
      intros q; simpl; tauto.
  - rewrite app_nil_r. exact Hag.
Qed.

Lemma page_count_agrees bs : pc_agrees (page_count bs) bs.
Proof.
  unfold page_count.
  assert (H : forall bs0 pc seen, pc_agrees pc seen ->
            pc_agrees (fold_left (fun pc b => page_count_add (block_key b) (b_page b) pc) bs0 pc)
                      (seen ++ bs0)).
  { induction bs0 as [|b bs0 IH]; intros pc seen Hag; simpl.
    - rewrite app_nil_r; exact Hag.
    - replace (seen ++ b :: bs0) with ((seen ++ [b]) ++ bs0)
        by (rewrite <- app_assoc; reflexivity).
      apply IH, pc_agrees_step, Hag. }
  apply (H bs [] []). intros k; reflexivity.
Qed.

Lemma repeated_keys_complete bs b :
  In b bs -> 3 <= length (pages_with_key (block_key b) bs) ->
  existsb (key_eqb (block_key b)) (repeated_keys bs) = true.
Proof.
  intros Hb H3.
  pose proof (page_count_agrees bs (block_key b)) as Hag.
  destruct (pc_lookup (block_key b) (page_count bs)) as [ps|] eqn:E.
  - destruct Hag as [Hnd Hin].
    assert (Hlen : length ps = length (pages_with_key (block_key b) bs)).
    { unfold pages_with_key. apply Nat.le_antisymm; apply NoDup_incl_length.
      - exact Hnd.
      - intros q Hq; apply nodup_In, Hin, Hq.
      - apply NoDup_nodup.
      - intros q Hq; apply Hin, (nodup_In Z.eq_dec), Hq. }
    apply existsb_exists. exists (block_key b); split; [|apply key_eqb_eq; reflexivity].
    unfold repeated_keys. apply in_map_iff. exists (block_key b, ps); split; [reflexivity|].
    apply filter_In; split; [apply pc_lookup_In, E|]. cbn [snd]. apply Nat.leb_le. lia.
  - exfalso. assert (Hp : In (b_page b) (pages_raw (block_key b) bs)).
    { unfold pages_raw. apply in_map, filter_In; split; [exact Hb|apply key_eqb_eq; reflexivity]. }
    rewrite Hag in Hp; destruct Hp.
Qed.

Lemma keep_block_not_repeated rep b :
  keep_block rep b = true -> existsb (key_eqb (block_key b)) rep = false.
Proof.
  unfold keep_block, block_key.
  destruct (existsb (key_eqb (normalize_for_dedup (get_text b), block_type_value (b_type b))) rep)
    eqn:E; [|reflexivity].
  repeat match goal with
         | |- (if ?c then _ else _) = true -> _ => destruct c; [discriminate|]
         end.
  discriminate.
Qed.

(** C7: [clean_blocks] returns some of its input blocks, unchanged and in
    their original order, and none of them has a (normalized text, block
    type) pair that occurs on three or more distinct pages of the input:
    every block with such a pair is dropped, its first occurrence
    included. *)
Theorem clean_blocks_drops_running_headers :
  forall bs : list Block,
    sublist (clean_blocks bs) bs /\
    Forall (fun b => length (pages_with_key (block_key b) bs) < 3) (clean_blocks bs).
Proof.
  intros bs. unfold clean_blocks. destruct bs as [|b0 bs0]; [split; constructor|].
  split; [apply sublist_filter|].
  apply Forall_forall. intros b Hb. apply filter_In in Hb as [Hin Hkeep].
  apply keep_block_not_repeated in Hkeep.
  destruct (Nat.lt_ge_cases (length (pages_with_key (block_key b) (b0 :: bs0))) 3)
    as [H|H]; [exact H|].
  rewrite (repeated_keys_complete _ _ Hin H) in Hkeep; discriminate.
Qed.

Definition running_header (page : Z) : Block :=
  mkBlock B_TEXT page None (s_ "Instrument Operator Manual") None None false.

Definition body_block : Block :=
  mkBlock B_TEXT 1 None (s_ "The sample is loaded into the tray before the run.") None None false.

(** The spec's scenario: a header repeated on pages 1, 2 and 3 is removed
    everywhere, the body text stays. *)
Example clean_blocks_header_scenario :
  clean_blocks [running_header 1; body_block; running_header 2; running_header 3] = [body_block].
Proof. vm_compute. reflexivity. Qed.

(* ------------------------------------------------------------------ *)
(** ** Keywords of one section *)

(** First-seen deduplication: keep the first occurrence of every string. *)
Definition first_seen (l : list str) : list str :=
  rev (nodup (list_eq_dec ascii_dec) (rev l)).

(** A normalized candidate [add] accepts when it is new. *)
Definition kw_ok (c : str) : bool := nonempty c && (1 <? length c).

Lemma nodup_skip_In (p q : list str) (a : str) :
  In a q -> nodup (list_eq_dec ascii_dec) (p ++ a :: q) = nodup (list_eq_dec ascii_dec) (p ++ q).
Proof.
  intros Ha. induction p as [|b p IH]; simpl.
  - destruct (in_dec (list_eq_dec ascii_dec) a q); [reflexivity|contradiction].
  - rewrite IH.
    destruct (in_dec (list_eq_dec ascii_dec) b (p ++ a :: q)) as [H1|H1],
             (in_dec (list_eq_dec ascii_dec) b (p ++ q)) as [H2|H2]; try reflexivity.
    + exfalso; apply H2. apply in_app_iff in H1 as [H1|[H1|H1]]; apply in_app_iff;
        [left|right|right]; congruence.
    + exfalso; apply H1. apply in_app_iff in H2 as [H2|H2]; apply in_app_iff;
        [left|right; right]; assumption.
Qed.

Lemma first_seen_skip x y a : In a x -> first_seen (x ++ a :: y) = first_seen (x ++ y).
Proof.
  intros Ha. unfold first_seen. f_equal.
  rewrite !rev_app_distr. simpl. rewrite <- app_assoc. simpl.
  apply nodup_skip_In. apply in_rev; rewrite rev_involutive; exact Ha.
Qed.

Lemma kw_fold_spec l kws :
  NoDup kws ->
  fold_left kw_add l (kws, rev kws) =
  (first_seen (kws ++ filter kw_ok (map kw_normalize l)),
   rev (first_seen (kws ++ filter kw_ok (map kw_normalize l)))).
Proof.
  revert kws; induction l as [|c l IH]; intros kws Hnd; simpl.
  - rewrite app_nil_r. unfold first_seen.
    rewrite nodup_fixed_point by (apply NoDup_rev; exact Hnd).
    rewrite rev_involutive. reflexivity.
  - assert (Hok : kw_ok (kw_normalize c) =
                  nonempty (kw_normalize c) && (1 <? length (kw_normalize c))) by reflexivity.
    rewrite Hok.
    destruct (nonempty (kw_normalize c)) eqn:Ene; simpl.
    + destruct (1 <? length (kw_normalize c)) eqn:Elen; simpl.
      * destruct (existsb (str_eqb (kw_normalize c)) (rev kws)) eqn:Eseen; simpl.
        -- rewrite IH by exact Hnd.
           apply existsb_str_eqb_In, in_rev in Eseen.
           rewrite (first_seen_skip _ _ _ Eseen). reflexivity.
        -- assert (Hn : ~ In (kw_normalize c) kws).
           { intros Hin. apply in_rev in Hin.
             apply existsb_str_eqb_In in Hin. congruence. }
           replace (kw_normalize c :: rev kws) with (rev (kws ++ [kw_normalize c]))
             by (rewrite rev_app_distr; reflexivity).
           rewrite IH.
           ++ rewrite <- app_assoc; reflexivity.
           ++ apply NoDup_app; [exact Hnd|constructor; [tauto|constructor]|].
              intros x Hx [<-|[]]; contradiction.
      * rewrite andb_false_r. apply IH; exact Hnd.
    + apply IH; exact Hnd.
Qed.

Lemma first_seen_NoDup l : NoDup (first_seen l).
Proof. unfold first_seen. apply NoDup_rev, NoDup_nodup. Qed.

Lemma NoDup_firstn_str n (l : list str) : NoDup l -> NoDup (firstn n l).
Proof.
  intros H. rewrite <- (firstn_skipn n l) in H. apply NoDup_app_remove_r in H. exact H.
Qed.

(** C6, as the code has it: the keywords are the normalized candidates
    (stripped, cut to 80 characters, longer than one character) in
    first-seen order, deduplicated by exact, case-sensitive equality,
    and capped at 50 entries. *)
Theorem extract_keywords_first_seen :
  forall (sec : SectionSchema) (bold_phrases : option (list str)) (table_header_row : option str),
    let kws := extract_keywords_from_section sec bold_phrases table_header_row in
    kws = firstn 50 (first_seen (filter kw_ok (map kw_normalize
                                   (kw_candidates sec bold_phrases table_header_row)))) /\
    length kws <= 50 /\ NoDup kws.
Proof.
  intros sec bold row kws. subst kws. unfold extract_keywords_from_section.
  pose proof (kw_fold_spec (kw_candidates sec bold row) [] (NoDup_nil _)) as H.
  cbn [app rev] in H. rewrite H. cbn [fst].
  repeat split.
  - rewrite length_firstn; lia.
  - apply NoDup_firstn_str, first_seen_NoDup.
Qed.

Definition foo_section : SectionSchema :=
  mkSection (s_ "s1") (s_ "f1") (s_ "Foo foo") TEXT (s_ "body") [] HIGH None.

(** C6 as stated fails: the heading "Foo foo" yields two keywords that
    are equal ignoring case. *)
Lemma extract_keywords_case_duplicates :
  extract_keywords_from_section foo_section None None = [s_ "Foo"; s_ "foo"] /\
  lower (s_ "Foo") = lower (s_ "foo") /\
  ~ NoDup (map lower (extract_keywords_from_section foo_section None None)).
Proof.
  assert (H : extract_keywords_from_section foo_section None None = [s_ "Foo"; s_ "foo"])
    by (vm_compute; reflexivity).
  split; [exact H|]. split; [vm_compute; reflexivity|].
  rewrite H. vm_compute. intros Hnd. inversion Hnd as [|x l Hx Hl]. apply Hx. left; reflexivity.
Qed.

(* ------------------------------------------------------------------ *)
(** ** The heading classifier *)

Lemma Qgeb_true a b : (b <= a)%Q -> Qgeb a b = true.
Proof. intros H; unfold Qgeb; apply Qle_bool_iff; exact H. Qed.

Lemma Qgeb_false a b : (a < b)%Q -> Qgeb a b = false.
Proof.
  intros H; unfold Qgeb. destruct (Qle_bool b a) eqn:E; [|reflexivity].
  apply Qle_bool_iff in E. exfalso; apply (Qlt_not_le a b H E).
Qed.

Lemma Qltb_true a b : (a < b)%Q -> Qltb a b = true.
Proof. intros H; exact (f_equal negb (Qgeb_false a b H)). Qed.

Lemma Qltb_false a b : (b <= a)%Q -> Qltb a b = false.
Proof. intros H; exact (f_equal negb (Qgeb_true a b H)). Qed.

(** C5, as the code has it.  For a non-empty text block (thresholds
    18/14/12/10): with a font size, level 1, 2 or 3 when the size reaches
    18, 14 or 12; level 4 when it reaches 10 and the block is bold or
    numbered; below 10, a bold or numbered block larger than the body
    size is a medium-confidence heading, level 2 when [size > body + 4]
    with the sum rounded to a double, and level 3 otherwise.  Without a font size, a
    block that is bold and short, or numbered, is a low-confidence
    heading whose level is 2 when it is bold and 3 when it is not. *)
Theorem classify_heading_decision_table :
  forall (block : Block) (body : option Q),
    b_type block = B_TEXT ->
    nonempty (strip (b_content block)) = true ->
    let text := strip (b_content block) in
    let bold := b_is_bold block in
    let numbered := looks_numbered text in
    let short := (length text <? 100) && (count_newlines text =? 0) in
    let r := classify_heading_default block body in
    (forall size, b_font_size block = Some size ->
       ((18 <= size)%Q -> r = (1, true, HIGH)) /\
       ((size < 18)%Q -> (14 <= size)%Q -> r = (2, true, HIGH)) /\
       ((size < 14)%Q -> (12 <= size)%Q -> r = (3, true, HIGH)) /\
       ((size < 12)%Q -> (10 <= size)%Q -> bold || numbered = true -> r = (4, true, HIGH)) /\
       (forall b, (size < 10)%Q -> body = Some b -> (b < size)%Q -> bold || numbered = true ->
          (fgt (Fin size) (fadd (Fin b) (Fin 4)) = true -> r = (2, true, MEDIUM)) /\
          (fgt (Fin size) (fadd (Fin b) (Fin 4)) = false -> r = (3, true, MEDIUM)))) /\
    (b_font_size block = None -> (bold && short) || numbered = true ->
       r = ((if bold then 2 else 3), true, LOW)).
Proof.
  intros block body Hty Hne text bold numbered short r.
  unfold r, short, numbered, bold, text; clear r short numbered bold text.
  unfold classify_heading_default, classify_heading.
  rewrite Hty. cbv zeta. rewrite Hne. cbn [negb].
  split.
  - intros size Hs. rewrite Hs. split; [|split; [|split; [|split]]].
    + intros H18. rewrite (Qgeb_true _ _ H18). reflexivity.
    + intros H18 H14. rewrite (Qgeb_false _ _ H18), (Qgeb_true _ _ H14). reflexivity.
    + intros H14 H12. rewrite (Qgeb_false size 18) by (apply Qlt_le_trans with (14%Q);
        [exact H14 | unfold Qle; simpl; lia]).
      rewrite (Qgeb_false _ _ H14), (Qgeb_true _ _ H12). reflexivity.
    + intros H12 H10 Hbn.
      rewrite (Qgeb_false size 18) by (apply Qlt_le_trans with (12%Q);
        [exact H12 | unfold Qle; simpl; lia]).
      rewrite (Qgeb_false size 14) by (apply Qlt_le_trans with (12%Q);
        [exact H12 | unfold Qle; simpl; lia]).
      rewrite (Qgeb_false _ _ H12), (Qgeb_true _ _ H10), Hbn. reflexivity.
    + intros b H10 Hb Hlt Hbn.
      assert (Hlt' : forall t, (10 <= t)%Q -> (size < t)%Q)
        by (intros t Ht; apply Qlt_le_trans with (10%Q); assumption).
      rewrite (Qgeb_false size 18) by (apply Hlt'; unfold Qle; simpl; lia).
      rewrite (Qgeb_false size 14) by (apply Hlt'; unfold Qle; simpl; lia).
      rewrite (Qgeb_false size 12) by (apply Hlt'; unfold Qle; simpl; lia).
      rewrite (Qgeb_false _ _ H10), Hb, (Qltb_true _ _ Hlt), Hbn. simpl.
      split.
      * intros H4; rewrite H4; reflexivity.
      * intros H4; rewrite H4; reflexivity.
  - intros Hs Hcond. rewrite Hs, Hcond. reflexivity.
Qed.

Definition bold_numbered_block : Block :=
  mkBlock B_TEXT 1 None (s_ "2.1 Scope
of the manual") None None true.

Lemma classify_heading_decision_table_witness :
  classify_heading_default bold_numbered_block None = (2%nat, true, LOW).
Proof.
  refine (proj2 (classify_heading_decision_table bold_numbered_block None
                   eq_refl eq_refl) eq_refl _).
  vm_compute; reflexivity.
Defined.

(** C5 as stated fails: a bold, numbered block without font size that is
    not short (it spans two lines) is a heading at level 2, not 3. *)
Lemma classify_heading_bold_long_numbered :
  looks_numbered (strip (b_content bold_numbered_block)) = true /\
  ((length (strip (b_content bold_numbered_block)) <? 100) &&
   (count_newlines (strip (b_content bold_numbered_block)) =? 0)) = false /\
  b_is_bold bold_numbered_block = true /\
  b_font_size bold_numbered_block = None /\
  classify_heading_default bold_numbered_block None = (2%nat, true, LOW).
Proof. vm_compute. repeat split. Qed.

(** The rounding gives Python's doubles: [0.1] is [3602879701896397 / 2^55];
    [0.1 + 0.2] is [0.30000000000000004], not [0.3]; [5.3 + 4 == 9.3];
    the largest finite double is [(2^53 - 1) * 2^971] and the next
    half-way point overflows; [2^-1075] rounds to zero (ties to even) and
    [3 * 2^-1076] to the smallest subnormal [2^-1074]. *)
Example round64_python_doubles :
  round64 (1 # 10) = Fin (7205759403792794 # 72057594037927936) /\
  round64 (2 # 10) = Fin (7205759403792794 # 36028797018963968) /\
  round64 (3 # 10) = Fin (5404319552844595 # 18014398509481984) /\
  fadd (round64 (1 # 10)) (round64 (2 # 10)) = Fin (5404319552844596 # 18014398509481984) /\
  fadd (round64 (53 # 10)) (Fin 4) = round64 (93 # 10) /\
  round64 (inject_Z (2 ^ 1024 - 2 ^ 971)) = Fin (inject_Z (9007199254740991 * 2 ^ 971)) /\
  round64 (inject_Z (2 ^ 1024 - 2 ^ 970)) = PInf /\
  round64 (- inject_Z (2 ^ 1024)) = NInf /\
  round64 (1 # Z.to_pos (2 ^ 1075)) = Fin (0 # Z.to_pos (2 ^ 1074)) /\
  round64 (3 # Z.to_pos (2 ^ 1076)) = Fin (1 # Z.to_pos (2 ^ 1074)).
Proof. vm_compute. repeat split. Qed.

(** With body size [5.3] and a bold block of size [9.3], [9.3 > 5.3 + 4]
    is false in double precision, so the block is a level-3 heading. *)
Example classify_heading_float_sum :
  classify_heading_default
    (mkBlock B_TEXT 1 None (s_ "Sample preparation") None
       (Some (2617717283409101 # 281474976710656)) true)
    (Some (5967269506265907 # 1125899906842624)) = (3%nat, true, MEDIUM).
Proof. vm_compute. reflexivity. Qed.

(** The block cleaner keeps a text block of bbox
    [(60.1, 31.7, 92.7, 96.9)]: in double precision [h / w] is exactly
    [2.0], not above 2. *)
Example keep_block_float_ratio :
  keep_block []
    (mkBlock B_TEXT 1
       (Some (8458323050155213 # 140737488355328, 8922756761727795 # 281474976710656,
              6523182585269453 # 70368744177664, 3409365655407821 # 35184372088832))
       (s_ "Store the reagents at room temperature") None None false) = true.
Proof. vm_compute. reflexivity. Qed.

(** Lines at [prev_bottom = 0.8] and [top = 15.8], [bottom = 22.6] stay in
    one block: the gap is [15.0] in double precision, not above 15. *)
Example gap_exceeds_float :
  gap_exceeds (4447304632028365 # 281474976710656) (3180667236830413 # 140737488355328)
    (3602879701896397 # 4503599627370496) = false.
Proof. vm_compute. reflexivity. Qed.

(* ------------------------------------------------------------------ *)
(** ** Table and figure segments *)

Lemma str_or_nil a : str_or a [] = a.
Proof. destruct a; reflexivity. Qed.

Lemma is_semantic_floor t : is_semantic t = true -> MIN_WORDS_SEMANTIC <= wc (strip t).
Proof.
  unfold is_semantic. cbv zeta.
  destruct (negb (nonempty (strip t))); [discriminate|].
  destruct (length (split_ws (strip t)) <? MIN_WORDS_SEMANTIC) eqn:E; [discriminate|].
  intros _. apply Nat.ltb_ge in E. exact E.
Qed.

Lemma build_chunk_sections_TEXT uuid4 i chunks h fid conf idx s :
  In s (fst (build_chunk_sections uuid4 i chunks h fid conf idx)) -> section_type s = TEXT.
Proof.
  revert i idx; induction chunks as [|c cs IH]; intros i idx; simpl; [tauto|].
  destruct (negb (is_semantic c)); [apply IH|].
  destruct (build_chunk_sections uuid4 (S i) cs h fid conf (S idx)) as [r idx2] eqn:E.
  simpl. intros [<- | Hr]; [reflexivity|].
  apply (IH (S i) (S idx)). rewrite E. exact Hr.
Qed.

Lemma split_text_segment_TEXT uuid4 seg fid maxw soft idx s :
  In s (fst (split_text_segment uuid4 seg fid maxw soft idx)) -> section_type s = TEXT.
Proof.
  unfold split_text_segment. cbv zeta.
  destruct (_ && _); [simpl; tauto|].
  destruct (_ <=? _).
  - destruct (negb _); simpl; [tauto|]. intros [<- | []]; reflexivity.
  - apply build_chunk_sections_TEXT.
Qed.

Lemma candidate_sections_table_figure uuid4 segs fid maxw soft idx s :
  In s (candidate_sections uuid4 segs fid maxw soft idx) -> section_type s <> TEXT ->
  is_semantic (content s) = true /\
  exists seg, In seg segs /\ is_table_or_figure (seg_section_type seg) = true /\
    seg_section_type seg = section_type s /\ seg_content seg = content s /\
    seg_heading seg = heading s.
Proof.
  revert idx; induction segs as [|seg segs IH]; intros idx; simpl; [tauto|].
  destruct (segment_sections uuid4 seg fid maxw soft idx) as [secs idx1] eqn:E.
  intros Hin Hty. apply in_app_or in Hin as [Hin | Hin].
  - unfold segment_sections in E.
    destruct (is_table_or_figure (seg_section_type seg)) eqn:Ht.
    + unfold table_figure_section in E.
      destruct (is_semantic (seg_content seg)) eqn:Hs; simpl in E;
        injection E as <- <-; simpl in Hin; [|tauto].
      destruct Hin as [<- | []]. simpl. split; [exact Hs|].
      exists seg. rewrite str_or_nil. repeat split; auto.
    + exfalso. apply Hty. apply (split_text_segment_TEXT uuid4 seg fid maxw soft idx).
      rewrite E. exact Hin.
  - destruct (IH idx1 Hin Hty) as [Hs [seg' [Hin' Hrest]]].
    split; [exact Hs|]. exists seg'. split; [right; exact Hin'|exact Hrest].
Qed.

(** C3, as the code has it.  A table or figure segment yields at most one
    section: none when its content fails [is_semantic] in full (the
    40-word floor included), otherwise exactly one whose content is the
    segment's content, unsplit.  Consequently every table or figure
    section in the output of [chunk_to_sections] passes [is_semantic],
    has at least 40 words, and carries the type, content and heading of
    a table or figure segment of the input. *)
Theorem chunk_to_sections_table_figure :
  forall (uuid4 : nat -> str) (sha256 : str -> str) (segs : list Segment)
         (fid : str) (src : Source) (max_words soft_max_words : nat),
    (forall seg idx, is_table_or_figure (seg_section_type seg) = true ->
       segment_sections uuid4 seg fid max_words soft_max_words idx =
       if is_semantic (seg_content seg)
       then ([mkSection (uuid4 (S idx)) fid (seg_heading seg) (seg_section_type seg)
                (seg_content seg) [] (seg_extraction_confidence seg) None], S idx)
       else ([], idx)) /\
    (forall s, In s (snd (chunk_to_sections uuid4 sha256 segs fid src max_words soft_max_words)) ->
       section_type s <> TEXT ->
       is_semantic (content s) = true /\ MIN_WORDS_SEMANTIC <= wc (strip (content s)) /\
       exists seg, In seg segs /\ is_table_or_figure (seg_section_type seg) = true /\
         seg_section_type seg = section_type s /\ seg_content seg = content s /\
         seg_heading seg = heading s).
Proof.
  intros uuid4 sha256 segs fid src max_words soft_max_words. split.
  - intros seg idx Ht. unfold segment_sections. rewrite Ht.
    unfold table_figure_section. rewrite str_or_nil.
    destruct (is_semantic (seg_content seg)); reflexivity.
  - intros s Hin Hty. unfold chunk_to_sections in Hin. simpl in Hin.
    apply (sublist_In _ _ _ (dedup_sections_sublist sha256 [] _)) in Hin.
    destruct (candidate_sections_table_figure uuid4 segs fid max_words soft_max_words 0 s Hin Hty)
      as [Hs Hseg].
    split; [exact Hs|]. split; [apply is_semantic_floor; exact Hs|exact Hseg].
Qed.

Definition reagent_table_text : str :=
  s_ "Reagent lot expiry storage temperature volume calibrator control serum plasma urine sample cuvette wavelength absorbance linearity range precision accuracy bias drift blank standard diluent buffer wash probe needle mixer incubator photometer lamp filter detector tubing valve pump syringe reservoir waste sensor alarm".

Definition reagent_table : Segment :=
  mkSegment (s_ "Reagents") 2 TABLE reagent_table_text 3 None HIGH.

Definition fixed_ids (n : nat) : str := s_ "id-" ++ [ascii_of_nat (48 + n)].

Definition no_source : Source := mkSource (s_ "manual.pdf") [] [].

Definition reagent_section : SectionSchema :=
  mkSection (fixed_ids 1) (s_ "f") (s_ "Reagents") TABLE reagent_table_text [] HIGH None.

Lemma chunk_to_sections_table_figure_witness :
  segment_sections fixed_ids reagent_table (s_ "f") 600 300 0 = ([reagent_section], 1) /\
  (is_semantic (content reagent_section) = true /\
   MIN_WORDS_SEMANTIC <= wc (strip (content reagent_section)) /\
   exists seg, In seg [reagent_table] /\ is_table_or_figure (seg_section_type seg) = true /\
     seg_section_type seg = section_type reagent_section /\
     seg_content seg = content reagent_section /\ seg_heading seg = heading reagent_section).
Proof.
  split.
  - rewrite (proj1 (chunk_to_sections_table_figure fixed_ids (fun h => h) [reagent_table]
                      (s_ "f") no_source 600 300) reagent_table 0 eq_refl).
    vm_compute. reflexivity.
  - apply (proj2 (chunk_to_sections_table_figure fixed_ids (fun h => h) [reagent_table]
                    (s_ "f") no_source 600 300)).
    + vm_compute. left. reflexivity.
    + discriminate.
Defined.

Definition short_table_text : str :=
  s_ "Reagent lot expiry storage temperature volume calibrator control serum plasma".

Definition short_table : Segment :=
  mkSegment (s_ "Reagents") 2 TABLE short_table_text 3 None HIGH.

(** C3 as stated fails: a one-line table of ten distinct words passes the
    unique-word ratio test and is not axis-like, yet it is dropped,
    because the 40-word floor of [is_semantic] applies to tables too. *)
Lemma table_below_word_floor_dropped :
  let t := strip short_table_text in
  10 * length (dedup_str (map lower (split_ws t))) > 3 * Nat.max (wc t) 1 /\
  looks_like_axis t = false /\
  wc t < MIN_WORDS_SEMANTIC /\
  forall (uuid4 : nat -> str) (sha256 : str -> str) fid src,
    snd (chunk_to_sections uuid4 sha256 [short_table] fid src 600 300) = [].
Proof.
  cbv zeta. split; [vm_compute; lia|]. split; [vm_compute; reflexivity|].
  split; [vm_compute; lia|]. intros. vm_compute. reflexivity.
Qed.

(* ------------------------------------------------------------------ *)
(** ** Word counts *)

Lemma split_aux_app_space a b cur c :
  is_space c = true -> split_aux (a ++ c :: b) cur = split_aux a cur ++ split_aux b [].
Proof.
  intros Hc. revert cur; induction a as [|d a IH]; intros cur; cbn [app split_aux].
  - rewrite Hc. reflexivity.
  - destruct (is_space d); [rewrite IH, app_assoc; reflexivity | apply IH].
Qed.

Lemma split_aux_spaces a b :
  forallb is_space a = true -> split_aux (a ++ b) [] = split_aux b [].
Proof.
  induction a as [|d a IH]; cbn [app split_aux forallb]; [reflexivity|].
  intros H. apply andb_prop in H as [Hd Ha]. rewrite Hd. apply IH; exact Ha.
Qed.

Lemma wc_app_sep a sep b :
  sep <> [] -> forallb is_space sep = true -> wc (a ++ sep ++ b) = wc a + wc b.
Proof.
  destruct sep as [|c sep]; [congruence|]. intros _ H.
  cbn [forallb] in H. apply andb_prop in H as [Hc Hs].
  unfold wc, split_ws. cbn [app].
  rewrite split_aux_app_space by exact Hc. rewrite split_aux_spaces by exact Hs.
  apply length_app.
Qed.

Lemma split_aux_len_nonempty s a b :
  a <> [] -> b <> [] -> length (split_aux s a) = length (split_aux s b).
Proof.
  revert a b; induction s as [|c s IH]; intros a b Ha Hb; cbn [split_aux].
  - destruct a; [congruence|]; destruct b; [congruence|]; reflexivity.
  - destruct (is_space c).
    + destruct a; [congruence|]; destruct b; [congruence|]; reflexivity.
    + apply IH; discriminate.
Qed.

Lemma split_aux_len_le s cur : length (split_aux s []) <= length (split_aux s cur).
Proof.
  revert cur; induction s as [|c s IH]; intros cur; cbn [split_aux].
  - cbn. lia.
  - destruct (is_space c).
    + rewrite !length_app. cbn [flush length]. lia.
    + rewrite (split_aux_len_nonempty s (c :: cur) [c]) by discriminate. lia.
Qed.

Lemma wc_cons c s : wc s <= wc (c :: s).
Proof.
  unfold wc, split_ws. cbn [split_aux]. destruct (is_space c).
  - cbn [flush app]. lia.
  - apply split_aux_len_le.
Qed.

Lemma wc_skipn n s : wc (skipn n s) <= wc s.
Proof.
  revert s; induction n as [|n IH]; intros s; [apply Nat.le_refl|].
  destruct s as [|c s]; [apply Nat.le_refl|].
  cbn [skipn]. etransitivity; [apply IH|apply wc_cons].
Qed.

Lemma wc_lstrip s : wc (lstrip s) = wc s.
Proof.
  induction s as [|c s IH]; [reflexivity|]. cbn [lstrip].
  destruct (is_space c) eqn:E; [|reflexivity].
  rewrite IH. unfold wc, split_ws. cbn [split_aux]. rewrite E. reflexivity.
Qed.

(* ------------------------------------------------------------------ *)
(** ** More on stripping *)

Lemma lstrip_app a b :
  lstrip (a ++ b) = if forallb is_space a then lstrip b else lstrip a ++ b.
Proof.
  induction a as [|c a IH]; [reflexivity|]. cbn [app lstrip forallb].
  destruct (is_space c); [exact IH|reflexivity].
Qed.

Lemma lstrip_spaces a : forallb is_space a = true -> lstrip a = [].
Proof. intros H. rewrite <- (app_nil_r a), lstrip_app, H. reflexivity. Qed.

Lemma lstrip_idem s : lstrip (lstrip s) = lstrip s.
Proof.
  induction s as [|c s IH]; [reflexivity|]. cbn [lstrip].
  destruct (is_space c) eqn:E; [exact IH|]. cbn [lstrip]. rewrite E. reflexivity.
Qed.

Lemma lstrip_length s : length (lstrip s) <= length s.
Proof.
  induction s as [|c s IH]; [apply Nat.le_refl|]. cbn [lstrip].
  destruct (is_space c); cbn [length]; lia.
Qed.

Lemma forallb_rev_str (p : ascii -> bool) (l : str) : forallb p (rev l) = forallb p l.
Proof.
  induction l as [|x l IH]; [reflexivity|]. cbn [rev forallb].
  rewrite forallb_app, IH. cbn [forallb]. rewrite andb_true_r, andb_comm. reflexivity.
Qed.

Lemma rstrip_app a b :
  rstrip (a ++ b) = if forallb is_space b then rstrip a else a ++ rstrip b.
Proof.
  unfold rstrip. rewrite rev_app_distr, lstrip_app, forallb_rev_str.
  destruct (forallb is_space b); [reflexivity|].
  rewrite rev_app_distr, rev_involutive. reflexivity.
Qed.

Lemma rstrip_idem s : rstrip (rstrip s) = rstrip s.
Proof. unfold rstrip. rewrite rev_involutive, lstrip_idem. reflexivity. Qed.

Lemma lstrip_rstrip y : lstrip y = y -> lstrip (rstrip y) = rstrip y.
Proof.
  intros Hy. destruct (rstrip_split y) as [b [Hb Hsb]].
  rewrite Hb in Hy at 1. rewrite lstrip_app in Hy.
  destruct (forallb is_space (rstrip y)) eqn:E.
  - rewrite (lstrip_spaces b Hsb) in Hy. rewrite <- Hy. reflexivity.
  - assert (H2 : lstrip (rstrip y) ++ b = rstrip y ++ b) by (rewrite Hy; exact Hb).
    apply app_inv_tail in H2. exact H2.
Qed.

Lemma lstrip_strip s : lstrip (strip s) = strip s.
Proof. apply lstrip_rstrip, lstrip_idem. Qed.

Lemma rstrip_strip s : rstrip (strip s) = strip s.
Proof. apply rstrip_idem. Qed.

Lemma strip_length s : length (strip s) <= length s.
Proof.
  destruct (strip_split s) as [a [b [Hs _]]].
  rewrite Hs at 2. rewrite !length_app. lia.
Qed.

Lemma lstripped_not_spaces s : lstrip s = s -> s <> [] -> forallb is_space s = false.
Proof.
  intros Hl Hne. destruct (forallb is_space s) eqn:E; [|reflexivity].
  exfalso. apply Hne. rewrite <- Hl. apply lstrip_spaces; exact E.
Qed.

Lemma lstripped_head d t : lstrip (d :: t) = d :: t -> is_space d = false.
Proof.
  cbn [lstrip]. destruct (is_space d); [|reflexivity]. intros H.
  pose proof (lstrip_length t) as Hl. rewrite H in Hl. cbn [length] in Hl. lia.
Qed.

Lemma is_newline_space c : is_newline c = true -> is_space c = true.
Proof.
  unfold is_newline. destruct (ascii_dec c "010"%char) as [->|]; [reflexivity|discriminate].
Qed.

Lemma strip_cons_nonspace d t : is_space d = false -> strip (d :: t) <> [].
Proof.
  intros Hd. unfold strip. cbn [lstrip]. rewrite Hd.
  change (d :: t) with ([d] ++ t). rewrite rstrip_app.
  destruct (forallb is_space t).
  - unfold rstrip. cbn [rev app lstrip]. rewrite Hd. discriminate.
  - discriminate.
Qed.

(** The text [_split_text_segment] chunks, for a stripped non-empty
    heading and a stripped content. *)
Lemma strip_join h c :
  lstrip h = h -> rstrip h = h -> lstrip c = c -> rstrip c = c -> h <> [] ->
  strip (h ++ two_nl ++ c) = if nonempty c then h ++ two_nl ++ c else h.
Proof.
  intros Hl Hr Hcl Hcr Hne.
  unfold strip. rewrite lstrip_app, (lstripped_not_spaces h Hl Hne), Hl.
  rewrite (app_assoc h two_nl c), rstrip_app.
  destruct c as [|d c'].
  - cbn [forallb nonempty]. rewrite rstrip_app.
    replace (forallb is_space two_nl) with true by reflexivity. exact Hr.
  - rewrite (lstripped_not_spaces (d :: c') Hcl ltac:(discriminate)), Hcr.
    reflexivity.
Qed.

(* ------------------------------------------------------------------ *)
(** ** Pieces of the regex splits *)

Lemma psplit_first s cur : exists t rest, psplit s cur false = (rev cur ++ t) :: rest.
Proof.
  revert cur; induction s as [|c s IH]; intros cur; cbn [psplit andb].
  - exists [], []. rewrite app_nil_r. reflexivity.
  - destruct (is_newline c && has_nl_in_run s).
    + exists [], (psplit s [] true). rewrite app_nil_r. reflexivity.
    + destruct (IH (c :: cur)) as [t [rest H]]. exists (c :: t), rest.
      rewrite H. cbn [rev]. rewrite <- app_assoc. reflexivity.
Qed.

Lemma psplit_len s cur sk x : In x (psplit s cur sk) -> length x <= length s + length cur.
Proof.
  revert cur sk; induction s as [|c s IH]; intros cur sk; cbn [psplit].
  - intros [<- | []]. rewrite length_rev. cbn [length]. lia.
  - destruct (sk && _).
    + intros H. specialize (IH _ _ H). cbn [length] in *. lia.
    + destruct (is_newline c && has_nl_in_run s).
      * intros [<- | H]; [rewrite length_rev; cbn [length]; lia|].
        specialize (IH _ _ H). cbn [length] in *. lia.
      * intros H. specialize (IH _ _ H). cbn [length] in *. lia.
Qed.

Lemma psplit_first_short a b cur :
  has_nl_in_run b = true ->
  exists x rest, psplit (a ++ "010"%char :: b) cur false = x :: rest /\
                 length x <= length a + length cur.
Proof.
  revert cur; induction a as [|c a IH]; intros cur Hb; cbn [app psplit andb].
  - assert (Hn : is_newline "010"%char = true) by reflexivity.
    rewrite Hn, Hb. cbn [andb]. exists (rev cur), (psplit b [] true).
    split; [reflexivity|]. rewrite length_rev. cbn [length]. lia.
  - destruct (is_newline c && has_nl_in_run (a ++ "010"%char :: b)).
    + exists (rev cur), (psplit (a ++ "010"%char :: b) [] true).
      split; [reflexivity|]. rewrite length_rev. cbn [length]. lia.
    + destruct (IH (c :: cur) Hb) as [x [rest [H1 H2]]]. exists x, rest.
      split; [exact H1|]. cbn [length] in *. lia.
Qed.

Lemma ssplit_first sk pp s cur :
  exists t rest, ssplit sk pp s cur = (rev cur ++ t) :: rest.
Proof.
  revert sk pp cur; induction s as [|c s IH]; intros sk pp cur; cbn [ssplit].
  - exists [], []. rewrite app_nil_r. reflexivity.
  - destruct (is_space c && (sk || pp)).
    + destruct sk.
      * apply IH.
      * exists [], (ssplit true false s []). rewrite app_nil_r. reflexivity.
    + destruct (IH false (is_punct c) (c :: cur)) as [t [rest H]].
      exists (c :: t), rest. rewrite H. cbn [rev]. rewrite <- app_assoc. reflexivity.
Qed.

Lemma ssplit_len sk pp s cur x : In x (ssplit sk pp s cur) -> length x <= length s + length cur.
Proof.
  revert sk pp cur; induction s as [|c s IH]; intros sk pp cur; cbn [ssplit].
  - intros [<- | []]. rewrite length_rev. lia.
  - destruct (is_space c && (sk || pp)).
    + destruct sk.
      * intros H. specialize (IH _ _ _ H). cbn [length]. lia.
      * intros [<- | H]; [rewrite length_rev; cbn [length]; lia|].
        specialize (IH _ _ _ H). cbn [length] in *. lia.
    + intros H. specialize (IH _ _ _ H). cbn [length] in *. lia.
Qed.

Lemma sentences_len p c : In c (sentences p) -> length c <= length p.
Proof.
  unfold sentences, sent_split. intros H. apply filter_In in H as [H _].
  apply in_map_iff in H as [x [<- Hx]].
  apply ssplit_len in Hx. pose proof (strip_length x). cbn [length] in Hx. lia.
Qed.

Lemma sentences_In p x : In x (sent_split p) -> nonempty (strip x) = true ->
  In (strip x) (sentences p).
Proof.
  intros Hx Hne. unfold sentences. apply filter_In. split; [|exact Hne].
  apply in_map; exact Hx.
Qed.

Lemma paragraphs_In t x : In x (para_split t) -> nonempty (strip x) = true ->
  In (strip x) (paragraphs t).
Proof.
  intros Hx Hne. unfold paragraphs. apply filter_In. split; [|exact Hne].
  apply in_map; exact Hx.
Qed.

Lemma nonempty_true s : s <> [] -> nonempty s = true.
Proof. destruct s; [congruence|reflexivity]. Qed.

Lemma sent_split_first p :
  lstrip p = p -> p <> [] ->
  exists x rest, sent_split p = x :: rest /\ nonempty (strip x) = true.
Proof.
  intros Hl Hne. destruct p as [|d t]; [congruence|].
  pose proof (lstripped_head d t Hl) as Hd.
  unfold sent_split. cbn [ssplit]. rewrite Hd. cbn [andb].
  destruct (ssplit_first false (is_punct d) t [d]) as [t' [rest H]].
  rewrite H. exists (rev [d] ++ t'), rest. split; [reflexivity|].
  apply nonempty_true. apply strip_cons_nonspace; exact Hd.
Qed.

(* ------------------------------------------------------------------ *)
(** ** Invariants of the packing loops *)

(** A chunk of [_split_paragraph_by_sentences] on [p]: within the budget,
    or one over-long sentence of [p]. *)
Definition sent_good (maxw : nat) (p c : str) : Prop :=
  wc c <= maxw \/ (maxw < wc c /\ In c (sentences p)).

(** A chunk of [_semantic_split] on [text]: within the budget, or one
    over-long sentence of one of its paragraphs. *)
Definition chunk_good (maxw : nat) (text c : str) : Prop :=
  wc c <= maxw \/
  (maxw < wc c /\ exists p, In p (paragraphs text) /\ In c (sentences p)).

(** [current_words] counts the words of the pending chunk, which stays
    within the budget, and every emitted chunk is good. *)
Definition loop_inv (sep : str) (good : str -> Prop) (maxw : nat) (st : split_state) : Prop :=
  st_current_words st = wc (join sep (st_current st)) /\
  st_current_words st <= maxw /\ Forall good (st_chunks st).

Lemma join_snoc sep l x :
  join sep (l ++ [x]) = match l with [] => x | _ => join sep l ++ sep ++ x end.
Proof.
  induction l as [|a l IH]; [reflexivity|].
  destruct l as [|b l]; [reflexivity|].
  transitivity (a ++ sep ++ join sep ((b :: l) ++ [x])); [reflexivity|].
  rewrite IH.
  transitivity ((a ++ sep ++ join sep (b :: l)) ++ sep ++ x); [|reflexivity].
  rewrite <- !app_assoc. reflexivity.
Qed.

Lemma wc_join_snoc sep l x :
  sep <> [] -> forallb is_space sep = true ->
  wc (join sep (l ++ [x])) = wc (join sep l) + wc x.
Proof.
  intros Hne Hsp. rewrite join_snoc. destruct l; [reflexivity|].
  apply wc_app_sep; assumption.
Qed.

Lemma flush_good sep (good : str -> Prop) chunks current :
  Forall good chunks -> (current <> [] -> good (join sep current)) ->
  Forall good (match current with [] => chunks | _ => chunks ++ [join sep current] end).
Proof.
  intros Hf Hg. destruct current as [|c cs]; [exact Hf|].
  apply Forall_app; split; [exact Hf|].
  constructor; [apply Hg; discriminate|constructor].
Qed.

Lemma loop_inv_st0 sep good maxw : loop_inv sep good maxw st0.
Proof. split; [reflexivity|split; [apply Nat.le_0_l|constructor]]. Qed.

Lemma sent_step_inv maxw p st x :
  In x (sent_split p) -> loop_inv (s_ " ") (sent_good maxw p) maxw st ->
  loop_inv (s_ " ") (sent_good maxw p) maxw (sent_step maxw st x).
Proof.
  intros Hx [Hcw [Hle Hf]]. destruct st as [chunks current cw].
  cbn [st_chunks st_current st_current_words] in *.
  unfold sent_step. cbv beta iota zeta.
  destruct (nonempty (strip x)) eqn:Hne; cbn [negb];
    [|split; [exact Hcw|split; [exact Hle|exact Hf]]].
  assert (Hflush : Forall (sent_good maxw p)
            (match current with [] => chunks | _ => chunks ++ [join (s_ " ") current] end))
    by (apply flush_good; [exact Hf|intros _; left; rewrite <- Hcw; exact Hle]).
  destruct (Nat.leb_spec (cw + wc (strip x)) maxw) as [Hfit|Hfit].
  - split; [|split]; cbn [st_chunks st_current st_current_words].
    + rewrite wc_join_snoc by (discriminate || reflexivity). lia.
    + exact Hfit.
    + exact Hf.
  - destruct (Nat.leb_spec (wc (strip x)) maxw) as [Hw|Hw].
    + split; [reflexivity|split; [exact Hw|exact Hflush]].
    + split; [reflexivity|split; [apply Nat.le_0_l|]].
      cbn [st_chunks]. apply Forall_app; split; [exact Hflush|].
      constructor; [|constructor]. right. split; [exact Hw|].
      apply sentences_In; assumption.
Qed.

Lemma sent_fold_inv maxw p l st :
  incl l (sent_split p) -> loop_inv (s_ " ") (sent_good maxw p) maxw st ->
  loop_inv (s_ " ") (sent_good maxw p) maxw (fold_left (sent_step maxw) l st).
Proof.
  revert st; induction l as [|x l IH]; intros st Hincl Hinv; [exact Hinv|].
  cbn [fold_left]. apply IH.
  - intros y Hy; apply Hincl; right; exact Hy.
  - apply sent_step_inv; [apply Hincl; left; reflexivity|exact Hinv].
Qed.

Lemma split_paragraph_good maxw soft p :
  Forall (sent_good maxw p) (split_paragraph_by_sentences p maxw soft).
Proof.
  unfold split_paragraph_by_sentences.
  pose proof (sent_fold_inv maxw p (sent_split p) st0 (incl_refl _) (loop_inv_st0 _ _ _))
    as Hinv.
  destruct (fold_left (sent_step maxw) (sent_split p) st0) as [ch cu cw].
  destruct Hinv as [Hcw [Hle Hf]]. cbn [st_chunks st_current st_current_words] in *.
  unfold sent_finish. cbn [st_chunks st_current].
  destruct cu as [|u cu]; [exact Hf|].
  apply Forall_app; split; [exact Hf|]. constructor; [|constructor].
  left. rewrite <- Hcw. exact Hle.
Qed.

Lemma sent_to_chunk_good maxw text p c :
  In p (paragraphs text) -> sent_good maxw p c -> chunk_good maxw text c.
Proof.
  intros Hp [H | [H1 H2]]; [left; exact H|right; split; [exact H1|exists p; auto]].
Qed.

Lemma para_step_inv maxw soft text st x :
  In x (para_split text) -> loop_inv two_nl (chunk_good maxw text) maxw st ->
  loop_inv two_nl (chunk_good maxw text) maxw (para_step maxw soft st x).
Proof.
  intros Hx [Hcw [Hle Hf]]. destruct st as [chunks current cw].
  cbn [st_chunks st_current st_current_words] in *.
  unfold para_step. cbv beta iota zeta.
  destruct (nonempty (strip x)) eqn:Hne; cbn [negb];
    [|split; [exact Hcw|split; [exact Hle|exact Hf]]].
  assert (Hflush : Forall (chunk_good maxw text)
            (match current with [] => chunks | _ => chunks ++ [join two_nl current] end))
    by (apply flush_good; [exact Hf|intros _; left; rewrite <- Hcw; exact Hle]).
  assert (Hp : In (strip x) (paragraphs text)) by (apply paragraphs_In; assumption).
  destruct (Nat.leb_spec (cw + wc (strip x)) maxw) as [Hfit|Hfit].
  - split; [|split]; cbn [st_chunks st_current st_current_words].
    + rewrite wc_join_snoc by (discriminate || reflexivity). lia.
    + exact Hfit.
    + exact Hf.
  - destruct ((soft <=? cw) || _);
    (destruct (Nat.leb_spec (wc (strip x)) maxw) as [Hw|Hw];
     [split; [reflexivity|split; [exact Hw|exact Hflush]]
     |split; [reflexivity|split; [apply Nat.le_0_l|]];
      cbn [st_chunks]; apply Forall_app; split; [exact Hflush|];
      apply (Forall_impl _ (fun c => sent_to_chunk_good maxw text (strip x) c Hp));
      apply split_paragraph_good]).
Qed.

Lemma para_fold_inv maxw soft text l st :
  incl l (para_split text) -> loop_inv two_nl (chunk_good maxw text) maxw st ->
  loop_inv two_nl (chunk_good maxw text) maxw (fold_left (para_step maxw soft) l st).
Proof.
  revert st; induction l as [|x l IH]; intros st Hincl Hinv; [exact Hinv|].
  cbn [fold_left]. apply IH.
  - intros y Hy; apply Hincl; right; exact Hy.
  - apply para_step_inv; [apply Hincl; left; reflexivity|exact Hinv].
Qed.

Lemma para_finish_good maxw text st :
  loop_inv two_nl (chunk_good maxw text) maxw st -> Forall (chunk_good maxw text) (para_finish st).
Proof.
  destruct st as [ch cu cw]. intros [Hcw [Hle Hf]].
  cbn [st_chunks st_current st_current_words] in *.
  unfold para_finish. cbn [st_chunks st_current].
  destruct cu as [|u cu]; [exact Hf|].
  apply Forall_app; split; [exact Hf|]. constructor; [|constructor].
  left. rewrite <- Hcw. exact Hle.
Qed.

Lemma semantic_split_good maxw soft text :
  Forall (chunk_good maxw text) (semantic_split text maxw soft).
Proof.
  unfold semantic_split. apply para_finish_good.
  apply para_fold_inv; [apply incl_refl|apply loop_inv_st0].
Qed.

(* ------------------------------------------------------------------ *)
(** ** The first chunk *)

Definition nonempty_state (st : split_state) : Prop :=
  st_chunks st <> [] \/ st_current st <> [].

Lemma snoc_neq {A} (l : list A) x : l ++ [x] <> [].
Proof. intros H. apply app_eq_nil in H as [_ H]. discriminate. Qed.

Lemma sent_step_ne maxw st x :
  nonempty_state st \/ nonempty (strip x) = true -> nonempty_state (sent_step maxw st x).
Proof.
  intros Hst. destruct st as [ch cu cw].
  unfold sent_step. cbv beta iota zeta.
  destruct (nonempty (strip x)) eqn:Hne; cbn [negb].
  - destruct (cw + wc (strip x) <=? maxw); [right; apply snoc_neq|].
    destruct (wc (strip x) <=? maxw); [right; discriminate|left; apply snoc_neq].
  - destruct Hst as [H|H]; [exact H|discriminate].
Qed.

Lemma sent_fold_ne maxw l st :
  nonempty_state st -> nonempty_state (fold_left (sent_step maxw) l st).
Proof.
  revert st; induction l as [|x l IH]; intros st Hst; [exact Hst|].
  apply IH. apply sent_step_ne. left; exact Hst.
Qed.

Lemma split_paragraph_nonempty maxw soft p :
  lstrip p = p -> p <> [] -> split_paragraph_by_sentences p maxw soft <> [].
Proof.
  intros Hl Hne. destruct (sent_split_first p Hl Hne) as [x [rest [Hs Hx]]].
  unfold split_paragraph_by_sentences. rewrite Hs. cbn [fold_left].
  pose proof (sent_fold_ne maxw rest (sent_step maxw st0 x)
                (sent_step_ne maxw st0 x (or_intror Hx))) as Hst.
  destruct (fold_left (sent_step maxw) rest (sent_step maxw st0 x)) as [ch cu cw].
  unfold nonempty_state in Hst. cbn [st_chunks st_current] in Hst.
  unfold sent_finish. cbn [st_chunks st_current].
  destruct cu as [|u cu].
  - destruct Hst as [H|H]; [exact H|congruence].
  - apply snoc_neq.
Qed.

(** Once the first chunk is out it never changes; before that, a chunk
    is pending. *)
Definition first_ok (maxw : nat) (p1 : str) (st : split_state) : Prop :=
  match st_chunks st with
  | [] => st_current st <> []
  | c0 :: _ => wc c0 <= maxw \/ In c0 (sentences p1)
  end.

Lemma para_step_first maxw soft text p1 st x :
  loop_inv two_nl (chunk_good maxw text) maxw st -> first_ok maxw p1 st ->
  first_ok maxw p1 (para_step maxw soft st x).
Proof.
  intros [Hcw [Hle _]] Hfo. destruct st as [ch cu cw].
  unfold first_ok in *. cbn [st_chunks st_current st_current_words] in *.
  unfold para_step. cbv beta iota zeta.
  destruct (nonempty (strip x)); cbn [negb]; [|exact Hfo].
  destruct (cw + wc (strip x) <=? maxw).
  - cbn [st_chunks st_current]. destruct ch as [|c0 ch]; [apply snoc_neq|exact Hfo].
  - destruct ((soft <=? cw) || _);
    (destruct (wc (strip x) <=? maxw); cbn [st_chunks st_current];
     (destruct ch as [|c0 ch], cu as [|u cu]; [congruence| | |]);
     cbn [app]; first [left; rewrite <- Hcw; exact Hle | exact Hfo]).
Qed.

Lemma para_fold_first maxw soft text p1 l st :
  incl l (para_split text) -> loop_inv two_nl (chunk_good maxw text) maxw st ->
  first_ok maxw p1 st -> first_ok maxw p1 (fold_left (para_step maxw soft) l st).
Proof.
  revert st; induction l as [|x l IH]; intros st Hincl Hinv Hfo; [exact Hfo|].
  cbn [fold_left]. apply IH.
  - intros y Hy; apply Hincl; right; exact Hy.
  - apply para_step_inv; [apply Hincl; left; reflexivity|exact Hinv].
  - apply para_step_first with (text := text); assumption.
Qed.

Lemma para_step_first0 maxw soft p0 :
  strip p0 <> [] -> first_ok maxw (strip p0) (para_step maxw soft st0 p0).
Proof.
  intros Hne. unfold para_step, st0. cbv beta iota zeta.
  rewrite (nonempty_true _ Hne). cbn [negb].
  destruct (0 + wc (strip p0) <=? maxw); [cbn; discriminate|].
  destruct ((soft <=? 0) || _);
  (destruct (wc (strip p0) <=? maxw); [cbn; discriminate|];
   unfold first_ok; cbn [st_chunks st_current app];
   pose proof (split_paragraph_good maxw soft (strip p0)) as Hg;
   pose proof (split_paragraph_nonempty maxw soft (strip p0) (lstrip_strip p0) Hne) as Hn;
   destruct (split_paragraph_by_sentences (strip p0) maxw soft) as [|c0 cs];
   [congruence|];
   inversion Hg as [|? ? [H | [_ H]] _]; [left|right]; exact H).
Qed.

Lemma semantic_split_first maxw soft text p0 rest :
  para_split text = p0 :: rest -> strip p0 <> [] ->
  forall c0 cs, semantic_split text maxw soft = c0 :: cs ->
  wc c0 <= maxw \/ In c0 (sentences (strip p0)).
Proof.
  intros Hps Hne c0 cs Hs. unfold semantic_split in Hs. rewrite Hps in Hs.
  cbn [fold_left] in Hs.
  assert (Hin : incl rest (para_split text))
    by (rewrite Hps; intros y Hy; right; exact Hy).
  assert (Hinv0 : loop_inv two_nl (chunk_good maxw text) maxw (para_step maxw soft st0 p0))
    by (apply para_step_inv; [rewrite Hps; left; reflexivity|apply loop_inv_st0]).
  pose proof (para_fold_inv maxw soft text rest _ Hin Hinv0) as Hinv.
  pose proof (para_fold_first maxw soft text (strip p0) rest _ Hin Hinv0
                (para_step_first0 maxw soft p0 Hne)) as Hfo.
  destruct (fold_left (para_step maxw soft) rest (para_step maxw soft st0 p0)) as [ch cu cw].
  destruct Hinv as [Hcw [Hle _]]. unfold first_ok in Hfo.
  cbn [st_chunks st_current st_current_words] in *.
  unfold para_finish in Hs. cbn [st_chunks st_current] in Hs.
  destruct ch as [|c1 ch], cu as [|u cu]; cbn [app] in Hs;
    first [discriminate Hs
          | injection Hs as Hc0 _; subst c0;
            first [exact Hfo | left; rewrite Hcw in Hle; exact Hle]].
Qed.

Lemma para_split_first_piece d T :
  is_space d = false -> exists t rest, para_split (d :: T) = (d :: t) :: rest.
Proof.
  intros Hd. unfold para_split. cbn [psplit andb].
  destruct (is_newline d) eqn:En.
  - apply is_newline_space in En. congruence.
  - cbn [andb]. destruct (psplit_first T [d]) as [t [rest H]].
    exists t, rest. exact H.
Qed.

(** When the text starts with a stripped heading, an over-long first
    chunk is no longer than the heading. *)
Lemma first_chunk_short maxw soft h c :
  lstrip h = h -> rstrip h = h -> lstrip c = c -> rstrip c = c -> h <> [] ->
  forall c0 cs, semantic_split (full_text_of h c) maxw soft = c0 :: cs ->
  maxw < wc c0 -> length c0 <= length h.
Proof.
  intros Hl Hr Hcl Hcr Hne c0 cs Hs Hgt.
  unfold full_text_of in Hs. rewrite (nonempty_true h Hne) in Hs.
  rewrite strip_join in Hs by assumption.
  destruct h as [|d h']; [congruence|].
  pose proof (lstripped_head d h' Hl) as Hd.
  assert (Hfirst : exists T' t rest,
             semantic_split (d :: T') maxw soft = c0 :: cs /\
             para_split (d :: T') = (d :: t) :: rest /\
             length (d :: t) <= length (d :: h')).
  { destruct (nonempty c) eqn:Ec.
    - exists (h' ++ two_nl ++ c).
      destruct (para_split_first_piece d (h' ++ two_nl ++ c) Hd) as [t [rest Hps]].
      exists t, rest. split; [exact Hs|split; [exact Hps|]].
      destruct (psplit_first_short (d :: h') ("010"%char :: c) [] eq_refl)
        as [x [rest' [Hx Hxl]]].
      unfold para_split in Hps.
      change (d :: h' ++ two_nl ++ c) with ((d :: h') ++ "010"%char :: "010"%char :: c) in Hps.
      rewrite Hps in Hx. injection Hx as Hx1 _. subst x. cbn [length] in *. lia.
    - exists h'. destruct (para_split_first_piece d h' Hd) as [t [rest Hps]].
      exists t, rest. split; [exact Hs|split; [exact Hps|]].
      pose proof (psplit_len (d :: h') [] false (d :: t)) as Hpl.
      unfold para_split in Hps. rewrite Hps in Hpl.
      specialize (Hpl (or_introl eq_refl)). cbn [length] in *. lia. }
  destruct Hfirst as [T' [t [rest [Hs' [Hps Hlen]]]]].
  assert (Hp0 : strip (d :: t) <> []) by (apply strip_cons_nonspace; exact Hd).
  destruct (semantic_split_first maxw soft (d :: T') (d :: t) rest Hps Hp0 c0 cs Hs')
    as [H | H]; [lia|].
  apply sentences_len in H. pose proof (strip_length (d :: t)). lia.
Qed.

(* ------------------------------------------------------------------ *)
(** ** Text sections *)

Lemma str_or_self c : str_or c c = c.
Proof. destruct c; reflexivity. Qed.

Lemma nonempty_neq s : nonempty s = true -> s <> [].
Proof. destruct s; [discriminate|intros _; discriminate]. Qed.

Lemma wc_chunk_content (b : bool) (n : nat) (c : str) : wc (str_or (if b then lstrip (skipn n c) else c) c) <= wc c.
Proof.
  destruct b; unfold str_or.
  - destruct (nonempty _); [rewrite wc_lstrip; apply wc_skipn|apply Nat.le_refl].
  - destruct (nonempty c); apply Nat.le_refl.
Qed.

Lemma build_chunk_sections_good uuid4 maxw text i chunks h fid conf idx s :
  Forall (chunk_good maxw text) chunks ->
  (i = 0 -> nonempty h = true ->
   forall c0 cs, chunks = c0 :: cs -> maxw < wc c0 -> length c0 <= length h) ->
  In s (fst (build_chunk_sections uuid4 i chunks h fid conf idx)) ->
  chunk_good maxw text (content s).
Proof.
  revert i idx; induction chunks as [|c cs IH]; intros i idx Hf Hfirst;
    cbn [build_chunk_sections fst]; [intros []|].
  inversion Hf as [|? ? Hc Hcs]; subst.
  destruct (negb (is_semantic c)).
  - apply IH; [exact Hcs|intros Hi; discriminate Hi].
  - destruct (build_chunk_sections uuid4 (S i) cs h fid conf (S idx)) as [r idx2] eqn:E.
    cbn [fst]. intros [<- | Hr].
    + cbn [content]. destruct Hc as [Hle | [Hgt Hin]].
      * left. etransitivity; [apply wc_chunk_content|exact Hle].
      * assert (Hcont : forall ch,
                  (nonempty ch = true -> length c <= length ch) ->
                  str_or (if nonempty ch && startswith c ch
                          then lstrip (skipn (length ch) c) else c) c = c).
        { intros ch Hch. destruct (nonempty ch) eqn:Ech; cbn [andb].
          - rewrite skipn_all2 by (apply Hch; reflexivity).
            destruct (startswith c ch); [destruct c; reflexivity|apply str_or_self].
          - apply str_or_self. }
        rewrite Hcont.
        -- right. split; [exact Hgt|exact Hin].
        -- destruct ((i =? 0) && nonempty h) eqn:Eih; [|discriminate].
           apply andb_prop in Eih as [Ei Eh]. apply Nat.eqb_eq in Ei.
           intros _. apply (Hfirst Ei Eh c cs eq_refl Hgt).
    + apply (IH (S i) (S idx)); [exact Hcs|intros Hi; discriminate Hi|].
      rewrite E. exact Hr.
Qed.

Lemma split_text_segment_good uuid4 seg fid maxw soft idx s :
  In s (fst (split_text_segment uuid4 seg fid maxw soft idx)) ->
  chunk_good maxw (full_text_of (strip (seg_heading seg)) (strip (seg_content seg)))
    (content s).
Proof.
  pose proof (lstrip_strip (seg_heading seg)) as Hhl.
  pose proof (rstrip_strip (seg_heading seg)) as Hhr.
  pose proof (lstrip_strip (seg_content seg)) as Hcl.
  pose proof (rstrip_strip (seg_content seg)) as Hcr.
  unfold split_text_segment. cbv zeta.
  set (c := strip (seg_content seg)) in *. set (h := strip (seg_heading seg)) in *.
  destruct (negb (nonempty c) && negb (nonempty h)); [cbn; tauto|].
  destruct (Nat.leb_spec (wc (full_text_of h c)) maxw) as [Hw|Hw].
  - destruct (negb (is_semantic (full_text_of h c))); [cbn; tauto|].
    cbn [fst In]. intros [<- | []]. cbn [content]. left.
    unfold str_or. destruct (nonempty c) eqn:Ec; [|exact Hw].
    unfold full_text_of in Hw. destruct (nonempty h) eqn:Eh; [|exact Hw].
    rewrite strip_join in Hw by (try apply nonempty_neq; assumption).
    rewrite Ec in Hw. rewrite wc_app_sep in Hw by (discriminate || reflexivity). lia.
  - apply build_chunk_sections_good.
    + apply semantic_split_good.
    + intros _ Hh c0 cs Hcs Hgt.
      exact (first_chunk_short maxw soft h c Hhl Hhr Hcl Hcr (nonempty_neq h Hh) c0 cs Hcs Hgt).
Qed.

Lemma candidate_sections_text uuid4 segs fid maxw soft idx s :
  In s (candidate_sections uuid4 segs fid maxw soft idx) -> section_type s = TEXT ->
  exists seg, In seg segs /\ is_table_or_figure (seg_section_type seg) = false /\
    chunk_good maxw (full_text_of (strip (seg_heading seg)) (strip (seg_content seg)))
      (content s).
Proof.
  revert idx; induction segs as [|seg segs IH]; intros idx; cbn [candidate_sections]; [intros []|].
  destruct (segment_sections uuid4 seg fid maxw soft idx) as [secs idx1] eqn:E.
  intros Hin Hty. apply in_app_or in Hin as [Hin | Hin].
  - unfold segment_sections in E.
    destruct (is_table_or_figure (seg_section_type seg)) eqn:Ht.
    + unfold table_figure_section in E.
      destruct (is_semantic (seg_content seg)); cbn in E;
        injection E as <- <-; cbn in Hin; [|tauto].
      destruct Hin as [<- | []]. cbn in Hty. rewrite Hty in Ht. discriminate.
    + exists seg. split; [left; reflexivity|split; [exact Ht|]].
      apply (split_text_segment_good uuid4 seg fid maxw soft idx). rewrite E. exact Hin.
  - destruct (IH idx1 Hin Hty) as [seg' [Hin' Hrest]].
    exists seg'. split; [right; exact Hin'|exact Hrest].
Qed.

(** C1.  Every text section in the output of [chunk_to_sections] has at
    most [max_words] words, unless its content is one over-long sentence:
    then its content is exactly a sentence of a paragraph of the text
    ([heading + "\n\n" + content]) of the text segment it came from,
    emitted whole and verbatim. *)
Theorem chunk_to_sections_word_bound :
  forall (uuid4 : nat -> str) (sha256 : str -> str) (segs : list Segment)
         (fid : str) (src : Source) (max_words soft_max_words : nat) (s : SectionSchema),
    In s (snd (chunk_to_sections uuid4 sha256 segs fid src max_words soft_max_words)) ->
    section_type s = TEXT ->
    wc (content s) <= max_words \/
    (max_words < wc (content s) /\
     exists seg p, In seg segs /\ is_table_or_figure (seg_section_type seg) = false /\
       In p (paragraphs (full_text_of (strip (seg_heading seg)) (strip (seg_content seg)))) /\
       In (content s) (sentences p)).
Proof.
  intros uuid4 sha256 segs fid src max_words soft_max_words s Hin Hty.
  unfold chunk_to_sections in Hin. cbn [snd] in Hin.
  apply (sublist_In _ _ _ (dedup_sections_sublist sha256 [] _)) in Hin.
  destruct (candidate_sections_text uuid4 segs fid max_words soft_max_words 0 s Hin Hty)
    as [seg [Hseg [Ht [Hle | [Hgt [p [Hp Hsent]]]]]]].
  - left; exact Hle.
  - right. split; [exact Hgt|]. exists seg, p. auto.
Qed.

Definition long_sentence : str :=
  s_ "The operator loads each reagent cartridge into the cooled tray, checks every barcode against the worklist, verifies that calibration curves remain valid for the current lot, confirms waste containers have enough free volume, inspects probe tips for residue, and only then starts the automated run sequence from the main console screen today.".

Definition long_segment : Segment :=
  mkSegment (s_ "Overview") 1 TEXT long_sentence 1 None HIGH.

Definition long_section : SectionSchema :=
  hd reagent_section
    (snd (chunk_to_sections fixed_ids (fun h => h) [long_segment] (s_ "f") no_source 45 300)).

Lemma chunk_to_sections_word_bound_witness :
  wc (content long_section) <= 45 \/
  (45 < wc (content long_section) /\
   exists seg p, In seg [long_segment] /\ is_table_or_figure (seg_section_type seg) = false /\
     In p (paragraphs (full_text_of (strip (seg_heading seg)) (strip (seg_content seg)))) /\
     In (content long_section) (sentences p)).
Proof.
  apply (chunk_to_sections_word_bound fixed_ids (fun h => h) [long_segment] (s_ "f")
           no_source 45 300 long_section); vm_compute; [left; reflexivity|reflexivity].
Defined.

(** The over-long sentence is the one section of this segment, whole. *)
Example long_sentence_section :
  snd (chunk_to_sections fixed_ids (fun h => h) [long_segment] (s_ "f") no_source 45 300)
    = [long_section] /\
  content long_section = long_sentence /\ 45 < wc long_sentence.
Proof. vm_compute. split; [reflexivity|split; [reflexivity|lia]]. Qed.

(* ================================================================== *)
(** * Further properties of the extraction code *)

(* ------------------------------------------------------------------ *)
(** ** Structural segmentation *)

Lemma sublist_app_skip {A} (pre l1 l2 : list A) : sublist l1 l2 -> sublist l1 (pre ++ l2).
Proof. intros H; induction pre as [|x pre IH]; [exact H|constructor; exact IH]. Qed.

Lemma sublist_length {A} (l1 l2 : list A) : sublist l1 l2 -> length l1 <= length l2.
Proof. induction 1; simpl; lia. Qed.

Lemma absorb_body_spec f1 f2 f3 f4 bsz conf bs parts conf' rest :
  absorb_body f1 f2 f3 f4 bsz conf bs = (parts, conf', rest) ->
  exists pre, bs = pre ++ rest /\ Forall (fun b => b_type b = B_TEXT) pre /\
              parts = map (fun b => strip (b_content b)) pre.
Proof.
  revert conf parts conf' rest.
  induction bs as [|b bs IH]; intros conf parts conf' rest H; cbn [absorb_body] in H.
  - injection H as <- <- <-. exists []. split; [reflexivity|split; constructor].
  - destruct (b_type b) eqn:Et.
    + destruct (classify_heading b bsz f1 f2 f3 f4) as [[lvl hd] nc].
      destruct hd.
      * injection H as <- <- <-. exists []. split; [reflexivity|split; constructor].
      * destruct (absorb_body f1 f2 f3 f4 bsz (min_confidence conf nc) bs)
          as [[parts0 c0] rest0] eqn:Ea.
        injection H as <- <- <-.
        destruct (IH _ _ _ _ Ea) as [pre [Hbs [Hf Hp]]].
        exists (b :: pre). split; [rewrite Hbs; reflexivity|].
        split; [constructor; assumption|rewrite Hp; reflexivity].
    + injection H as <- <- <-. exists []. split; [reflexivity|split; constructor].
    + injection H as <- <- <-. exists []. split; [reflexivity|split; constructor].
Qed.

Lemma classify_heading_level b bsz f1 f2 f3 f4 :
  (1 <= fst (fst (classify_heading b bsz f1 f2 f3 f4)) <= 4)%nat.
Proof.
  unfold classify_heading.
  destruct (b_type b); cbn [fst]; try lia.
  cbv zeta.
  repeat match goal with
         | |- context [if ?c then _ else _] => destruct c
         | |- context [match ?o with Some _ => _ | None => _ end] => destruct o
         end; cbn [fst]; lia.
Qed.

Lemma sublist_nil_l {A} (l : list A) : sublist [] l.
Proof. induction l; constructor; assumption. Qed.

Lemma strip_strip s : strip (strip s) = strip s.
Proof. unfold strip at 1. rewrite lstrip_strip. apply rstrip_strip. Qed.

Lemma str_or_neq a b : b <> [] -> str_or a b <> [].
Proof. destruct a; [tauto|intros _; discriminate]. Qed.

Lemma str_or_nonempty a b : a <> [] -> str_or a b = a.
Proof. destruct a; [tauto|reflexivity]. Qed.

Lemma join_neq sep pre t post : t <> [] -> join sep (pre ++ t :: post) <> [].
Proof.
  intros Ht. induction pre as [|a pre IH]; cbn [app join].
  - destruct post; [exact Ht|]. destruct t; [congruence|discriminate].
  - destruct (pre ++ t :: post) as [|x l] eqn:E; [destruct pre; discriminate|].
    destruct a; [cbn [app]; destruct sep; [exact IH|discriminate]|discriminate].
Qed.

(** The case analysis of one round of [segment_loop]. *)
Ltac seg_round b :=
  cbn [segment_loop];
  destruct (b_type b) eqn:Etype;
  [ let lvl := fresh "lvl" in let ish := fresh "ish" in let conf := fresh "conf" in
    let Ec := fresh "Ec" in
    destruct (classify_heading b _ _ _ _ _) as [[lvl ish] conf] eqn:Ec;
    cbn iota beta;
    destruct (ish && nonempty (strip (b_content b))) eqn:Eh;
    [ let parts := fresh "parts" in let c' := fresh "c'" in let rest' := fresh "rest'" in
      let Ea := fresh "Ea" in
      destruct (absorb_body _ _ _ _ _ conf _) as [[parts c'] rest'] eqn:Ea;
      cbn iota beta
    | ]
  | destruct (has_valid_table_caption b) eqn:Ev; cbn [negb]
  | destruct (has_valid_figure_caption b) eqn:Ev; cbn [negb] ].

Lemma segment_loop_pages f1 f2 f3 f4 fuel bsz bs :
  length bs <= fuel ->
  sublist (map seg_page (segment_loop f1 f2 f3 f4 fuel bsz bs)) (map b_page bs).
Proof.
  revert bs; induction fuel as [|fuel IH]; intros bs Hl.
  - apply sublist_nil_l.
  - destruct bs as [|b bs]; [constructor|]. cbn [length] in Hl.
    seg_round b.
    + apply absorb_body_spec in Ea as [pre [Hbs _]].
      cbn [map seg_page]. apply sublist_cons. rewrite Hbs, map_app. apply sublist_app_skip.
      apply IH. rewrite Hbs, length_app in Hl. lia.
    + cbn [map seg_page]. apply sublist_cons. apply IH. lia.
    + cbn [map seg_page table_segment]. apply sublist_cons. apply IH. lia.
    + cbn [map]. apply sublist_skip. apply IH. lia.
    + cbn [map seg_page figure_segment]. apply sublist_cons. apply IH. lia.
    + cbn [map]. apply sublist_skip. apply IH. lia.
Qed.

Lemma segment_loop_levels f1 f2 f3 f4 fuel bsz bs :
  Forall (fun s => 1 <= seg_level s <= 4) (segment_loop f1 f2 f3 f4 fuel bsz bs).
Proof.
  revert bs; induction fuel as [|fuel IH]; intros bs; [constructor|].
  destruct bs as [|b bs]; [constructor|].
  seg_round b; try (constructor; [cbn; lia|apply IH]); try apply IH.
  constructor; [|apply IH]. cbn [seg_level].
  pose proof (classify_heading_level b bsz f1 f2 f3 f4) as Hl. rewrite Ec in Hl. exact Hl.
Qed.

Definition seg_is_table (s : Segment) : bool :=
  match seg_section_type s with TABLE => true | _ => false end.

Definition seg_is_figure (s : Segment) : bool :=
  match seg_section_type s with FIGURE => true | _ => false end.

Definition block_is_table (b : Block) : bool :=
  match b_type b with B_TABLE => true | _ => false end.

Definition block_is_figure (b : Block) : bool :=
  match b_type b with B_FIGURE => true | _ => false end.

Lemma filter_text_blocks (p : Block -> bool) pre :
  Forall (fun b => b_type b = B_TEXT) pre ->
  (forall b, b_type b = B_TEXT -> p b = false) -> filter p pre = [].
Proof.
  intros Hf Hp. induction Hf as [|b pre Hb Hf IH]; [reflexivity|].
  cbn [filter]. rewrite (Hp b Hb). exact IH.
Qed.

Lemma segment_loop_tables_figures f1 f2 f3 f4 fuel bsz bs :
  length bs <= fuel ->
  filter seg_is_table (segment_loop f1 f2 f3 f4 fuel bsz bs) =
    map table_segment (filter (fun b => block_is_table b && has_valid_table_caption b) bs) /\
  filter seg_is_figure (segment_loop f1 f2 f3 f4 fuel bsz bs) =
    map figure_segment (filter (fun b => block_is_figure b && has_valid_figure_caption b) bs).
Proof.
  revert bs; induction fuel as [|fuel IH]; intros bs Hl.
  - destruct bs; [split; reflexivity|cbn in Hl; lia].
  - destruct bs as [|b bs]; [split; reflexivity|]. cbn [length] in Hl.
    cbn [filter]. unfold block_is_table, block_is_figure.
    seg_round b; rewrite ?Etype; cbn [andb filter seg_is_table seg_is_figure seg_section_type
                                       table_segment figure_segment]; rewrite ?Ev.
    + apply absorb_body_spec in Ea as [pre [Hbs [Hf _]]].
      rewrite Hbs, !filter_app.
      rewrite (filter_text_blocks _ pre Hf), (filter_text_blocks _ pre Hf)
        by (intros x Hx; rewrite Hx; reflexivity).
      apply IH. rewrite Hbs, length_app in Hl. lia.
    + apply IH. lia.
    + destruct (IH bs ltac:(lia)) as [H1 H2]. rewrite H1, H2. split; reflexivity.
    + apply IH. lia.
    + destruct (IH bs ltac:(lia)) as [H1 H2]. rewrite H1, H2. split; reflexivity.
    + apply IH. lia.
Qed.

Lemma segment_loop_text_shape f1 f2 f3 f4 fuel bsz bs :
  Forall (fun s => seg_section_type s = TEXT ->
                   (seg_heading s = [] /\ seg_level s = 1) \/
                   (seg_heading s <> [] /\ strip (seg_heading s) = seg_heading s /\
                    seg_content s <> []))
    (segment_loop f1 f2 f3 f4 fuel bsz bs).
Proof.
  revert bs; induction fuel as [|fuel IH]; intros bs; [constructor|].
  destruct bs as [|b bs]; [constructor|].
  seg_round b; try apply IH; (constructor; [|apply IH]); cbn [seg_section_type seg_heading
    seg_level seg_content table_segment figure_segment]; try discriminate.
  - intros _. right. apply andb_true_iff in Eh as [_ Hne]. apply nonempty_neq in Hne.
    split; [exact Hne|split; [apply strip_strip|apply str_or_neq; exact Hne]].
  - intros _. left. split; reflexivity.
Qed.

Lemma segment_loop_keeps_text f1 f2 f3 f4 fuel bsz bs b :
  length bs <= fuel -> In b bs -> b_type b = B_TEXT -> strip (b_content b) <> [] ->
  exists s, In s (segment_loop f1 f2 f3 f4 fuel bsz bs) /\
    (seg_heading s = strip (b_content b) \/
     exists pre post, seg_content s = join two_nl (pre ++ strip (b_content b) :: post)).
Proof.
  revert bs; induction fuel as [|fuel IH]; intros bs Hl Hin Ht Hne.
  - destruct bs; [destruct Hin|cbn in Hl; lia].
  - destruct bs as [|b0 bs]; [destruct Hin|]. cbn [length] in Hl.
    assert (Hrest : In b bs -> exists s, In s (segment_loop f1 f2 f3 f4 fuel bsz bs) /\
        (seg_heading s = strip (b_content b) \/
         exists pre post, seg_content s = join two_nl (pre ++ strip (b_content b) :: post)))
      by (intros Hb; apply IH; [lia|exact Hb|exact Ht|exact Hne]).
    seg_round b0.
    + apply absorb_body_spec in Ea as [pre [Hbs [Hf Hp]]].
      destruct Hin as [<-|Hin].
      * eexists; split; [left; reflexivity|left; reflexivity].
      * rewrite Hbs in Hin. apply in_app_or in Hin as [Hin|Hin].
        -- eexists; split; [left; reflexivity|right]. cbn [seg_content].
           assert (Hpin : In (strip (b_content b)) (filter nonempty parts)).
           { apply filter_In; split; [rewrite Hp; exact (in_map (fun b => strip (b_content b)) _ _ Hin)|apply nonempty_true, Hne]. }
           apply in_split in Hpin as [l1 [l2 Hsplit]].
           exists l1, l2. rewrite Hsplit. apply str_or_nonempty, join_neq, Hne.
        -- destruct (IH rest') as [s [Hs Hs']];
             [rewrite Hbs, length_app in Hl; lia|exact Hin|exact Ht|exact Hne|].
           exists s; split; [right; exact Hs|exact Hs'].
    + destruct Hin as [<-|Hin].
      * eexists; split; [left; reflexivity|right]. exists [], []. reflexivity.
      * destruct (Hrest Hin) as [s [Hs Hs']]. exists s; split; [right; exact Hs|exact Hs'].
    + destruct Hin as [<-|Hin]; [congruence|].
      destruct (Hrest Hin) as [s [Hs Hs']]. exists s; split; [right; exact Hs|exact Hs'].
    + destruct Hin as [<-|Hin]; [congruence|]. exact (Hrest Hin).
    + destruct Hin as [<-|Hin]; [congruence|].
      destruct (Hrest Hin) as [s [Hs Hs']]. exists s; split; [right; exact Hs|exact Hs'].
    + destruct Hin as [<-|Hin]; [congruence|]. exact (Hrest Hin).
Qed.

(** *** Body font size *)

Lemma filter_none {A} (p : A -> bool) l : (forall x, In x l -> p x = false) -> filter p l = [].
Proof.
  induction l as [|x l IH]; intros H; [reflexivity|]. cbn [filter].
  rewrite (H x (or_introl eq_refl)). apply IH. intros y Hy; apply H; right; exact Hy.
Qed.

(** The keys of a [size_counts] list are pairwise different numbers. *)
Fixpoint keys_distinct (sc : list (Q * nat)) : Prop :=
  match sc with
  | [] => True
  | (k, _) :: sc' => (forall kn, In kn sc' -> ~ k == fst kn) /\ keys_distinct sc'
  end.

Lemma sca_keys x sc k n :
  In (k, n) sc -> exists n', In (k, n') (size_count_add x sc).
Proof.
  induction sc as [|[k' m] sc IH]; cbn [size_count_add In]; [tauto|]. intros [H|H].
  - injection H as <- <-. destruct (Qeq_bool x k'); eexists; left; reflexivity.
  - destruct (Qeq_bool x k').
    + exists n; right; exact H.
    + destruct (IH H) as [n' Hn']; exists n'; right; exact Hn'.
Qed.

Lemma sca_new x sc : exists k n, In (k, n) (size_count_add x sc) /\ x == k.
Proof.
  induction sc as [|[k' m] sc IH]; cbn [size_count_add].
  - exists x, 1%nat. split; [left; reflexivity|reflexivity].
  - destruct (Qeq_bool x k') eqn:E.
    + exists k', (S m). split; [left; reflexivity|apply Qeq_bool_iff; exact E].
    + destruct IH as [k [n [H1 H2]]]. exists k, n. split; [right; exact H1|exact H2].
Qed.

Lemma sca_in x sc k n :
  In (k, n) (size_count_add x sc) ->
  (exists m, In (k, m) sc) \/ (k = x /\ forall kn, In kn sc -> ~ x == fst kn).
Proof.
  induction sc as [|[k' m] sc IH]; cbn [size_count_add].
  - intros [H|[]]. injection H as <- <-. right. split; [reflexivity|intros kn []].
  - destruct (Qeq_bool x k') eqn:E; intros [H|H].
    + injection H as <- <-. left. exists m. left; reflexivity.
    + left. exists n. right; exact H.
    + injection H as <- <-. left. exists m. left; reflexivity.
    + destruct (IH H) as [[m' Hm]|[Hk Hall]].
      * left. exists m'. right; exact Hm.
      * right. split; [exact Hk|]. intros kn [<-|Hkn]; [|apply Hall, Hkn].
        cbn [fst]. intros Hq. apply Qeq_bool_iff in Hq. congruence.
Qed.

Lemma sca_distinct x sc : keys_distinct sc -> keys_distinct (size_count_add x sc).
Proof.
  induction sc as [|[k' m] sc IH]; cbn [size_count_add keys_distinct].
  - split; [intros kn []|exact I].
  - intros [Hd Hds]. destruct (Qeq_bool x k') eqn:E; cbn [keys_distinct].
    + split; [exact Hd|exact Hds].
    + split; [|apply IH, Hds].
      intros [k n] Hin. destruct (sca_in x sc k n Hin) as [[m' Hm]|[Hk _]].
      * exact (Hd _ Hm).
      * subst k. cbn [fst]. intros Hq. apply Qeq_sym, Qeq_bool_iff in Hq. congruence.
Qed.

Lemma sca_count x sc :
  keys_distinct sc -> forall k n, In (k, n) (size_count_add x sc) ->
  (In (k, n) sc /\ ~ x == k) \/ (exists m, In (k, m) sc /\ n = S m /\ x == k) \/
  (k = x /\ n = 1%nat /\ forall kn, In kn sc -> ~ x == fst kn).
Proof.
  induction sc as [|[k' m] sc IH]; cbn [size_count_add keys_distinct].
  - intros _ k n [H|[]]. injection H as <- <-. right; right.
    split; [reflexivity|split; [reflexivity|intros kn []]].
  - intros [Hd Hds] k n. destruct (Qeq_bool x k') eqn:E; intros [H|H].
    + injection H as <- <-. right; left. exists m.
      split; [left; reflexivity|split; [reflexivity|apply Qeq_bool_iff; exact E]].
    + left. split; [right; exact H|]. intros Hxk. apply (Hd (k, n) H). cbn [fst].
      apply Qeq_bool_iff in E. rewrite <- E. exact Hxk.
    + injection H as <- <-. left. split; [left; reflexivity|].
      intros Hq. apply Qeq_bool_iff in Hq. congruence.
    + destruct (IH Hds k n H) as [[H1 H2]|[[m' [H1 H2]]|[H1 [H2 H3]]]].
      * left. split; [right; exact H1|exact H2].
      * right; left. exists m'. split; [right; exact H1|exact H2].
      * right; right. split; [exact H1|split; [exact H2|]].
        intros kn [<-|Hkn]; [|apply H3, Hkn].
        cbn [fst]. intros Hq. apply Qeq_bool_iff in Hq. congruence.
Qed.

Section BodySize.

Variable round1 : Q -> Q.

(** The number of blocks whose rounded font size equals [x]. *)
Definition rounded_count (seen : list Block) (x : Q) : nat :=
  length (filter (fun b => match b_font_size b with
                           | Some f => Qeq_bool (round1 f) x
                           | None => false
                           end) seen).

Definition counts_inv (sc : list (Q * nat)) (seen : list Block) : Prop :=
  (forall k n, In (k, n) sc ->
     n = rounded_count seen k /\
     exists b f, In b seen /\ b_font_size b = Some f /\ round1 f = k) /\
  (forall b f, In b seen -> b_font_size b = Some f ->
     exists k n, In (k, n) sc /\ round1 f == k) /\
  keys_distinct sc.

Lemma rounded_count_snoc seen b x :
  rounded_count (seen ++ [b]) x =
  (rounded_count seen x +
   match b_font_size b with Some f => if Qeq_bool (round1 f) x then 1 else 0 | None => 0 end)%nat.
Proof.
  unfold rounded_count. rewrite filter_app, length_app. cbn [filter].
  destruct (b_font_size b) as [f|]; [destruct (Qeq_bool (round1 f) x)|]; reflexivity.
Qed.

Lemma counts_inv_step sc seen b :
  counts_inv sc seen ->
  counts_inv (match b_font_size b with
              | Some f => size_count_add (round1 f) sc
              | None => sc
              end) (seen ++ [b]).
Proof.
  intros [Hc [Hcov Hd]].
  destruct (b_font_size b) as [f|] eqn:Ef.
  - split; [|split; [|apply sca_distinct, Hd]].
    + intros k n Hin.
      destruct (sca_count (round1 f) sc Hd k n Hin) as [[H1 H2]|[[m [H1 [H2 H3]]]|[H1 [H2 H3]]]].
      * destruct (Hc k n H1) as [Hn [b0 [f0 [Hb0 [Hf0 Hk0]]]]].
        split; [rewrite rounded_count_snoc, Ef|].
        -- destruct (Qeq_bool (round1 f) k) eqn:E; [apply Qeq_bool_iff in E; contradiction|].
           lia.
        -- exists b0, f0. split; [apply in_or_app; left; exact Hb0|split; assumption].
      * destruct (Hc k m H1) as [Hn [b0 [f0 [Hb0 [Hf0 Hk0]]]]].
        split; [rewrite rounded_count_snoc, Ef|].
        -- apply Qeq_bool_iff in H3. rewrite H3. lia.
        -- exists b0, f0. split; [apply in_or_app; left; exact Hb0|split; assumption].
      * subst k n. split.
        -- rewrite rounded_count_snoc, Ef, Qeq_bool_refl.
           assert (H0 : rounded_count seen (round1 f) = 0%nat).
           { unfold rounded_count. apply length_zero_iff_nil.
             apply filter_none. intros b0 Hb0.
             destruct (b_font_size b0) as [f0|] eqn:Ef0; [|reflexivity].
             destruct (Qeq_bool (round1 f0) (round1 f)) eqn:E; [|reflexivity].
             exfalso. destruct (Hcov b0 f0 Hb0 Ef0) as [k0 [n0 [Hk0 Hq0]]].
             apply (H3 _ Hk0). cbn [fst]. apply Qeq_bool_iff in E.
             rewrite <- Hq0, E. reflexivity. }
           rewrite H0. reflexivity.
        -- exists b, f. split; [apply in_or_app; right; left; reflexivity|split; [exact Ef|reflexivity]].
    + intros b0 f0 Hb0 Hf0. apply in_app_or in Hb0 as [Hb0|[<-|[]]].
      * destruct (Hcov b0 f0 Hb0 Hf0) as [k [n [Hk Hq]]].
        destruct (sca_keys (round1 f) sc k n Hk) as [n' Hn']. exists k, n'. split; assumption.
      * rewrite Ef in Hf0. injection Hf0 as <-. apply sca_new.
  - split; [|split; [|exact Hd]].
    + intros k n Hin. destruct (Hc k n Hin) as [Hn [b0 [f0 [Hb0 Hf0]]]].
      split; [rewrite rounded_count_snoc, Ef; lia|].
      exists b0, f0. split; [apply in_or_app; left; exact Hb0|exact Hf0].
    + intros b0 f0 Hb0 Hf0. apply in_app_or in Hb0 as [Hb0|[<-|[]]].
      * apply (Hcov b0 f0 Hb0 Hf0).
      * congruence.
Qed.

Lemma counts_inv_fold l sc seen :
  counts_inv sc seen ->
  counts_inv (fold_left (fun sc b => match b_font_size b with
                                     | Some f => size_count_add (round1 f) sc
                                     | None => sc
                                     end) l sc) (seen ++ l).
Proof.
  revert sc seen; induction l as [|b l IH]; intros sc seen H; cbn [fold_left].
  - rewrite app_nil_r; exact H.
  - replace (seen ++ b :: l) with ((seen ++ [b]) ++ l) by (rewrite <- app_assoc; reflexivity).
    apply IH, counts_inv_step, H.
Qed.

Lemma size_counts_inv bs : counts_inv (size_counts round1 bs) (filter is_text_block bs).
Proof.
  unfold size_counts. apply (counts_inv_fold _ [] []).
  split; [intros k n []|split; [intros b f []|exact I]].
Qed.

End BodySize.

Lemma infer_body_font_size_max sc s :
  infer_body_font_size sc = Some s ->
  exists n, In (s, n) sc /\ forall k m, In (k, m) sc -> (m <= n)%nat.
Proof.
  destruct sc as [|kn sc]; [discriminate|]. cbn [infer_body_font_size].
  set (G := fun best kn' : Q * nat => if (snd best <? snd kn')%nat then kn' else best).
  assert (Hf : forall l best, let r := fold_left G l best in
            (r = best \/ In r l) /\ (snd best <= snd r)%nat /\
            forall x, In x l -> (snd x <= snd r)%nat).
  { induction l as [|y l IH]; intros best; cbn [fold_left].
    - split; [left; reflexivity|split; [lia|intros x []]].
    - destruct (IH (G best y)) as [H1 [H2 H3]].
      assert (Hg : (snd best <= snd (G best y))%nat /\ (snd y <= snd (G best y))%nat /\
                   (G best y = best \/ G best y = y)).
      { unfold G. destruct (snd best <? snd y)%nat eqn:E.
        - apply Nat.ltb_lt in E. split; [lia|split; [lia|right; reflexivity]].
        - apply Nat.ltb_ge in E. split; [lia|split; [lia|left; reflexivity]]. }
      destruct Hg as [Hg1 [Hg2 Hg3]].
      split; [|split; [lia|]].
      + destruct H1 as [H1|H1].
        * destruct Hg3 as [Hg3|Hg3]; [left; congruence|right; left; congruence].
        * right; right; exact H1.
      + intros x [<-|Hx]; [lia|apply H3, Hx]. }
  intros Hs. injection Hs as Hs.
  destruct (Hf sc kn) as [H1 [H2 H3]].
  destruct (fold_left G sc kn) as [s' n] eqn:Er. cbn [fst snd] in *. subst s'.
  exists n. split.
  - destruct H1 as [H1|H1]; [left; symmetry; exact H1|right; exact H1].
  - intros k m [Hk|Hk]; [subst kn; exact H2|exact (H3 (k, m) Hk)].
Qed.

Lemma rounded_count_text round1 bs x :
  rounded_count round1 (filter is_text_block bs) x =
  length (filter (fun b => is_text_block b && match b_font_size b with
                                              | Some f => Qeq_bool (round1 f) x
                                              | None => false
                                              end) bs).
Proof.
  unfold rounded_count. induction bs as [|b bs IH]; [reflexivity|].
  cbn [filter]. destruct (is_text_block b); cbn [filter andb].
  - destruct (b_font_size b); [destruct (Qeq_bool _ _)|]; cbn [length]; rewrite ?IH; reflexivity.
  - exact IH.
Qed.

Lemma rounded_count_compat round1 seen x y : x == y -> rounded_count round1 seen x = rounded_count round1 seen y.
Proof.
  intros Hxy. unfold rounded_count. f_equal. apply filter_ext. intros b.
  destruct (b_font_size b) as [f|]; [|reflexivity].
  destruct (Qeq_bool (round1 f) x) eqn:E1, (Qeq_bool (round1 f) y) eqn:E2; try reflexivity.
  - apply Qeq_bool_iff in E1. rewrite Hxy in E1. apply Qeq_bool_iff in E1. congruence.
  - apply Qeq_bool_iff in E2. rewrite <- Hxy in E2. apply Qeq_bool_iff in E2. congruence.
Qed.

(** The number of text blocks whose font size rounds to [x]. *)
Definition font_size_count (round1 : Q -> Q) (bs : list Block) (x : Q) : nat :=
  length (filter (fun b => is_text_block b && match b_font_size b with
                                              | Some f => Qeq_bool (round1 f) x
                                              | None => false
                                              end) bs).

(** The body font size inferred by [segment_document] is the rounded
    size of some text block and is a most frequent one: no rounded size
    of a text block occurs more often.  It is [None] exactly when no
    text block has a font size. *)
Theorem segment_document_body_size_most_frequent (round1 : Q -> Q) (bs : list Block) :
  match infer_body_font_size (size_counts round1 bs) with
  | None => forall b, In b bs -> is_text_block b = true -> b_font_size b = None
  | Some s =>
      (exists b f, In b bs /\ is_text_block b = true /\ b_font_size b = Some f /\ round1 f = s) /\
      (forall b f, In b bs -> is_text_block b = true -> b_font_size b = Some f ->
         (font_size_count round1 bs (round1 f) <= font_size_count round1 bs s)%nat)
  end.
Proof.
  destruct (size_counts_inv round1 bs) as [Hc [Hcov _]].
  destruct (infer_body_font_size (size_counts round1 bs)) as [s|] eqn:E.
  - destruct (infer_body_font_size_max _ _ E) as [n [Hsn Hmax]].
    destruct (Hc s n Hsn) as [Hn [b [f [Hb [Hf Hr]]]]].
    apply filter_In in Hb as [Hb Ht].
    split; [exists b, f; split; [exact Hb|split; [exact Ht|split; assumption]]|].
    intros b0 f0 Hb0 Ht0 Hf0.
    destruct (Hcov b0 f0 (proj2 (filter_In _ _ _) (conj Hb0 Ht0)) Hf0) as [k [m [Hkm Hq]]].
    destruct (Hc k m Hkm) as [Hm _].
    unfold font_size_count. rewrite <- !rounded_count_text.
    rewrite (rounded_count_compat round1 _ _ _ Hq), <- Hm, <- Hn. exact (Hmax k m Hkm).
  - intros b Hb Ht. destruct (b_font_size b) as [f|] eqn:Hf; [|reflexivity].
    destruct (Hcov b f (proj2 (filter_In _ _ _) (conj Hb Ht)) Hf) as [k [m [Hkm _]]].
    destruct (size_counts round1 bs) as [|kn sc]; [destruct Hkm|discriminate].
Qed.

(** [segment_document] emits its segments in block order: the pages of
    the segments are a subsequence of the pages of the blocks, so there
    are never more segments than blocks. *)
Theorem segment_document_pages_in_order round1 f1 f2 f3 f4 (bs : list Block) :
  sublist (map seg_page (segment_document_levels round1 f1 f2 f3 f4 bs)) (map b_page bs) /\
  (length (segment_document_levels round1 f1 f2 f3 f4 bs) <= length bs)%nat.
Proof.
  assert (H : sublist (map seg_page (segment_document_levels round1 f1 f2 f3 f4 bs))
                (map b_page bs)).
  { unfold segment_document_levels. destruct bs as [|b bs]; [constructor|].
    apply segment_loop_pages. lia. }
  split; [exact H|]. apply sublist_length in H. rewrite !length_map in H. exact H.
Qed.

(** Every segment has a level between 1 and 4. *)
Theorem segment_document_levels_1_to_4 round1 f1 f2 f3 f4 (bs : list Block) :
  Forall (fun s => (1 <= seg_level s <= 4)%nat) (segment_document_levels round1 f1 f2 f3 f4 bs).
Proof.
  unfold segment_document_levels. destruct bs as [|b bs]; [constructor|].
  apply segment_loop_levels.
Qed.

(** Table and figure blocks are never absorbed into a heading's body:
    the table segments are exactly one segment per table block with a
    valid caption, in block order, and likewise for figures; the other
    table and figure blocks are dropped. *)
Theorem segment_document_tables_and_figures round1 f1 f2 f3 f4 (bs : list Block) :
  filter seg_is_table (segment_document_levels round1 f1 f2 f3 f4 bs) =
    map table_segment (filter (fun b => block_is_table b && has_valid_table_caption b) bs) /\
  filter seg_is_figure (segment_document_levels round1 f1 f2 f3 f4 bs) =
    map figure_segment (filter (fun b => block_is_figure b && has_valid_figure_caption b) bs).
Proof.
  unfold segment_document_levels. destruct bs as [|b bs]; [split; reflexivity|].
  apply segment_loop_tables_figures. lia.
Qed.

(** A text segment either has no heading and level 1, or has a
    non-empty, stripped heading and non-empty content. *)
Theorem segment_document_text_segments round1 f1 f2 f3 f4 (bs : list Block) :
  Forall (fun s => seg_section_type s = TEXT ->
                   (seg_heading s = [] /\ seg_level s = 1%nat) \/
                   (seg_heading s <> [] /\ strip (seg_heading s) = seg_heading s /\
                    seg_content s <> []))
    (segment_document_levels round1 f1 f2 f3 f4 bs).
Proof.
  unfold segment_document_levels. destruct bs as [|b bs]; [constructor|].
  apply segment_loop_text_shape.
Qed.

(** No text is lost: the stripped content of every non-blank text block
    is the heading of some segment or one of the "\n\n"-separated parts
    of the content of some segment. *)
Theorem segment_document_keeps_text round1 f1 f2 f3 f4 (bs : list Block) (b : Block)
    (Hin : In b bs) (Ht : b_type b = B_TEXT) (Hne : strip (b_content b) <> []) :
  exists s, In s (segment_document_levels round1 f1 f2 f3 f4 bs) /\
    (seg_heading s = strip (b_content b) \/
     exists pre post, seg_content s = join two_nl (pre ++ strip (b_content b) :: post)).
Proof.
  unfold segment_document_levels. destruct bs as [|b0 bs]; [destruct Hin|].
  apply segment_loop_keeps_text; [lia|exact Hin|exact Ht|exact Hne].
Qed.

(** [_min_confidence] is the meet of the order LOW < MEDIUM < HIGH:
    commutative, associative and idempotent, with HIGH neutral and LOW
    absorbing, so the confidence of a heading segment does not depend on
    the order in which its body blocks are folded in. *)
Theorem min_confidence_meet (a b c : ExtractionConfidence) :
  min_confidence a b = min_confidence b a /\
  min_confidence a (min_confidence b c) = min_confidence (min_confidence a b) c /\
  min_confidence a a = a /\ min_confidence HIGH a = a /\ min_confidence LOW a = LOW.
Proof. destruct a, b, c; repeat split. Qed.

(* ------------------------------------------------------------------ *)
(** ** Layout extraction: reading order and the pypdf path *)

Lemma Qltb_iff a b : Qltb a b = true <-> (a < b)%Q.
Proof.
  unfold Qltb. rewrite negb_true_iff. split.
  - intros H. apply Qnot_le_lt. intros Hle. apply Qle_bool_iff in Hle. congruence.
  - intros H. destruct (Qle_bool b a) eqn:E; [|reflexivity].
    apply Qle_bool_iff in E. exfalso. exact (Qlt_not_le a b H E).
Qed.

Lemma key_lt_asym k1 k2 : key_lt k1 k2 = true -> key_lt k2 k1 = false.
Proof.
  destruct k1 as [[p1 t1] l1], k2 as [[p2 t2] l2]. unfold key_lt.
  intros H. apply orb_true_iff in H. apply not_true_iff_false. intros H'.
  apply orb_true_iff in H'.
  rewrite ?andb_true_iff, ?orb_true_iff, ?andb_true_iff, ?Z.ltb_lt, ?Z.eqb_eq,
    ?Qltb_iff, ?Qeq_bool_iff in H, H'.
  destruct H as [H|[Hp [Ht|[Ht Hl]]]], H' as [H'|[Hp' [Ht'|[Ht' Hl']]]];
    try lia; rewrite ?Qeq_bool_iff, ?Qltb_iff in *; lra.
Qed.

(** Blocks in reading order: no block is followed by one that comes
    strictly earlier in the (page, top, left) order. *)
Definition reading_le (a b : Block) : Prop := key_lt (reading_key b) (reading_key a) = false.

Lemma insert_sorted_perm x l : Permutation (insert_sorted x l) (x :: l).
Proof.
  induction l as [|y l IH]; cbn [insert_sorted]; [reflexivity|].
  destruct (key_lt (reading_key x) (reading_key y)); [reflexivity|].
  rewrite IH. apply perm_swap.
Qed.

Lemma insert_sorted_hd a x l :
  reading_le a x -> HdRel reading_le a l -> HdRel reading_le a (insert_sorted x l).
Proof.
  intros Hax Hl. destruct l as [|y l]; cbn [insert_sorted]; [constructor; exact Hax|].
  destruct (key_lt (reading_key x) (reading_key y)); constructor; [exact Hax|].
  inversion Hl; assumption.
Qed.

Lemma insert_sorted_sorted x l : Sorted reading_le l -> Sorted reading_le (insert_sorted x l).
Proof.
  induction l as [|y l IH]; intros Hs; cbn [insert_sorted]; [repeat constructor|].
  destruct (key_lt (reading_key x) (reading_key y)) eqn:E.
  - constructor; [exact Hs|]. constructor. unfold reading_le. apply key_lt_asym, E.
  - apply Sorted_inv in Hs as [Hs Hh]. constructor; [apply IH, Hs|].
    apply insert_sorted_hd; [exact E|exact Hh].
Qed.

Lemma sort_blocks_fold bs :
  sort_blocks_by_reading_order bs = fold_left (fun acc b => insert_sorted b acc) bs [].
Proof. unfold sort_blocks_by_reading_order. rewrite <- fold_left_rev_right. reflexivity. Qed.

(** Same position in the reading order. *)
Definition same_position (k1 k2 : Z * Q * Q) : Prop :=
  let '(p1, t1, l1) := k1 in let '(p2, t2, l2) := k2 in p1 = p2 /\ t1 == t2 /\ l1 == l2.

Definition same_position_b (k1 k2 : Z * Q * Q) : bool :=
  let '(p1, t1, l1) := k1 in let '(p2, t2, l2) := k2 in
  (p1 =? p2)%Z && Qeq_bool t1 t2 && Qeq_bool l1 l2.

Lemma same_position_b_iff k1 k2 : same_position_b k1 k2 = true <-> same_position k1 k2.
Proof.
  destruct k1 as [[p1 t1] l1], k2 as [[p2 t2] l2]; cbn.
  rewrite !andb_true_iff, Z.eqb_eq, !Qeq_bool_iff. tauto.
Qed.

(** The lexicographic order on reading keys, as propositions. *)
Definition lexlt (k1 k2 : Z * Q * Q) : Prop :=
  let '(p1, t1, l1) := k1 in let '(p2, t2, l2) := k2 in
  (p1 < p2)%Z \/ (p1 = p2 /\ ((t1 < t2)%Q \/ (t1 == t2 /\ (l1 < l2)%Q))).

Definition lexle (k1 k2 : Z * Q * Q) : Prop :=
  let '(p1, t1, l1) := k1 in let '(p2, t2, l2) := k2 in
  (p1 < p2)%Z \/ (p1 = p2 /\ ((t1 < t2)%Q \/ (t1 == t2 /\ (l1 <= l2)%Q))).

Lemma key_lt_true k1 k2 : key_lt k1 k2 = true <-> lexlt k1 k2.
Proof.
  destruct k1 as [[p1 t1] l1], k2 as [[p2 t2] l2]; cbn.
  rewrite orb_true_iff, andb_true_iff, orb_true_iff, andb_true_iff, Z.ltb_lt, Z.eqb_eq,
    !Qltb_iff, Qeq_bool_iff. tauto.
Qed.

Lemma key_lt_false k1 k2 : key_lt k1 k2 = false <-> lexle k2 k1.
Proof.
  split.
  - intros H. destruct k1 as [[p1 t1] l1], k2 as [[p2 t2] l2]; cbn.
    assert (Hn : ~ lexlt (p1, t1, l1) (p2, t2, l2)).
    { rewrite <- key_lt_true. congruence. }
    cbn in Hn.
    destruct (Z.lt_trichotomy p2 p1) as [Hp|[Hp|Hp]]; [left; exact Hp| |exfalso; tauto].
    subst p2. right. split; [reflexivity|].
    destruct (Q_dec t2 t1) as [[Ht|Ht]|Ht]; [left; exact Ht|exfalso; tauto|].
    right. split; [exact Ht|]. apply Qnot_lt_le. intros Hl. apply Hn. right.
    split; [reflexivity|right; split; [symmetry; exact Ht|exact Hl]].
  - intros H. apply not_true_iff_false. rewrite key_lt_true.
    destruct k1 as [[p1 t1] l1], k2 as [[p2 t2] l2]; cbn in *.
    destruct H as [H|[-> [H|[H1 H2]]]]; intros [H'|[Hp [H'|[H1' H2']]]]; try lia; lra.
Qed.

Lemma lexlt_le_trans a b c : lexlt a b -> lexle b c -> lexlt a c.
Proof.
  destruct a as [[pa ta] la], b as [[pb tb] lb], c as [[pc tc] lc]; cbn.
  intros [H|[-> [H|[H1 H2]]]] [H'|[-> [H'|[H1' H2']]]];
    first [left; lia | right; split; [reflexivity|]; first [left; lra | right; split; lra]].
Qed.

Lemma lexle_trans a b c : lexle a b -> lexle b c -> lexle a c.
Proof.
  destruct a as [[pa ta] la], b as [[pb tb] lb], c as [[pc tc] lc]; cbn.
  intros [H|[-> [H|[H1 H2]]]] [H'|[-> [H'|[H1' H2']]]];
    first [left; lia | right; split; [reflexivity|]; first [left; lra | right; split; lra]].
Qed.

Lemma reading_le_iff a b : reading_le a b <-> lexle (reading_key a) (reading_key b).
Proof. unfold reading_le. apply key_lt_false. Qed.

Lemma reading_le_trans a b c : reading_le a b -> reading_le b c -> reading_le a c.
Proof. rewrite !reading_le_iff. apply lexle_trans. Qed.

Lemma same_position_not_lexlt k1 k2 k :
  same_position k1 k -> same_position k2 k -> ~ lexlt k1 k2.
Proof.
  destruct k1 as [[p1 t1] l1], k2 as [[p2 t2] l2], k as [[p t] l]; cbn.
  intros [-> [Ht1 Hl1]] [-> [Ht2 Hl2]] [H|[_ [H|[H1 H2]]]]; [lia|lra|lra].
Qed.

Lemma insert_sorted_filter k x l :
  StronglySorted reading_le l ->
  filter (fun b => same_position_b (reading_key b) k) (insert_sorted x l) =
  filter (fun b => same_position_b (reading_key b) k) (l ++ [x]).
Proof.
  induction l as [|y l IH]; intros Hs; cbn [insert_sorted app]; [reflexivity|].
  apply StronglySorted_inv in Hs as [Hs Hall].
  destruct (key_lt (reading_key x) (reading_key y)) eqn:E.
  - cbn [filter]. rewrite filter_app. cbn [filter].
    destruct (same_position_b (reading_key x) k) eqn:Ex.
    + apply key_lt_true in E.
      assert (Hnone : forall z, In z (y :: l) -> same_position_b (reading_key z) k = false).
      { intros z Hz. destruct (same_position_b (reading_key z) k) eqn:Ez; [|reflexivity].
        exfalso. apply same_position_b_iff in Ex, Ez.
        apply (same_position_not_lexlt _ _ _ Ex Ez).
        destruct Hz as [<-|Hz]; [exact E|].
        apply (lexlt_le_trans _ (reading_key y)); [exact E|].
        apply reading_le_iff. rewrite Forall_forall in Hall. apply Hall, Hz. }
      rewrite (Hnone y (or_introl eq_refl)).
      rewrite (filter_none _ l) by (intros z Hz; apply Hnone; right; exact Hz).
      reflexivity.
    + rewrite app_nil_r. reflexivity.
  - cbn [filter]. rewrite IH by exact Hs.
    destruct (same_position_b (reading_key y) k); reflexivity.
Qed.

Lemma sort_fold_inv l acc seen :
  Permutation acc seen -> Sorted reading_le acc ->
  (forall k, filter (fun b => same_position_b (reading_key b) k) acc =
             filter (fun b => same_position_b (reading_key b) k) seen) ->
  let r := fold_left (fun acc b => insert_sorted b acc) l acc in
  Permutation r (seen ++ l) /\ Sorted reading_le r /\
  (forall k, filter (fun b => same_position_b (reading_key b) k) r =
             filter (fun b => same_position_b (reading_key b) k) (seen ++ l)).
Proof.
  revert acc seen; induction l as [|x l IH]; intros acc seen Hp Hs Hf; cbn [fold_left].
  - rewrite app_nil_r. split; [exact Hp|split; [exact Hs|exact Hf]].
  - replace (seen ++ x :: l) with ((seen ++ [x]) ++ l) by (rewrite <- app_assoc; reflexivity).
    apply IH.
    + rewrite insert_sorted_perm, Hp. apply Permutation_cons_append.
    + apply insert_sorted_sorted, Hs.
    + intros k. rewrite insert_sorted_filter.
      * rewrite !filter_app, Hf. reflexivity.
      * apply Sorted_StronglySorted; [intros a b c; apply reading_le_trans|exact Hs].
Qed.

Lemma sort_blocks_sorted (bs : list Block) : Sorted reading_le (sort_blocks_by_reading_order bs).
Proof.
  rewrite sort_blocks_fold.
  exact (proj1 (proj2 (sort_fold_inv bs [] [] (perm_nil _) (Sorted_nil _) (fun k => eq_refl)))).
Qed.

(** [_sort_blocks_by_reading_order] is a stable sort by (page, top,
    left): it returns a permutation of its input, in reading order, and
    blocks at the same position keep their input order. *)
Theorem sort_blocks_by_reading_order_stable (bs : list Block) :
  Permutation (sort_blocks_by_reading_order bs) bs /\
  Sorted reading_le (sort_blocks_by_reading_order bs) /\
  forall k, filter (fun b => same_position_b (reading_key b) k) (sort_blocks_by_reading_order bs) =
            filter (fun b => same_position_b (reading_key b) k) bs.
Proof.
  rewrite sort_blocks_fold. apply (sort_fold_inv bs [] []); [constructor|constructor|reflexivity].
Qed.

(** The blocks of the pypdf path, page by page. *)
Lemma numbered_text_blocks_spec p texts :
  Forall (fun b => b_type b = B_TEXT /\ b_bbox b = None /\ b_caption b = None /\
                   b_font_size b = None /\ b_is_bold b = false /\
                   b_content b <> [] /\ strip (b_content b) = b_content b /\
                   (p <= b_page b < p + Z.of_nat (length texts))%Z)
    (numbered_text_blocks p texts) /\
  Sorted (fun a b => (b_page a < b_page b)%Z) (numbered_text_blocks p texts) /\
  (length (numbered_text_blocks p texts) <= length texts)%nat.
Proof.
  revert p; induction texts as [|t texts IH]; intros p; cbn [numbered_text_blocks length].
  - split; [constructor|split; [constructor|lia]].
  - destruct (IH (p + 1)%Z) as [Hf [Hs Hl]].
    assert (Hf' : Forall (fun b => b_type b = B_TEXT /\ b_bbox b = None /\ b_caption b = None /\
                   b_font_size b = None /\ b_is_bold b = false /\
                   b_content b <> [] /\ strip (b_content b) = b_content b /\
                   (p <= b_page b < p + Z.of_nat (S (length texts)))%Z)
                (numbered_text_blocks (p + 1) texts)).
    { eapply Forall_impl; [|exact Hf]. cbn beta.
      intros b (H1 & H2 & H3 & H4 & H5 & H6 & H7 & H8). repeat (split; [assumption|]). lia. }
    destruct (nonempty (strip t)) eqn:E; cbn [app length].
    + split; [constructor; [|exact Hf']|split; [constructor; [exact Hs|]|lia]].
      * cbn. split; [reflexivity|split; [reflexivity|split; [reflexivity|split; [reflexivity|]]]].
        split; [reflexivity|split; [apply nonempty_neq, E|split; [apply strip_strip|lia]]].
      * destruct (numbered_text_blocks (p + 1) texts) as [|b l] eqn:En; constructor.
        inversion Hf as [|b' l' Hb _]; subst. cbn. lia.
    + split; [exact Hf'|split; [exact Hs|lia]].
Qed.

Lemma pypdf_stream_blocks_spec avail pages (content0 : bytes) :
  let out := extract_layout_pypdf_stream avail pages content0 in
  let n := match pages content0 with inr texts => length texts | inl _ => 0%nat end in
  Forall (fun b => b_type b = B_TEXT /\ b_bbox b = None /\ b_caption b = None /\
                   b_font_size b = None /\ b_is_bold b = false /\
                   b_content b <> [] /\ strip (b_content b) = b_content b /\
                   (1 <= b_page b <= Z.of_nat n)%Z) out /\
  Sorted (fun a b => (b_page a < b_page b)%Z) out /\ (length out <= n)%nat.
Proof.
  cbv zeta. unfold extract_layout_pypdf_stream.
  destruct avail; cbn [negb]; cbv iota; [|split; [constructor|split; [constructor|cbn; lia]]].
  destruct (pages content0) as [e|texts]; [split; [constructor|split; [constructor|cbn; lia]]|].
  destruct (numbered_text_blocks_spec 1 texts) as [Hf [Hs Hl]].
  split; [|split; [exact Hs|exact Hl]].
  eapply Forall_impl; [|exact Hf]. cbn beta.
  intros b (H1 & H2 & H3 & H4 & H5 & H6 & H7 & H8). repeat (split; [assumption|]). lia.
Qed.

(** The pypdf path yields only non-empty, stripped text blocks without
    bounding box, caption, font size or boldness, one per page at most,
    on pages numbered from 1 upwards in strictly increasing order. *)
Theorem extract_layout_pypdf_stream_blocks avail pages (content0 : bytes) :
  let out := extract_layout_pypdf_stream avail pages content0 in
  let n := match pages content0 with inr texts => length texts | inl _ => 0%nat end in
  Forall (fun b => b_type b = B_TEXT /\ b_bbox b = None /\ b_caption b = None /\
                   b_font_size b = None /\ b_is_bold b = false /\
                   b_content b <> [] /\ strip (b_content b) = b_content b /\
                   (1 <= b_page b <= Z.of_nat n)%Z) out /\
  Sorted (fun a b => (b_page a < b_page b)%Z) out /\ (length out <= n)%nat.
Proof. apply pypdf_stream_blocks_spec. Qed.

Lemma pages_sorted_reading bs :
  Forall (fun b => b_bbox b = None) bs -> Sorted (fun a b => (b_page a < b_page b)%Z) bs ->
  Sorted reading_le bs.
Proof.
  intros Hf Hs. induction Hs as [|a l Hs IH Hh]; constructor.
  - apply IH. inversion Hf; assumption.
  - destruct Hh as [|b l Hab]; constructor.
    inversion Hf as [|a' l' Ha Hf']; subst. inversion Hf' as [|b' l'' Hb _]; subst.
    apply reading_le_iff. unfold reading_key. rewrite Ha, Hb. cbn. left. exact Hab.
Qed.

(** Whichever path produces them, the blocks returned by
    [extract_layout_from_bytes] are in reading order. *)
Theorem extract_layout_from_bytes_reading_order avail pages plumber (content0 : bytes) use_pypdf :
  Sorted reading_le (extract_layout_from_bytes avail pages plumber content0 use_pypdf).
Proof.
  unfold extract_layout_from_bytes.
  destruct (_ || _); [constructor|].
  assert (Hpl : Sorted reading_le (extract_layout_pdfplumber_stream plumber content0)).
  { unfold extract_layout_pdfplumber_stream. destruct (plumber content0); [constructor|].
    apply sort_blocks_sorted. }
  destruct (use_pypdf && avail); [|exact Hpl].
  destruct (pypdf_stream_blocks_spec avail pages content0) as [Hf [Hs _]].
  destruct (extract_layout_pypdf_stream avail pages content0) as [|b l] eqn:E; [exact Hpl|].
  apply pages_sorted_reading; [|exact Hs].
  eapply Forall_impl; [|exact Hf]. cbn beta. tauto.
Qed.

(* ------------------------------------------------------------------ *)
(** ** Table serialization and the keyword extractor's header cells *)

(** The rows of a table that are not [None]. *)
Definition present_rows (rows : list (option (list (option str)))) : list (list (option str)) :=
  flat_map (fun r => match r with Some row => [row] | None => [] end) rows.

Lemma table_lines_eq rows :
  table_lines rows = map (fun row => join (s_ " | ") (map cell_text row)) (present_rows rows).
Proof.
  induction rows as [|[row|] rows IH]; cbn [table_lines present_rows flat_map app map];
    [reflexivity| |exact IH].
  rewrite IH. reflexivity.
Qed.

Lemma split_on_nosep (p : ascii -> bool) x s cur :
  forallb (fun d => negb (p d)) x = true -> split_on p (x ++ s) cur = split_on p s (rev x ++ cur).
Proof.
  revert cur; induction x as [|d x IH]; intros cur Hx; [reflexivity|].
  cbn [forallb] in Hx. apply andb_true_iff in Hx as [Hd Hx]. apply negb_true_iff in Hd.
  cbn [app split_on]. rewrite Hd, IH by exact Hx. cbn [rev]. rewrite <- app_assoc. reflexivity.
Qed.

Lemma split_on_join (p : ascii -> bool) c ys :
  p c = true -> ys <> [] -> Forall (fun y => forallb (fun d => negb (p d)) y = true) ys ->
  split_on p (join [c] ys) [] = ys.
Proof.
  intros Hc. induction ys as [|y ys IH]; intros Hne Hf; [congruence|].
  inversion Hf as [|y' ys' Hy Hf']; subst.
  destruct ys as [|y2 ys].
  - cbn [join]. rewrite <- (app_nil_r y) at 1. rewrite split_on_nosep by exact Hy.
    cbn [split_on]. rewrite app_nil_r, rev_involutive. reflexivity.
  - change (join [c] (y :: y2 :: ys)) with (y ++ [c] ++ join [c] (y2 :: ys)).
    rewrite split_on_nosep by exact Hy. cbn [app split_on]. rewrite Hc, app_nil_r, rev_involutive.
    rewrite IH by (discriminate || exact Hf'). reflexivity.
Qed.

Lemma strip_pad a x b :
  forallb is_space a = true -> forallb is_space b = true -> strip (a ++ x ++ b) = strip x.
Proof.
  intros Ha Hb. unfold strip. rewrite lstrip_app, Ha, lstrip_app.
  destruct (forallb is_space x) eqn:Hx.
  - rewrite (lstrip_spaces b Hb), (lstrip_spaces x Hx). reflexivity.
  - rewrite rstrip_app, Hb. reflexivity.
Qed.

Lemma header_cells_join xs cur :
  xs <> [] -> Forall (fun x => forallb (fun d => negb (is_pipe d)) x = true) xs ->
  forallb is_space cur = true ->
  map strip (split_on is_pipe (join (s_ " | ") xs) cur) = map strip xs.
Proof.
  revert cur. induction xs as [|x xs IH]; intros cur Hne Hf Hcur; [congruence|].
  inversion Hf as [|x' xs' Hx Hf']; subst.
  destruct xs as [|x2 xs].
  - cbn [join]. rewrite <- (app_nil_r x) at 1. rewrite split_on_nosep by exact Hx.
    cbn [split_on map]. f_equal. rewrite rev_app_distr, rev_involutive.
    rewrite <- (app_nil_r (rev cur ++ x)), <- app_assoc.
    apply strip_pad; [rewrite forallb_rev_str; exact Hcur|reflexivity].
  - change (join (s_ " | ") (x :: x2 :: xs))
      with (x ++ [" "%char; "|"%char; " "%char] ++ join (s_ " | ") (x2 :: xs)).
    rewrite split_on_nosep by exact Hx.
    assert (E1 : is_pipe " "%char = false) by reflexivity.
    assert (E2 : is_pipe "|"%char = true) by reflexivity.
    cbn [app split_on]. rewrite ?E1, ?E2. cbn iota.
    cbn [map]. rewrite IH by (discriminate || exact Hf' || reflexivity).
    f_equal. cbn [rev]. rewrite rev_app_distr, rev_involutive, <- app_assoc.
    apply strip_pad; [rewrite forallb_rev_str; exact Hcur|reflexivity].
Qed.

(** Splitting a table serialized by [_serialize_table] at its newlines
    and each line into header cells as the keyword extractor does gives
    back the stripped cells of every row ([None] cells as empty
    strings), provided no cell holds a "|" or a newline, every row has a
    cell and some row is present. *)
Theorem serialize_table_header_cells (rows : list (option (list (option str))))
    (Hcells : forall row s, In (Some row) rows -> In (Some s) row ->
                forallb (fun d => negb (is_pipe d) && negb (is_newline d)) s = true)
    (Hrows : forall row, In (Some row) rows -> row <> [])
    (Hsome : exists row, In (Some row) rows) :
  map header_cells (split_on is_newline (serialize_table rows) []) =
  map (map cell_text) (present_rows rows).
Proof.
  assert (Hpres : forall row, In row (present_rows rows) <-> In (Some row) rows).
  { intros row. unfold present_rows. rewrite in_flat_map. split.
    - intros [[r|] [Hr Hin]]; [destruct Hin as [<-|[]]; exact Hr|destruct Hin].
    - intros H. exists (Some row). split; [exact H|left; reflexivity]. }
  assert (Hcell : forall row c, In (Some row) rows -> In c row ->
            forallb (fun d => negb (is_pipe d) && negb (is_newline d)) (cell_text c) = true).
  { intros row [s|] Hr Hc; [apply forallb_strip, (Hcells row s Hr Hc)|reflexivity]. }
  unfold serialize_table. rewrite table_lines_eq. rewrite (split_on_join is_newline "010"%char).
  - rewrite map_map. apply map_ext_in. intros row Hr. apply Hpres in Hr.
    unfold header_cells. rewrite header_cells_join.
    + rewrite map_map. apply map_ext_in. intros [s|] _; [apply strip_strip|reflexivity].
    + destruct row; [exfalso; exact (Hrows [] Hr eq_refl)|discriminate].
    + apply Forall_forall. intros x Hx. apply in_map_iff in Hx as [c [<- Hc]].
      apply forallb_forall. intros d Hd.
      pose proof (proj1 (forallb_forall _ _) (Hcell row c Hr Hc) d Hd) as H.
      apply andb_true_iff in H as [H _]. exact H.
    + reflexivity.
  - reflexivity.
  - destruct Hsome as [row Hr]. apply Hpres in Hr.
    destruct (present_rows rows); [destruct Hr|discriminate].
  - apply Forall_forall. intros l Hl. apply in_map_iff in Hl as [row [<- Hr]].
    apply Hpres in Hr.
    assert (Hj : forall xs, Forall (fun x => forallb (fun d => negb (is_newline d)) x = true) xs ->
                 forallb (fun d => negb (is_newline d)) (join (s_ " | ") xs) = true).
    { induction xs as [|x xs IH]; intros Hf; [reflexivity|].
      inversion Hf as [|x' xs' Hx Hf']; subst. destruct xs as [|x2 xs]; [exact Hx|].
      change (join (s_ " | ") (x :: x2 :: xs))
        with (x ++ [" "%char; "|"%char; " "%char] ++ join (s_ " | ") (x2 :: xs)).
      rewrite !forallb_app, Hx, IH by exact Hf'. reflexivity. }
    apply Hj. apply Forall_forall. intros x Hx. apply in_map_iff in Hx as [c [<- Hc]].
    apply forallb_forall. intros d Hd.
    pose proof (proj1 (forallb_forall _ _) (Hcell row c Hr Hc) d Hd) as H.
    apply andb_true_iff in H as [_ H]. exact H.
Qed.

(* ------------------------------------------------------------------ *)
(** ** Text blocks from the lines of a page *)

(** The line lies inside the box. *)
Definition line_within (l : Line) (box : bbox) : Prop :=
  let '(a, b, c, d) := box in
  (a <= l_x0 l)%Q /\ (b <= l_top l)%Q /\ (l_x1 l <= c)%Q /\ (l_bottom l <= d)%Q.

(** A block made by [_lines_to_text_blocks] from the lines [l0 :: ls]
    of [lines]: none of them overlaps a table, the block is a text block
    of the page whose content is their stripped newline-joined text,
    whose font size and boldness are those of its first line, and whose
    bounding box contains all of them. *)
Definition built_from (page_num : Z) (tbs : list bbox) (lines : list Line) (b : Block) : Prop :=
  exists l0 ls,
    (forall l, In l (l0 :: ls) -> In l lines /\ in_any_bbox (line_box l) tbs = false) /\
    b_type b = B_TEXT /\ b_page b = page_num /\ b_caption b = None /\
    b_content b = strip (join (s_ "
") (map l_text (l0 :: ls))) /\
    b_content b <> [] /\
    b_font_size b = l_font_size l0 /\ b_is_bold b = l_is_bold l0 /\
    exists box, b_bbox b = Some box /\ forall l, In l (l0 :: ls) -> line_within l box.

Definition open_count (st : lines_state) : nat :=
  match ls_lines st with [] => 0 | _ => 1 end.

Definition lines_inv (page_num : Z) (tbs : list bbox) (lines : list Line) (st : lines_state) : Prop :=
  Forall (built_from page_num tbs lines) (ls_blocks st) /\
  (forall l, In l (ls_lines st) -> In l lines /\ in_any_bbox (line_box l) tbs = false) /\
  (ls_lines st <> [] -> exists box, ls_bbox st = Some box /\
                                    forall l, In l (ls_lines st) -> line_within l box).

Lemma flush_block_inv page_num tbs lines st :
  lines_inv page_num tbs lines st ->
  lines_inv page_num tbs lines (flush_block page_num st) /\
  ls_lines (flush_block page_num st) = [] /\
  (length (ls_blocks (flush_block page_num st)) <= length (ls_blocks st) + open_count st)%nat.
Proof.
  intros [Hb [Hl Hx]]. unfold flush_block, open_count.
  destruct (ls_lines st) as [|l0 ls] eqn:El.
  - split; [split; [exact Hb|split; [rewrite El; intros l []|rewrite El; intros Hc; exfalso; apply Hc; reflexivity]]|].
    split; [exact El|lia].
  - cbn [ls_blocks ls_lines ls_bbox].
    destruct (nonempty (strip (join (s_ "
") (map l_text (l0 :: ls))))) eqn:Ene.
    + split; [|split; [reflexivity|rewrite length_app; cbn [length]; lia]].
      split; [|split; [intros l []|intros Hc; exfalso; apply Hc; reflexivity]].
      apply Forall_app; split; [exact Hb|constructor; [|constructor]].
      destruct (Hx ltac:(discriminate)) as [box [Hbox Hin]].
      exists l0, ls. split; [exact Hl|].
      cbn [b_type b_page b_caption b_content b_font_size b_is_bold b_bbox].
      split; [reflexivity|split; [reflexivity|split; [reflexivity|split; [reflexivity|]]]].
      split; [apply nonempty_neq, Ene|split; [reflexivity|split; [reflexivity|]]].
      exists box. split; [exact Hbox|exact Hin].
    + split; [split; [exact Hb|split; [intros l []|intros Hc; exfalso; apply Hc; reflexivity]]|]. split; [reflexivity|lia].
Qed.

Lemma line_within_grow l box x0 top x1 bottom :
  line_within l box ->
  line_within l (let '(a, b, c, d) := box in (Qmin a x0, Qmin b top, Qmax c x1, Qmax d bottom)).
Proof.
  destruct box as [[[a b] c] d]. cbn. intros (H1 & H2 & H3 & H4).
  split; [|split; [|split]].
  - eapply Qle_trans; [apply Q.le_min_l|exact H1].
  - eapply Qle_trans; [apply Q.le_min_l|exact H2].
  - eapply Qle_trans; [exact H3|apply Q.le_max_l].
  - eapply Qle_trans; [exact H4|apply Q.le_max_l].
Qed.

Lemma lines_step_inv page_num tbs lines st line :
  In line lines -> lines_inv page_num tbs lines st ->
  lines_inv page_num tbs lines (lines_step page_num tbs st line) /\
  (length (ls_blocks (lines_step page_num tbs st line)) +
     open_count (lines_step page_num tbs st line) <=
   length (ls_blocks st) + open_count st +
   (if in_any_bbox (line_box line) tbs then 0 else 1))%nat.
Proof.
  intros Hline Hinv. unfold lines_step. cbv beta iota.
  change (l_x0 line, l_top line, l_x1 line, l_bottom line) with (line_box line).
  destruct (in_any_bbox (line_box line) tbs) eqn:Etab.
  - destruct (flush_block_inv page_num tbs lines st Hinv) as [H1 [H2 H3]].
    split; [exact H1|]. unfold open_count at 1. rewrite H2. lia.
  - set (st1 := match (match ls_lines st with [] => None
                                        | l :: _ => Some (l_bottom (last (ls_lines st) l)) end) with
                | Some pb => if gap_exceeds (l_top line) (l_bottom line) pb
                             then flush_block page_num st else st
                | None => st
                end).
    assert (Hst1 : lines_inv page_num tbs lines st1 /\
                   (length (ls_blocks st1) + open_count st1 <=
                    length (ls_blocks st) + open_count st)%nat).
    { unfold st1. destruct (ls_lines st) as [|l ls]; [split; [exact Hinv|lia]|].
      destruct (gap_exceeds _ _ _); [|split; [exact Hinv|lia]].
      destruct (flush_block_inv page_num tbs lines st Hinv) as [H1 [H2 H3]].
      split; [exact H1|]. unfold open_count at 1. rewrite H2. lia. }
    destruct Hst1 as [[Hb [Hl Hx]] Hlen].
    split.
    + split; [exact Hb|split].
      * cbn [ls_lines]. intros l Hin. apply in_app_or in Hin as [Hin|[<-|[]]].
        -- apply Hl, Hin.
        -- split; [exact Hline|exact Etab].
      * cbn [ls_lines ls_bbox]. intros _.
        destruct (ls_bbox st1) as [box|] eqn:Eb.
        -- destruct box as [[[a b] c] d].
           eexists; split; [reflexivity|].
           intros l Hin. apply in_app_or in Hin as [Hin|[<-|[]]].
           ++ destruct (ls_lines st1) as [|l1 ls1]; [destruct Hin|].
              destruct (Hx ltac:(discriminate)) as [box' [Hbox' Hw]].
              injection Hbox' as <-.
              apply (line_within_grow l (a, b, c, d)), Hw, Hin.
           ++ cbn.
              split; [apply Q.le_min_r|split; [apply Q.le_min_r|split; apply Q.le_max_r]].
        -- eexists; split; [reflexivity|].
           intros l Hin. apply in_app_or in Hin as [Hin|[<-|[]]].
           ++ destruct (ls_lines st1) as [|l1 ls1]; [destruct Hin|].
              destruct (Hx ltac:(discriminate)) as [box' [Hbox' _]]. congruence.
           ++ cbn. split; [apply Qle_refl|split; [apply Qle_refl|split; apply Qle_refl]].
    + unfold open_count in *. cbn [ls_blocks ls_lines].
      destruct (ls_lines st1 ++ [line]) eqn:E; [destruct (ls_lines st1); discriminate|].
      destruct (ls_lines st1); destruct (ls_lines st); lia.
Qed.

(** Every block of [_lines_to_text_blocks] is a non-empty text block of
    the page built from input lines that overlap no table, with the font
    size and boldness of its first line and a bounding box around all of
    its lines; there are at most as many blocks as lines outside the
    tables. *)
Theorem lines_to_text_blocks_built_from (lines : list Line) (page_num : Z) (tbs : list bbox) :
  Forall (built_from page_num tbs lines) (lines_to_text_blocks lines page_num tbs) /\
  (length (lines_to_text_blocks lines page_num tbs) <=
   length (filter (fun l => negb (in_any_bbox (line_box l) tbs)) lines))%nat.
Proof.
  assert (Hfold : forall l0 st seen, (forall l, In l l0 -> In l lines) ->
            lines_inv page_num tbs lines st ->
            (length (ls_blocks st) + open_count st <=
             length (filter (fun l => negb (in_any_bbox (line_box l) tbs)) seen))%nat ->
            let r := fold_left (lines_step page_num tbs) l0 st in
            lines_inv page_num tbs lines r /\
            (length (ls_blocks r) + open_count r <=
             length (filter (fun l => negb (in_any_bbox (line_box l) tbs)) (seen ++ l0)))%nat).
  { induction l0 as [|x l0 IH]; intros st seen Hsub Hinv Hlen; cbn [fold_left].
    - rewrite app_nil_r. split; assumption.
    - replace (seen ++ x :: l0) with ((seen ++ [x]) ++ l0) by (rewrite <- app_assoc; reflexivity).
      destruct (lines_step_inv page_num tbs lines st x (Hsub x (or_introl eq_refl)) Hinv)
        as [Hinv' Hlen'].
      apply IH; [intros l Hl; apply Hsub; right; exact Hl|exact Hinv'|].
      rewrite filter_app, length_app. cbn [filter].
      destruct (in_any_bbox (line_box x) tbs); cbn [negb length]; lia. }
  destruct (Hfold lines (mkLs [] [] None) [] (fun l H => H)) as [Hinv Hlen].
  - split; [constructor|split; [intros l []|intros Hc; exfalso; apply Hc; reflexivity]].
  - cbn. lia.
  - unfold lines_to_text_blocks.
    destruct (flush_block_inv page_num tbs lines _ Hinv) as [[Hb _] [_ H3]].
    split; [exact Hb|]. cbn [app] in Hlen. lia.
Qed.

(* ------------------------------------------------------------------ *)
(** ** Block cleaning is idempotent *)

Lemma filter_all {A} (p : A -> bool) l : (forall x, In x l -> p x = true) -> filter p l = l.
Proof.
  induction l as [|x l IH]; intros H; cbn; [reflexivity|].
  rewrite (H x (or_introl eq_refl)), IH; [reflexivity|].
  intros y Hy; apply H; right; exact Hy.
Qed.

Lemma page_count_add_In k ps k0 p pc :
  In (k, ps) (page_count_add k0 p pc) ->
  In (k, ps) pc \/
  (k = k0 /\ (ps = [p] \/ exists ps0, In (k, ps0) pc /\ ps = set_add_page p ps0)).
Proof.
  induction pc as [|[k' ps'] pc IH]; cbn [page_count_add].
  - intros [H|[]]. injection H as <- <-. right; split; [reflexivity|left; reflexivity].
  - destruct (key_eqb k0 k') eqn:E.
    + apply key_eqb_eq in E; subst k'.
      intros [H|H].
      * injection H as <- <-. right; split; [reflexivity|right].
        exists ps'; split; [left; reflexivity|reflexivity].
      * left; right; exact H.
    + intros [H|H]; [left; left; exact H|].
      destruct (IH H) as [H1|[Hk [H2|[ps0 [H3 H4]]]]].
      * left; right; exact H1.
      * right; split; [exact Hk|left; exact H2].
      * right; split; [exact Hk|right; exists ps0; split; [right; exact H3|exact H4]].
Qed.

(** Every entry of the page count holds distinct pages on which its key
    occurs. *)
Definition pc_sound (pc : list (key * list Z)) (seen : list Block) : Prop :=
  forall k ps, In (k, ps) pc -> NoDup ps /\ incl ps (pages_raw k seen).

Lemma pc_sound_step pc seen b :
  pc_sound pc seen -> pc_sound (page_count_add (block_key b) (b_page b) pc) (seen ++ [b]).
Proof.
  intros Hs k ps Hin.
  assert (Hmono : forall k0, incl (pages_raw k0 seen) (pages_raw k0 (seen ++ [b]))).
  { intros k0 q Hq. unfold pages_raw in *. rewrite filter_app, map_app. apply in_or_app; left; exact Hq. }
  assert (Hnew : In (b_page b) (pages_raw (block_key b) (seen ++ [b]))).
  { unfold pages_raw. apply in_map, filter_In. split; [apply in_or_app; right; left; reflexivity|].
    apply key_eqb_eq; reflexivity. }
  destruct (page_count_add_In _ _ _ _ _ Hin) as [H|[-> [->|[ps0 [H0 ->]]]]].
  - destruct (Hs k ps H) as [Hnd Hinc]. split; [exact Hnd|].
    intros q Hq; apply Hmono, Hinc, Hq.
  - split; [constructor; [intros []|constructor]|].
    intros q [Hq|[]]; rewrite <- Hq; exact Hnew.
  - destruct (Hs _ _ H0) as [Hnd Hinc].
    destruct (set_add_page_spec (b_page b) ps0 Hnd) as [Hnd' Hin'].
    split; [exact Hnd'|]. intros q Hq. apply Hin' in Hq as [Hq|Hq]; [apply Hmono, Hinc, Hq|rewrite Hq; exact Hnew].
Qed.

Lemma page_count_sound bs : pc_sound (page_count bs) bs.
Proof.
  unfold page_count.
  assert (H : forall bs0 pc seen, pc_sound pc seen ->
            pc_sound (fold_left (fun pc b => page_count_add (block_key b) (b_page b) pc) bs0 pc)
                     (seen ++ bs0)).
  { induction bs0 as [|b bs0 IH]; intros pc seen Hs; cbn [fold_left].
    - rewrite app_nil_r; exact Hs.
    - replace (seen ++ b :: bs0) with ((seen ++ [b]) ++ bs0)
        by (rewrite <- app_assoc; reflexivity).
      apply IH, pc_sound_step, Hs. }
  apply (H bs [] []). intros k ps [].
Qed.

Lemma repeated_keys_sound bs k :
  existsb (key_eqb k) (repeated_keys bs) = true -> 3 <= length (pages_with_key k bs).
Proof.
  intros Hex. apply existsb_exists in Hex as [k' [Hk' Heq]].
  apply key_eqb_eq in Heq; subst k'.
  unfold repeated_keys in Hk'. apply in_map_iff in Hk' as [[k0 ps] [Hk0 Hin]].
  cbn [fst] in Hk0; subst k0.
  apply filter_In in Hin as [Hin H3]. cbn [snd] in H3. apply Nat.leb_le in H3.
  destruct (page_count_sound bs k ps Hin) as [Hnd Hinc].
  enough (length ps <= length (pages_with_key k bs)) by lia.
  apply NoDup_incl_length; [exact Hnd|].
  intros q Hq. unfold pages_with_key. apply nodup_In, Hinc, Hq.
Qed.

Lemma pages_with_key_filter k f bs :
  length (pages_with_key k (filter f bs)) <= length (pages_with_key k bs).
Proof.
  apply NoDup_incl_length; [apply NoDup_nodup|].
  intros q Hq. unfold pages_with_key in *. apply nodup_In in Hq. apply nodup_In.
  apply in_map_iff in Hq as [b [<- Hb]]. apply in_map.
  apply filter_In in Hb as [Hb Hk]. apply filter_In in Hb as [Hb _].
  apply filter_In; split; assumption.
Qed.

Lemma keep_block_rep_ext r1 r2 b :
  existsb (key_eqb (block_key b)) r1 = existsb (key_eqb (block_key b)) r2 ->
  keep_block r1 b = keep_block r2 b.
Proof.
  unfold keep_block, block_key. cbv zeta. intros H. rewrite H. reflexivity.
Qed.

(** Cleaning twice is cleaning once: every block [clean_blocks] keeps is
    kept again when the cleaned list is cleaned, since a key repeated on
    three pages of the cleaned list was already repeated in the input. *)
Theorem clean_blocks_idempotent (bs : list Block) :
  clean_blocks (clean_blocks bs) = clean_blocks bs.
Proof.
  destruct bs as [|b0 bs0]; [reflexivity|].
  unfold clean_blocks at 2 3.
  remember (filter (keep_block (repeated_keys (b0 :: bs0))) (b0 :: bs0)) as cbs eqn:Ecbs.
  assert (Hall : forall b, In b cbs -> keep_block (repeated_keys cbs) b = true).
  { intros b Hb. rewrite Ecbs in Hb. apply filter_In in Hb as [Hin Hkeep].
    rewrite <- Hkeep. apply keep_block_rep_ext.
    rewrite (keep_block_not_repeated _ _ Hkeep).
    destruct (existsb (key_eqb (block_key b)) (repeated_keys cbs)) eqn:E; [|reflexivity].
    exfalso. apply repeated_keys_sound in E. rewrite Ecbs in E.
    pose proof (pages_with_key_filter (block_key b) (keep_block (repeated_keys (b0 :: bs0)))
                  (b0 :: bs0)) as Hle.
    pose proof (keep_block_not_repeated _ _ Hkeep) as Hnot.
    rewrite (repeated_keys_complete (b0 :: bs0) b Hin ltac:(lia)) in Hnot. discriminate. }
  unfold clean_blocks. destruct cbs as [|c cs]; [reflexivity|].
  apply filter_all, Hall.
Qed.

(* ------------------------------------------------------------------ *)
(** ** Content normalization *)

Definition cons_word (c : ascii) (ws : list str) : list str :=
  match ws with [] => [[c]] | w :: r => (c :: w) :: r end.

Lemma split_aux_snoc s cur c :
  cur <> [] -> split_aux s (cur ++ [c]) = cons_word c (split_aux s cur).
Proof.
  revert cur; induction s as [|d s IH]; intros cur Hne; cbn [split_aux].
  - destruct cur as [|x cur]; [congruence|]. cbn [flush app rev cons_word].
    destruct (cur ++ [c]) eqn:E; [destruct cur; discriminate|].
    rewrite <- E. cbn [rev]. rewrite rev_app_distr. reflexivity.
  - destruct (is_space d).
    + destruct cur as [|x cur]; [congruence|]. cbn [flush app].
      destruct (cur ++ [c]) eqn:E; [destruct cur; discriminate|].
      rewrite <- E. cbn [rev app cons_word]. rewrite rev_app_distr. reflexivity.
    + change (d :: cur ++ [c]) with ((d :: cur) ++ [c]). apply IH. discriminate.
Qed.

Lemma split_ws_cons2 c d s :
  is_space c = false -> is_space d = false ->
  split_ws (c :: d :: s) = cons_word c (split_ws (d :: s)).
Proof.
  intros Hc Hd. unfold split_ws. cbn [split_aux]. rewrite Hc, Hd.
  apply (split_aux_snoc s [d] c). discriminate.
Qed.

Lemma join_cons_word c ws : join (s_ " ") (cons_word c ws) = c :: join (s_ " ") ws.
Proof. destruct ws as [|w [|w' r]]; reflexivity. Qed.

Lemma strip_nil_iff s : strip s = [] <-> forallb is_space s = true.
Proof.
  split.
  - intros H. destruct (strip_split s) as [a [b [Hs [Ha Hb]]]].
    rewrite H in Hs. rewrite Hs. cbn [app]. rewrite forallb_app, Ha, Hb. reflexivity.
  - intros H. unfold strip. rewrite lstrip_spaces by exact H. reflexivity.
Qed.

Lemma split_aux_words s cur :
  forallb (fun c => negb (is_space c)) cur = true ->
  Forall (fun w => w <> [] /\ forallb (fun c => negb (is_space c)) w = true) (split_aux s cur).
Proof.
  assert (Hfl : forall cur, forallb (fun c => negb (is_space c)) cur = true ->
            Forall (fun w => w <> [] /\ forallb (fun c => negb (is_space c)) w = true) (flush cur)).
  { intros [|x cu] H; [constructor|]. constructor; [|constructor]. split.
    - intros E. apply (f_equal (@length ascii)) in E. rewrite length_rev in E. discriminate.
    - rewrite forallb_rev_str. exact H. }
  revert cur; induction s as [|c s IH]; intros cur H; cbn [split_aux]; [apply Hfl, H|].
  destruct (is_space c) eqn:Ec.
  - apply Forall_app; split; [apply Hfl, H|apply IH; reflexivity].
  - apply IH. cbn [forallb]. rewrite Ec, H. reflexivity.
Qed.

Lemma join_words_nil ws :
  Forall (fun w => w <> [] /\ forallb (fun c => negb (is_space c)) w = true) ws ->
  join (s_ " ") ws = [] -> ws = [].
Proof.
  intros Hw. destruct ws as [|w r]; [reflexivity|].
  inversion Hw as [|? ? [Hne _] _]; subst.
  destruct r; cbn [join]; [intros; congruence|].
  destruct w; [congruence|]. discriminate.
Qed.

Lemma collapse_true_lstripped s : lstrip (collapse_ws s true) = collapse_ws s true.
Proof.
  induction s as [|c s IH]; [reflexivity|]. cbn [collapse_ws].
  destruct (is_space c) eqn:Ec; [exact IH|]. cbn [lstrip]. rewrite Ec. reflexivity.
Qed.

Lemma collapse_strip_true s : strip (collapse_ws s true) = join (s_ " ") (split_ws s).
Proof.
  induction s as [|c s IH]; [reflexivity|]. cbn [collapse_ws].
  destruct (is_space c) eqn:Ec.
  - rewrite IH. unfold split_ws. cbn [split_aux]. rewrite Ec. reflexivity.
  - unfold strip. cbn [lstrip]. rewrite Ec. change (c :: collapse_ws s false) with ([c] ++ collapse_ws s false).
    rewrite rstrip_app.
    assert (Hc1 : rstrip [c] = [c]) by (unfold rstrip; cbn; rewrite Ec; reflexivity).
    destruct s as [|d s].
    + cbn. rewrite Ec. reflexivity.
    + cbn [collapse_ws] in *. destruct (is_space d) eqn:Ed.
      * (* a space follows the character *)
        assert (Hsp : is_space " "%char = true) by reflexivity.
        assert (Hw : split_ws (c :: d :: s) = [c] :: split_ws s).
        { unfold split_ws. cbn [split_aux]. rewrite Ec, Ed. reflexivity. }
        assert (Hw' : split_ws (d :: s) = split_ws s).
        { unfold split_ws. cbn [split_aux]. rewrite Ed. reflexivity. }
        rewrite Hw. rewrite Hw' in IH.
        cbn [forallb]. rewrite Hsp. cbn [andb].
        destruct (forallb is_space (collapse_ws s true)) eqn:Eall.
        -- rewrite Hc1. apply strip_nil_iff in Eall. rewrite Eall in IH.
           assert (Hn : split_ws s = []).
           { apply join_words_nil; [apply split_aux_words; reflexivity|symmetry; exact IH]. }
           rewrite Hn. reflexivity.
        -- change (" "%char :: collapse_ws s true) with ([" "%char] ++ collapse_ws s true).
           rewrite rstrip_app, Eall.
           assert (Hr : rstrip (collapse_ws s true) = join (s_ " ") (split_ws s)).
           { rewrite <- IH. unfold strip. rewrite collapse_true_lstripped. reflexivity. }
           rewrite Hr. destruct (split_ws s) as [|w r] eqn:Es.
           ++ exfalso. apply strip_nil_iff in IH. congruence.
           ++ reflexivity.
      * rewrite (split_ws_cons2 c d s Ec Ed), join_cons_word.
        cbn [forallb]. rewrite Ed. cbn [andb].
        rewrite <- IH. unfold strip. cbn [lstrip]. rewrite Ed. reflexivity.
Qed.

Lemma normalize_content_words (text : str) :
  normalize_content text = join (s_ " ") (split_ws text).
Proof.
  unfold normalize_content. destruct text as [|c s]; [reflexivity|].
  cbn [nonempty negb]. rewrite <- collapse_strip_true. cbn [collapse_ws].
  destruct (is_space c); [|reflexivity].
  unfold strip. cbn [lstrip]. reflexivity.
Qed.

Lemma split_aux_app_word w r cur :
  forallb (fun c => negb (is_space c)) w = true ->
  split_aux (w ++ r) cur = split_aux r (rev w ++ cur).
Proof.
  revert cur; induction w as [|c w IH]; intros cur H; [reflexivity|].
  cbn [forallb] in H. apply andb_prop in H as [Hc Hw].
  cbn [app split_aux]. apply negb_true_iff in Hc. rewrite Hc, IH by exact Hw.
  cbn [rev]. rewrite <- app_assoc. reflexivity.
Qed.

Lemma split_ws_join ws :
  Forall (fun w => w <> [] /\ forallb (fun c => negb (is_space c)) w = true) ws ->
  split_ws (join (s_ " ") ws) = ws.
Proof.
  unfold split_ws. induction ws as [|w r IH]; intros Hw; [reflexivity|].
  inversion Hw as [|? ? [Hne Hns] Hr]; subst.
  destruct r as [|w' r].
  - cbn [join]. rewrite <- (app_nil_r w) at 1. rewrite split_aux_app_word by exact Hns.
    rewrite app_nil_r. cbn [split_aux]. unfold flush.
    destruct (rev w) eqn:E; [destruct w; [congruence|cbn in E; destruct (rev w); discriminate]|].
    rewrite <- E, rev_involutive. reflexivity.
  - change (join (s_ " ") (w :: w' :: r)) with (w ++ s_ " " ++ join (s_ " ") (w' :: r)).
    rewrite split_aux_app_word by exact Hns. rewrite app_nil_r.
    replace (s_ " " ++ join (s_ " ") (w' :: r)) with (" "%char :: join (s_ " ") (w' :: r))
      by reflexivity.
    cbn [split_aux]. replace (is_space " "%char) with true by reflexivity.
    rewrite IH by exact Hr. unfold flush.
    destruct (rev w) eqn:E; [destruct w; [congruence|cbn in E; destruct (rev w); discriminate]|].
    rewrite <- E, rev_involutive. reflexivity.
Qed.

Lemma normalize_content_fix (text : str) :
  split_ws (normalize_content text) = split_ws text /\
  normalize_content (normalize_content text) = normalize_content text.
Proof.
  assert (Hw : split_ws (normalize_content text) = split_ws text).
  { rewrite normalize_content_words. apply split_ws_join, split_aux_words. reflexivity. }
  split; [exact Hw|]. rewrite (normalize_content_words (normalize_content text)), Hw.
  symmetry. apply normalize_content_words.
Qed.

(** [_normalize_content] is [" ".join(text.split())]: every run of
    whitespace, newlines included, becomes one space, and none is left at
    either end. *)
Theorem normalize_content_join_words (text : str) :
  normalize_content text = join (s_ " ") (split_ws text).
Proof. apply normalize_content_words. Qed.

(** [_normalize_content] keeps the words of the text, so normalizing a
    second time changes nothing. *)
Theorem normalize_content_idempotent (text : str) :
  split_ws (normalize_content text) = split_ws text /\
  normalize_content (normalize_content text) = normalize_content text.
Proof. apply normalize_content_fix. Qed.

(* ------------------------------------------------------------------ *)
(** ** What [extract_document] returns *)

(** On success, [extract_document] returns the document of the given
    file id and source, listing the ids of the returned sections in
    order, and every returned section's content is already normalized:
    its words joined by single spaces. *)
Theorem extract_document_result uuid4 sha256 sha256_bytes now_iso pypdf_available pypdf_pages
    pdfplumber_pages segment_document (content0 : bytes) (file_name0 content_type fid : str)
    (apply_block_cleaning include_keywords : bool) doc secs :
  extract_document uuid4 sha256 sha256_bytes now_iso pypdf_available pypdf_pages
    pdfplumber_pages segment_document content0 file_name0 content_type fid
    apply_block_cleaning include_keywords = inr (doc, secs) ->
  doc_file_id doc = fid /\
  doc_source doc = mkSource file_name0 (sha256_bytes content0) now_iso /\
  doc_sections doc = map section_id secs /\
  Forall (fun s => content s = join (s_ " ") (split_ws (content s))) secs.
Proof.
  unfold extract_document. destruct (is_pdf content_type file_name0); cbn [negb]; [|discriminate].
  unfold chunk_to_sections. cbv zeta. intros H. injection H as <- <-.
  cbn [doc_file_id doc_source doc_sections].
  split; [reflexivity|split; [reflexivity|]].
  set (l := dedup_sections _ _ _).
  assert (Hn : Forall (fun s => content s = join (s_ " ") (split_ws (content s)))
                 (map (fun s => mkSection (section_id s) (file_id s) (heading s) (section_type s)
                                  (normalize_content (content s)) (keywords s)
                                  (extraction_confidence s) (embedding_vector s)) l)).
  { apply Forall_map, Forall_forall. intros s _. cbn [content].
    rewrite (proj1 (normalize_content_fix (content s))).
    apply normalize_content_words. }
  destruct include_keywords.
  - unfold extract_keywords_for_sections. rewrite !map_map. cbn [section_id with_keywords].
    split; [reflexivity|].
    apply Forall_map, Forall_forall. intros s _. unfold with_keywords. cbn [content].
    rewrite (proj1 (normalize_content_fix (content s))).
    apply normalize_content_words.
  - split; [rewrite map_map; reflexivity|exact Hn].
Qed.

(* ------------------------------------------------------------------ *)
(** ** Heading tokens and keywords *)

(** The shape of a match of [[A-Za-z0-9]+(?:-[A-Za-z0-9]+)*]: letters,
    digits and hyphens, starting and ending with a letter or digit, with
    no two hyphens in a row. *)
Definition token_shape (t : str) : Prop :=
  forallb (fun c => is_ascii_alnum c || is_dash c) t = true /\
  (exists c r, t = c :: r /\ is_ascii_alnum c = true) /\
  (exists r c, t = r ++ [c] /\ is_ascii_alnum c = true) /\
  ~ (exists a b, t = a ++ "-"%char :: "-"%char :: b).

(** The token being matched, reversed, before the rest [s] of the text. *)
Definition cur_ok (cur s : str) : Prop :=
  cur = [] \/
  (forallb (fun c => is_ascii_alnum c || is_dash c) cur = true /\
   (exists r c, cur = r ++ [c] /\ is_ascii_alnum c = true) /\
   ~ (exists a b, cur = a ++ "-"%char :: "-"%char :: b) /\
   (forall r, cur = "-"%char :: r -> exists d s', s = d :: s' /\ is_ascii_alnum d = true)).

Lemma is_dash_eq c : is_dash c = true <-> c = "-"%char.
Proof. unfold is_dash. destruct (ascii_dec c "-"); split; congruence. Qed.

Lemma alnum_not_dash c : is_ascii_alnum c = true -> c <> "-"%char.
Proof. intros H ->. discriminate. Qed.

Lemma flush_token cur s :
  cur_ok cur s ->
  (forall r, cur = "-"%char :: r -> False) ->
  Forall token_shape (flush cur).
Proof.
  intros [->|(Hall & [r [c [Hr Hc]]] & Hdd & _)] Hhd; [constructor|].
  destruct cur as [|h t] eqn:Ecur; [destruct r; discriminate|]. rewrite <- Ecur in *.
  cbn [flush]. rewrite Ecur. constructor; [|constructor].
  rewrite <- Ecur. split; [|split; [|split]].
  - rewrite forallb_rev_str. exact Hall.
  - exists c, (rev r). split; [rewrite Hr, rev_app_distr; reflexivity|exact Hc].
  - exists (rev t), h. split; [rewrite Ecur; reflexivity|].
    rewrite Ecur in Hall. cbn [forallb] in Hall. apply andb_prop in Hall as [Hh _].
    apply orb_true_iff in Hh as [Hh|Hh]; [exact Hh|].
    apply is_dash_eq in Hh. subst h. exfalso. apply (Hhd t). exact Ecur.
  - intros [a [b Hab]]. apply Hdd. exists (rev b), (rev a).
    rewrite <- (rev_involutive cur), Hab, rev_app_distr. cbn [rev]. rewrite <- !app_assoc. reflexivity.
Qed.

Lemma findall_tokens_shape s cur :
  cur_ok cur s -> Forall token_shape (findall_tokens s cur).
Proof.
  revert cur; induction s as [|c s IH]; intros cur Hcur; cbn [findall_tokens].
  - apply (flush_token cur []); [exact Hcur|].
    intros r ->. destruct Hcur as [H|(_ & _ & _ & Hh)]; [discriminate|].
    destruct (Hh r eq_refl) as [d [s' [H _]]]. discriminate.
  - destruct (is_ascii_alnum c) eqn:Ec.
    + apply IH. right. split; [|split; [|split]].
      * cbn [forallb]. rewrite Ec. cbn [orb andb].
        destruct Hcur as [->|(H & _)]; [reflexivity|exact H].
      * destruct Hcur as [->|(_ & [r [x [Hr Hx]]] & _)].
        -- exists [], c. split; [reflexivity|exact Ec].
        -- exists (c :: r), x. split; [rewrite Hr; reflexivity|exact Hx].
      * intros [a [b Hab]]. destruct a as [|a0 a].
        -- injection Hab as Hc _. exact (alnum_not_dash c Ec Hc).
        -- injection Hab as _ Hab. destruct Hcur as [->|(_ & _ & Hdd & _)].
           ++ destruct a as [|? [|? ?]]; discriminate.
           ++ apply Hdd. exists a, b. exact Hab.
      * intros r Hr. injection Hr as Hc _. exfalso. exact (alnum_not_dash c Ec Hc).
    + destruct (is_dash c && nonempty cur &&
                match s with d :: _ => is_ascii_alnum d | [] => false end) eqn:Ed.
      * apply andb_prop in Ed as [Ed Hnext]. apply andb_prop in Ed as [Hdash Hne].
        apply is_dash_eq in Hdash. subst c.
        destruct Hcur as [->|(Hall & [r [x [Hr Hx]]] & Hdd & Hh)]; [discriminate|].
        apply IH. right. split; [|split; [|split]].
        -- cbn [forallb]. rewrite Hall. reflexivity.
        -- exists ("-"%char :: r), x. split; [rewrite Hr; reflexivity|exact Hx].
        -- intros [a [b Hab]]. destruct a as [|a0 a].
           ++ injection Hab as Hcur'. destruct (Hh b Hcur') as [d [s' [Hds Hd]]].
              injection Hds as <- _. discriminate.
           ++ injection Hab as _ Hab. apply Hdd. exists a, b. exact Hab.
        -- intros r' _. destruct s as [|d s']; [discriminate|].
           exists d, s'. split; [reflexivity|exact Hnext].
      * apply Forall_app. split; [|apply IH; left; reflexivity].
        apply (flush_token cur (c :: s)); [exact Hcur|].
        intros r ->. destruct Hcur as [H|(_ & _ & _ & Hh)]; [discriminate|].
        destruct (Hh r eq_refl) as [d [s' [Hds Hd]]]. injection Hds as <- _. congruence.
Qed.

Lemma tokenize_heading_shape (heading0 : str) :
  Forall (fun t => token_shape t /\ (2 <= length t \/ str_isdigit t = true))
         (tokenize_heading heading0).
Proof.
  unfold tokenize_heading. destruct (negb (nonempty (strip heading0))); [constructor|].
  apply Forall_forall. intros t Ht. apply filter_In in Ht as [Ht Hlen].
  split; [exact (proj1 (Forall_forall _ _) (findall_tokens_shape _ [] (or_introl eq_refl)) t Ht)|].
  apply orb_true_iff in Hlen as [H|H]; [left; apply Nat.leb_le, H|right; exact H].
Qed.

(** Every token [_tokenize_heading] returns has the shape of a match of
    [[A-Za-z0-9]+(?:-[A-Za-z0-9]+)*] and is at least two characters long
    or all digits. *)
Theorem tokenize_heading_tokens (heading0 : str) :
  Forall (fun t => token_shape t /\ (2 <= length t \/ str_isdigit t = true))
         (tokenize_heading heading0).
Proof. apply tokenize_heading_shape. Qed.

Lemma alnum_not_space c : is_ascii_alnum c = true -> is_space c = false.
Proof.
  unfold is_ascii_alnum, is_ascii_digit, is_ascii_upper, is_ascii_lower, is_space.
  set (n := code c). intros H.
  repeat rewrite orb_true_iff in H. repeat rewrite andb_true_iff in H.
  rewrite !Nat.leb_le in H.
  destruct (9 <=? n) eqn:E1, (n <=? 13) eqn:E2, (28 <=? n) eqn:E3, (n <=? 32) eqn:E4,
           (n =? 133) eqn:E5, (n =? 160) eqn:E6; cbn; try reflexivity;
  rewrite ?Nat.leb_le, ?Nat.leb_gt, ?Nat.eqb_eq, ?Nat.eqb_neq in *; lia.
Qed.

Lemma token_strip t : token_shape t -> strip t = t.
Proof.
  intros (_ & [c [r [Hcr Hc]]] & [r' [c' [Hrc Hc']]] & _).
  assert (Hl : lstrip t = t) by (rewrite Hcr; cbn [lstrip]; rewrite (alnum_not_space c Hc); reflexivity).
  unfold strip. rewrite Hl, Hrc, rstrip_app. cbn [forallb]. rewrite (alnum_not_space c' Hc').
  cbn [andb]. unfold rstrip. cbn. rewrite (alnum_not_space c' Hc'). reflexivity.
Qed.

Lemma Forall_firstn_str {A} (P : A -> Prop) n l : Forall P l -> Forall P (firstn n l).
Proof.
  intros H. rewrite <- (firstn_skipn n l) in H. apply Forall_app in H. exact (proj1 H).
Qed.

Lemma kw_fold_from (P : str -> Prop) l st :
  Forall P (fst st) ->
  (forall c, In c l -> 1 < length (kw_normalize c) -> P (kw_normalize c)) ->
  Forall P (fst (fold_left kw_add l st)).
Proof.
  revert st; induction l as [|c l IH]; intros [kws seen] Hst Hc; cbn [fold_left]; [exact Hst|].
  apply IH; [|intros c' Hin; apply Hc; right; exact Hin].
  unfold kw_add.
  destruct (nonempty (kw_normalize c) && negb (existsb (str_eqb (kw_normalize c)) seen) &&
            (1 <? length (kw_normalize c))) eqn:E; cbn [fst]; [|exact Hst].
  apply andb_prop in E as [_ E]. apply Nat.ltb_lt in E.
  apply Forall_app; split; [exact Hst|constructor; [|constructor]].
  apply Hc; [left; reflexivity|exact E].
Qed.

(** Every keyword [extract_keywords_from_section] returns has between 2
    and 80 characters. *)
Theorem extract_keywords_length (sec : SectionSchema) (bold_phrases : option (list str))
    (table_header_row : option str) :
  Forall (fun k => 2 <= length k <= 80)
         (extract_keywords_from_section sec bold_phrases table_header_row).
Proof.
  unfold extract_keywords_from_section. apply Forall_firstn_str, kw_fold_from; [constructor|].
  intros c _ H. split; [lia|].
  unfold kw_normalize in *. destruct (negb (nonempty (strip c))); [cbn in H; lia|].
  apply firstn_le_length.
Qed.

(** With the keywords on, every keyword of a section [extract_document]
    returns is a token of that section's heading (cut to 80
    characters): the pipeline gives no bold phrases and no table header
    rows. *)
Theorem extract_document_keywords_from_heading uuid4 sha256 sha256_bytes now_iso pypdf_available
    pypdf_pages pdfplumber_pages segment_document (content0 : bytes)
    (file_name0 content_type fid : str) (apply_block_cleaning : bool) doc secs :
  extract_document uuid4 sha256 sha256_bytes now_iso pypdf_available pypdf_pages
    pdfplumber_pages segment_document content0 file_name0 content_type fid
    apply_block_cleaning true = inr (doc, secs) ->
  Forall (fun s => Forall (fun k => exists t, In t (tokenize_heading (heading s)) /\ k = firstn 80 t)
                          (keywords s)) secs.
Proof.
  unfold extract_document. destruct (is_pdf content_type file_name0); cbn [negb]; [|discriminate].
  unfold chunk_to_sections. cbv zeta. intros H. injection H as _ <-.
  unfold extract_keywords_for_sections. apply Forall_map, Forall_forall. intros s0 _.
  match goal with |- context [with_keywords ?x _] => set (s := x) end.
  cbn [dict_get]. unfold with_keywords. cbn [keywords heading].
  unfold extract_keywords_from_section. apply Forall_firstn_str, kw_fold_from; [constructor|].
  intros c Hin _. unfold kw_candidates in Hin. rewrite !app_nil_r in Hin.
  assert (Hin' : In c (tokenize_heading (heading s))).
  { destruct (nonempty (strip (heading s))); [|destruct (section_type s); destruct Hin].
    destruct (section_type s); rewrite ?app_nil_r in Hin; exact Hin. }
  exists c; split; [exact Hin'|].
  assert (Hsh := proj1 (proj1 (Forall_forall _ _) (tokenize_heading_shape (heading s)) c Hin')).
  unfold kw_normalize; rewrite (token_strip c Hsh).
  destruct Hsh as (_ & [x [r [-> _]]] & _); reflexivity.
Qed.

(* ------------------------------------------------------------------ *)
(** ** Section identifiers and fields of the chunker *)

Section SectionIds.

Variable uuid4 : nat -> str.
Variable sha256 : str -> str.

(** The fields the chunker fills in the same way for every section. *)
Definition sec_fields (fid : str) (s : SectionSchema) : Prop :=
  file_id s = fid /\ keywords s = [] /\ embedding_vector s = None.

(** The sections made from counter [idx] on carry the identifiers of the
    next calls of [uuid4], and the counter advances by their number. *)
Definition ids_from (fid : str) (idx : nat) (r : list SectionSchema * nat) : Prop :=
  map section_id (fst r) = map uuid4 (seq (S idx) (length (fst r))) /\
  snd r = idx + length (fst r) /\
  Forall (sec_fields fid) (fst r).

Lemma build_chunk_sections_ids i chunks h fid conf idx :
  ids_from fid idx (build_chunk_sections uuid4 i chunks h fid conf idx).
Proof.
  revert i idx; induction chunks as [|c chunks IH]; intros i idx; cbn [build_chunk_sections].
  - split; [reflexivity|split; [cbn; lia|constructor]].
  - destruct (negb (is_semantic c)); [apply IH|].
    cbv zeta. destruct (IH (S i) (S idx)) as [H1 [H2 H3]].
    destruct (build_chunk_sections uuid4 (S i) chunks h fid conf (S idx)) as [r idx2].
    cbn [fst snd] in *. split; [|split].
    + cbn [fst map length seq section_id]. rewrite H1. reflexivity.
    + cbn [fst snd length]. lia.
    + constructor; [split; [reflexivity|split; reflexivity]|exact H3].
Qed.

Lemma segment_sections_ids seg fid maxw soft idx :
  ids_from fid idx (segment_sections uuid4 seg fid maxw soft idx).
Proof.
  unfold segment_sections.
  destruct (is_table_or_figure (seg_section_type seg)).
  - unfold table_figure_section. destruct (negb (is_semantic (seg_content seg))).
    + split; [reflexivity|split; [cbn; lia|constructor]].
    + split; [reflexivity|split; [cbn; lia|constructor; [split; [reflexivity|split; reflexivity]|constructor]]].
  - unfold split_text_segment. cbv zeta.
    destruct (negb (nonempty (strip (seg_content seg))) && negb (nonempty (strip (seg_heading seg)))).
    + split; [reflexivity|split; [cbn; lia|constructor]].
    + destruct (wc _ <=? maxw); [|apply build_chunk_sections_ids].
      destruct (negb (is_semantic _)).
      * split; [reflexivity|split; [cbn; lia|constructor]].
      * split; [reflexivity|split; [cbn; lia|constructor; [split; [reflexivity|split; reflexivity]|constructor]]].
Qed.

Lemma candidate_sections_ids segs fid maxw soft idx :
  let l := candidate_sections uuid4 segs fid maxw soft idx in
  map section_id l = map uuid4 (seq (S idx) (length l)) /\ Forall (sec_fields fid) l.
Proof.
  revert idx; induction segs as [|seg segs IH]; intros idx; cbn [candidate_sections].
  - split; [reflexivity|constructor].
  - destruct (segment_sections_ids seg fid maxw soft idx) as [H1 [H2 H3]].
    destruct (segment_sections uuid4 seg fid maxw soft idx) as [secs idx1].
    cbn [fst snd] in *. destruct (IH idx1) as [H4 H5]. cbv zeta in *.
    split; [|apply Forall_app; split; assumption].
    rewrite map_app, length_app, seq_app, map_app, H1, H4, H2.
    replace (S (idx + length secs)) with (S idx + length secs) by lia. reflexivity.
Qed.

Lemma sublist_map_ids (l1 l2 : list SectionSchema) (ks2 : list nat) :
  sublist l1 l2 -> map section_id l2 = map uuid4 ks2 ->
  exists ks1, sublist ks1 ks2 /\ map section_id l1 = map uuid4 ks1.
Proof.
  intros Hs; revert ks2; induction Hs as [|x l1 l2 Hs IH|x l1 l2 Hs IH]; intros ks2 Hk.
  - exists []. destruct ks2; [split; [constructor|reflexivity]|discriminate].
  - destruct ks2 as [|k ks2]; [discriminate|]. injection Hk as _ Hk.
    destruct (IH ks2 Hk) as [ks1 [Hsub Hm]]. exists ks1. split; [apply sublist_skip, Hsub|exact Hm].
  - destruct ks2 as [|k ks2]; [discriminate|]. injection Hk as Hx Hk.
    destruct (IH ks2 Hk) as [ks1 [Hsub Hm]]. exists (k :: ks1).
    split; [apply sublist_cons, Hsub|cbn [map]; rewrite Hx, Hm; reflexivity].
Qed.

End SectionIds.

Lemma seq_sorted a n : StronglySorted lt (seq a n).
Proof.
  revert a; induction n as [|n IH]; intros a; cbn [seq]; constructor; [apply IH|].
  apply Forall_forall. intros x Hx. apply in_seq in Hx. lia.
Qed.

Lemma sublist_sorted (l1 l2 : list nat) : sublist l1 l2 -> StronglySorted lt l2 -> StronglySorted lt l1.
Proof.
  induction 1 as [|x l1 l2 Hs IH|x l1 l2 Hs IH]; intros H; [constructor| |].
  - apply StronglySorted_inv in H as [H _]. apply IH, H.
  - apply StronglySorted_inv in H as [H Hf]. constructor; [apply IH, H|].
    apply Forall_forall. intros y Hy. apply (proj1 (Forall_forall _ _) Hf).
    apply (sublist_In l1 l2 y Hs Hy).
Qed.

(** [chunk_to_sections] gives each returned section the identifier of a
    distinct call of [uuid.uuid4()], in the order of the calls, and the
    document lists these identifiers in order; every section carries the
    given file id, no keywords and no embedding. *)
Theorem chunk_to_sections_ids uuid4 sha256 (segs : list Segment) (fid : str) (src : Source)
    (max_words soft_max_words : nat) :
  let '(doc, secs) := chunk_to_sections uuid4 sha256 segs fid src max_words soft_max_words in
  doc_file_id doc = fid /\ doc_source doc = src /\ doc_sections doc = map section_id secs /\
  Forall (sec_fields fid) secs /\
  exists ks, map section_id secs = map uuid4 ks /\ StronglySorted lt ks /\ Forall (fun k => 1 <= k) ks.
Proof.
  unfold chunk_to_sections. cbv zeta.
  split; [reflexivity|split; [reflexivity|split; [reflexivity|]]].
  destruct (candidate_sections_ids uuid4 segs fid max_words soft_max_words 0) as [H1 H2].
  set (l := candidate_sections uuid4 segs fid max_words soft_max_words 0) in *.
  pose proof (dedup_sections_sublist sha256 [] l) as Hs.
  split.
  - apply Forall_forall. intros s Hin. apply (proj1 (Forall_forall _ _) H2).
    exact (sublist_In _ _ s Hs Hin).
  - destruct (sublist_map_ids uuid4 _ _ _ Hs H1) as [ks [Hks Hm]].
    exists ks. split; [exact Hm|split].
    + exact (sublist_sorted _ _ Hks (seq_sorted 1 (length l))).
    + apply Forall_forall. intros k Hk. apply (sublist_In _ _ k Hks) in Hk. apply in_seq in Hk. lia.
Qed.

(* ------------------------------------------------------------------ *)
(** ** The chunker keeps every word *)

(** The words of a list of pieces, in order. *)
Definition words_of (l : list str) : list str := concat (map split_ws l).

Lemma words_of_app l1 l2 : words_of (l1 ++ l2) = words_of l1 ++ words_of l2.
Proof. unfold words_of. rewrite map_app, concat_app. reflexivity. Qed.

Lemma words_of_one x : words_of [x] = split_ws x.
Proof. unfold words_of. cbn. apply app_nil_r. Qed.

Lemma split_aux_all_spaces b cur : forallb is_space b = true -> split_aux b cur = flush cur.
Proof.
  revert cur; induction b as [|c b IH]; intros cur H; [reflexivity|].
  cbn [forallb] in H. apply andb_prop in H as [Hc Hb]. cbn [split_aux]. rewrite Hc.
  rewrite (IH [] Hb). apply app_nil_r.
Qed.

Lemma split_aux_trailing x b cur :
  forallb is_space b = true -> split_aux (x ++ b) cur = split_aux x cur.
Proof.
  intros Hb. revert cur; induction x as [|c x IH]; intros cur; cbn [app split_aux].
  - apply split_aux_all_spaces, Hb.
  - destruct (is_space c); [rewrite IH|apply IH]; reflexivity.
Qed.

Lemma split_ws_strip s : split_ws (strip s) = split_ws s.
Proof.
  destruct (strip_split s) as [a [b [Hs [Ha Hb]]]].
  rewrite Hs at 2. unfold split_ws. rewrite split_aux_spaces by exact Ha.
  rewrite split_aux_trailing by exact Hb. reflexivity.
Qed.

Lemma split_ws_space_mid a c b :
  is_space c = true -> split_ws (a ++ c :: b) = split_ws a ++ split_ws b.
Proof. intros Hc. unfold split_ws. apply split_aux_app_space, Hc. Qed.

Lemma split_ws_join_sep sep xs :
  sep <> [] -> forallb is_space sep = true -> split_ws (join sep xs) = words_of xs.
Proof.
  intros Hne Hsp. destruct sep as [|c sep]; [congruence|].
  cbn [forallb] in Hsp. apply andb_prop in Hsp as [Hc Hs].
  induction xs as [|x [|y xs] IH].
  - reflexivity.
  - rewrite words_of_one. reflexivity.
  - change (join (c :: sep) (x :: y :: xs)) with (x ++ c :: sep ++ join (c :: sep) (y :: xs)).
    rewrite split_ws_space_mid by exact Hc. unfold split_ws at 2.
    rewrite split_aux_spaces by exact Hs. fold (split_ws (join (c :: sep) (y :: xs))).
    rewrite IH. reflexivity.
Qed.

Lemma has_nl_space c s : has_nl_in_run (c :: s) = true -> is_space c = true.
Proof. cbn [has_nl_in_run]. destruct (is_space c); [reflexivity|discriminate]. Qed.

Lemma psplit_words s cur skip :
  (skip = true -> cur = []) -> words_of (psplit s cur skip) = split_ws (rev cur ++ s).
Proof.
  revert cur skip; induction s as [|c s IH]; intros cur skip Hsk; cbn [psplit].
  - rewrite words_of_one, app_nil_r. reflexivity.
  - destruct (skip && has_nl_in_run (c :: s)) eqn:E1.
    + apply andb_prop in E1 as [Hs Hnl]. rewrite (Hsk Hs). cbn [rev app].
      rewrite IH by reflexivity. cbn [rev app].
      unfold split_ws. cbn [split_aux]. rewrite (has_nl_space c s Hnl). reflexivity.
    + destruct (is_newline c && has_nl_in_run s) eqn:E2.
      * apply andb_prop in E2 as [Hc _]. apply is_newline_space in Hc.
        change (rev cur :: psplit s [] true) with ([rev cur] ++ psplit s [] true).
        rewrite words_of_app, words_of_one, IH by reflexivity. cbn [rev app].
        rewrite split_ws_space_mid by exact Hc. reflexivity.
      * rewrite IH by discriminate. cbn [rev]. rewrite <- app_assoc. reflexivity.
Qed.

Lemma ssplit_words skipping prevp s cur :
  (skipping = true -> cur = []) ->
  words_of (ssplit skipping prevp s cur) = split_ws (rev cur ++ s).
Proof.
  revert skipping prevp cur; induction s as [|c s IH]; intros skipping prevp cur Hsk;
    cbn [ssplit].
  - rewrite words_of_one, app_nil_r. reflexivity.
  - destruct (is_space c && (skipping || prevp)) eqn:E1.
    + apply andb_prop in E1 as [Hc _]. destruct skipping.
      * rewrite (Hsk eq_refl). rewrite IH by (intros _; reflexivity).
        cbn [rev app]. unfold split_ws. cbn [split_aux]. rewrite Hc. reflexivity.
      * change (rev cur :: ssplit true false s []) with ([rev cur] ++ ssplit true false s []).
        rewrite words_of_app, words_of_one, IH by reflexivity. cbn [rev app].
        rewrite split_ws_space_mid by exact Hc. reflexivity.
    + rewrite IH by discriminate. cbn [rev]. rewrite <- app_assoc. reflexivity.
Qed.

Lemma strip_empty_words s : nonempty (strip s) = false -> split_ws s = [].
Proof.
  intros H. rewrite <- split_ws_strip. destruct (strip s); [reflexivity|discriminate].
Qed.

Lemma split_ws_space_join :
  forall xs, split_ws (join (s_ " ") xs) = words_of xs.
Proof. intros xs. apply split_ws_join_sep; [discriminate|reflexivity]. Qed.

Lemma split_ws_two_nl_join :
  forall xs, split_ws (join two_nl xs) = words_of xs.
Proof. intros xs. apply split_ws_join_sep; [discriminate|reflexivity]. Qed.

Lemma sent_step_words maxw st x :
  words_of (st_chunks (sent_step maxw st x)) ++ words_of (st_current (sent_step maxw st x)) =
  words_of (st_chunks st) ++ words_of (st_current st) ++ split_ws x.
Proof.
  unfold sent_step. destruct (negb (nonempty (strip x))) eqn:E.
  - apply negb_true_iff in E. rewrite (strip_empty_words x E), !app_nil_r. reflexivity.
  - cbv zeta. destruct st as [chunks current cw]. cbn [st_chunks st_current].
    rewrite <- split_ws_strip.
    destruct (cw + wc (strip x) <=? maxw); cbn [st_chunks st_current].
    + rewrite words_of_app, words_of_one. reflexivity.
    + destruct (wc (strip x) <=? maxw); cbn [st_chunks st_current];
      destruct current as [|c cs]; rewrite ?words_of_app, ?words_of_one, ?split_ws_space_join;
      cbn [words_of concat map]; rewrite ?app_nil_r, ?app_assoc, ?app_nil_r; reflexivity.
Qed.

Lemma sent_fold_words maxw l st :
  words_of (st_chunks (fold_left (sent_step maxw) l st)) ++
  words_of (st_current (fold_left (sent_step maxw) l st)) =
  words_of (st_chunks st) ++ words_of (st_current st) ++ words_of l.
Proof.
  revert st; induction l as [|x l IH]; intros st; cbn [fold_left].
  - cbn. rewrite app_nil_r. reflexivity.
  - rewrite IH, app_assoc, sent_step_words. change (x :: l) with ([x] ++ l).
    rewrite words_of_app, words_of_one, !app_assoc. reflexivity.
Qed.

Lemma sent_finish_words st :
  words_of (sent_finish st) = words_of (st_chunks st) ++ words_of (st_current st).
Proof.
  unfold sent_finish. destruct (st_current st) as [|c cs] eqn:E.
  - cbn. rewrite app_nil_r. reflexivity.
  - rewrite words_of_app, words_of_one, split_ws_space_join. reflexivity.
Qed.

Lemma split_paragraph_words p maxw soft :
  words_of (split_paragraph_by_sentences p maxw soft) = split_ws p.
Proof.
  unfold split_paragraph_by_sentences. rewrite sent_finish_words, sent_fold_words.
  unfold sent_split. rewrite ssplit_words by discriminate. reflexivity.
Qed.

Lemma para_step_words maxw soft st x :
  words_of (st_chunks (para_step maxw soft st x)) ++ words_of (st_current (para_step maxw soft st x)) =
  words_of (st_chunks st) ++ words_of (st_current st) ++ split_ws x.
Proof.
  unfold para_step. destruct (negb (nonempty (strip x))) eqn:E.
  - apply negb_true_iff in E. rewrite (strip_empty_words x E), !app_nil_r. reflexivity.
  - cbv zeta. destruct st as [chunks current cw]. cbn [st_chunks st_current].
    rewrite <- split_ws_strip.
    destruct (cw + wc (strip x) <=? maxw); cbn [st_chunks st_current].
    + rewrite words_of_app, words_of_one. reflexivity.
    + destruct ((soft <=? cw) || negb (match current with [] => false | _ => true end));
      destruct (wc (strip x) <=? maxw); cbn [st_chunks st_current];
      destruct current as [|c cs];
      rewrite ?words_of_app, ?words_of_one, ?split_ws_two_nl_join, ?split_paragraph_words;
      cbn [words_of concat map]; rewrite ?app_nil_r, ?app_assoc, ?app_nil_r; reflexivity.
Qed.

Lemma para_fold_words maxw soft l st :
  words_of (st_chunks (fold_left (para_step maxw soft) l st)) ++
  words_of (st_current (fold_left (para_step maxw soft) l st)) =
  words_of (st_chunks st) ++ words_of (st_current st) ++ words_of l.
Proof.
  revert st; induction l as [|x l IH]; intros st; cbn [fold_left].
  - cbn. rewrite app_nil_r. reflexivity.
  - rewrite IH, app_assoc, para_step_words. change (x :: l) with ([x] ++ l).
    rewrite words_of_app, words_of_one, !app_assoc. reflexivity.
Qed.

Lemma semantic_split_keeps_words text maxw soft :
  words_of (semantic_split text maxw soft) = split_ws text.
Proof.
  unfold semantic_split, para_finish.
  destruct (st_current (fold_left (para_step maxw soft) (para_split text) st0)) as [|c cs] eqn:E.
  - pose proof (para_fold_words maxw soft (para_split text) st0) as H.
    rewrite E in H. cbn in H. rewrite !app_nil_r in H. rewrite H.
    unfold para_split. rewrite psplit_words by discriminate. reflexivity.
  - rewrite words_of_app, words_of_one, split_ws_two_nl_join, <- E, para_fold_words.
    cbn. unfold para_split. rewrite psplit_words by discriminate. reflexivity.
Qed.

(** [_semantic_split] loses, adds and reorders no word: the words of its
    chunks, one chunk after the other, are the words of the text; the
    same holds for [_split_paragraph_by_sentences] on a paragraph. *)
Theorem semantic_split_words (text : str) (max_words soft_max_words : nat) :
  concat (map split_ws (semantic_split text max_words soft_max_words)) = split_ws text /\
  concat (map split_ws (split_paragraph_by_sentences text max_words soft_max_words)) =
  split_ws text.
Proof.
  split; [apply semantic_split_keeps_words|apply split_paragraph_words].
Qed.

(* ------------------------------------------------------------------ *)
(** ** Instances of the properties with hypotheses *)

Lemma segment_document_keeps_text_witness :
  In body_block [body_block] /\ b_type body_block = B_TEXT /\ strip (b_content body_block) <> [] /\
  exists s, In s (segment_document_levels (fun x => x) 18 14 12 10 [body_block]) /\
    (seg_heading s = strip (b_content body_block) \/
     exists pre post, seg_content s = join two_nl (pre ++ strip (b_content body_block) :: post)).
Proof.
  split; [left; reflexivity|split; [reflexivity|split; [vm_compute; discriminate|]]].
  apply (segment_document_keeps_text (fun x => x) 18 14 12 10 [body_block] body_block);
    [left; reflexivity|reflexivity|vm_compute; discriminate].
Defined.

Definition demo_rows : list (option (list (option str))) :=
  [Some [Some (s_ "Reagent"); None; Some (s_ " Lot ")]; None; Some [Some (s_ "R1")]].

Lemma demo_rows_cells : forall row s, In (Some row) demo_rows -> In (Some s) row ->
  forallb (fun d => negb (is_pipe d) && negb (is_newline d)) s = true.
Proof.
  intros row s Hr Hs. cbn in Hr.
  destruct Hr as [Hr|[Hr|[Hr|[]]]]; try discriminate; injection Hr as <-; cbn in Hs;
  repeat (destruct Hs as [Hs|Hs]; [try discriminate; injection Hs as <-; reflexivity|]);
  destruct Hs.
Qed.

Lemma serialize_table_header_cells_witness :
  map header_cells (split_on is_newline (serialize_table demo_rows) []) =
  map (map cell_text) (present_rows demo_rows) /\
  map header_cells (split_on is_newline (serialize_table demo_rows) []) =
  [[s_ "Reagent"; []; s_ "Lot"]; [s_ "R1"]].
Proof.
  split.
  - apply serialize_table_header_cells.
    + exact demo_rows_cells.
    + intros row Hr. cbn in Hr. destruct Hr as [Hr|[Hr|[Hr|[]]]]; try discriminate;
      injection Hr as <-; discriminate.
    + exists [Some (s_ "R1")]. right; right; left; reflexivity.
  - vm_compute. reflexivity.
Defined.

(** A PDF upload whose layout gives the reagent table as its only segment. *)
Definition demo_extract (include_keywords : bool) :=
  extract_document fixed_ids (fun h => h) (fun _ => []) [] false (fun _ => inr [])
    (fun _ => inr []) (fun _ => [reagent_table]) [] (s_ "manual.pdf") (s_ "application/pdf")
    (s_ "f") false include_keywords.

Definition demo_doc : DocumentSchema := mkDocument (s_ "f") (mkSource (s_ "manual.pdf") [] []) [fixed_ids 1].

Definition demo_secs : list SectionSchema :=
  [mkSection (fixed_ids 1) (s_ "f") (s_ "Reagents") TABLE reagent_table_text [s_ "Reagents"] HIGH None].

Lemma extract_document_result_witness :
  demo_extract true = inr (demo_doc, demo_secs) /\
  doc_file_id demo_doc = s_ "f" /\
  doc_source demo_doc = mkSource (s_ "manual.pdf") [] [] /\
  doc_sections demo_doc = map section_id demo_secs /\
  Forall (fun s => content s = join (s_ " ") (split_ws (content s))) demo_secs.
Proof.
  assert (H : demo_extract true = inr (demo_doc, demo_secs)) by (vm_compute; reflexivity).
  split; [exact H|].
  exact (extract_document_result fixed_ids (fun h => h) (fun _ => []) [] false (fun _ => inr [])
           (fun _ => inr []) (fun _ => [reagent_table]) [] (s_ "manual.pdf") (s_ "application/pdf")
           (s_ "f") false true demo_doc demo_secs H).
Defined.

Lemma extract_document_keywords_from_heading_witness :
  demo_extract true = inr (demo_doc, demo_secs) /\
  Forall (fun s => Forall (fun k => exists t, In t (tokenize_heading (heading s)) /\ k = firstn 80 t)
                          (keywords s)) demo_secs.
Proof.
  assert (H : demo_extract true = inr (demo_doc, demo_secs)) by (vm_compute; reflexivity).
  split; [exact H|].
  exact (extract_document_keywords_from_heading fixed_ids (fun h => h) (fun _ => []) [] false
           (fun _ => inr []) (fun _ => inr []) (fun _ => [reagent_table]) [] (s_ "manual.pdf")
           (s_ "application/pdf") (s_ "f") false demo_doc demo_secs H).
Defined.
